(** * CrmCALLPRO: the script interpreter and the agent call session

    A shallow embedding of the logic of the repository:

    - [components/AgentPreview.tsx]: [checkCondition], [handleValueChange],
      [handleCheckboxChange], [handleButtonClick], [renderBlock] and the
      part of the render that selects the current page and its visible
      blocks;
    - [components/AgentView.tsx]: the call status handlers, the per-second
      interval of the [useEffect] and the wrap-up timeout of [handleEndCall],
      [formatDuration] and the main panel, together with the mounting and
      unmounting done by [App];
    - [App.tsx] and [components/UserManager.tsx]: the handlers that save,
      delete, import and generate the records of the stores, the delete
      button and the form of the users.

    React state is modelled by explicit state passing: a handler is a
    function from the component state to the next component state, and the
    timers the component registers with the browser are part of the state of
    the page. *)

From Stdlib Require Import Ascii.
From stdpp Require Import gmap strings list fin_maps pretty.

Open Scope string_scope.
Open Scope list_scope.
Open Scope nat_scope.

(** ** JavaScript values held by scripts and answers *)

Module Js.

(** A number is NaN or a number other than NaN, written by its integer
    value.  The two zeros are one value for [===] and for [includes]. *)
Inductive Num :=
| NaN
| Finite (z : Z).

Inductive Prim :=
| PUndefined
| PNull
| PBool (b : bool)
| PNum (n : Num)
| PStr (s : string).

(** The answers of a script are primitives or flat arrays of primitives:
    [e.target.value] strings and the option lists of check boxes.  Reading
    a key of the answers can also give a member that the answers, a plain
    object, inherit from [Object.prototype], see [get]: a function
    ([Object.prototype] itself under "__proto__"), written here by the key
    it is found under.  It is an object that is neither an array nor
    iterable, it has no [filter], and it is identical to itself only. *)
Inductive Value :=
| VPrim (p : Prim)
| VArr (items : list Prim)
| VInherited (key : string).

#[global] Instance Num_eq_dec : EqDecision Num.
Proof. solve_decision. Defined.

#[global] Instance Prim_eq_dec : EqDecision Prim.
Proof. solve_decision. Defined.

Definition undefined : Value := VPrim PUndefined.
Definition str (s : string) : Value := VPrim (PStr s).
Definition arr (l : list string) : Value := VArr (PStr <$> l).

(** [a === b] on primitives: NaN differs from itself. *)
Definition strict_eq_prim (a b : Prim) : bool :=
  match a, b with
  | PUndefined, PUndefined => true
  | PNull, PNull => true
  | PBool x, PBool y => Bool.eqb x y
  | PNum (Finite x), PNum (Finite y) => Z.eqb x y
  | PStr s, PStr t => String.eqb s t
  | _, _ => false
  end.

(** SameValueZero, the comparison of [Array.prototype.includes]: as
    [===], but NaN is found. *)
Definition same_value_zero_prim (a b : Prim) : bool :=
  match a, b with
  | PNum NaN, PNum NaN => true
  | _, _ => strict_eq_prim a b
  end.

(** [p === v] with a primitive on the left: an array or a function is an
    object, and no primitive is strictly equal to an object. *)
Definition strict_eq (p : Prim) (v : Value) : bool :=
  match v with
  | VPrim q => strict_eq_prim p q
  | VArr _ => false
  | VInherited _ => false
  end.

(** [f === v] with an inherited member on the left: identity. *)
Definition same_object (key : string) (v : Value) : bool :=
  match v with
  | VInherited other => String.eqb key other
  | _ => false
  end.

Definition same_value_zero (p : Prim) (v : Value) : bool :=
  match v with
  | VPrim q => same_value_zero_prim p q
  | VArr _ => false
  | VInherited _ => false
  end.

(** [items.includes(v)] *)
Definition includes (items : list Prim) (v : Value) : bool :=
  existsb (fun item => same_value_zero item v) items.

(** ToBoolean *)
Definition truthy (v : Value) : bool :=
  match v with
  | VPrim PUndefined => false
  | VPrim PNull => false
  | VPrim (PBool b) => b
  | VPrim (PNum NaN) => false
  | VPrim (PNum (Finite z)) => negb (Z.eqb z 0)
  | VPrim (PStr s) => negb (String.eqb s "")
  | VArr _ => true
  | VInherited _ => true
  end.

(** [a || b] *)
Definition or_else (a b : Value) : Value := if truthy a then a else b.

(** A string is held as the bytes of its UTF-8 form.  The number of bytes
    of the code point that the byte [b] starts: one below 0xC0, two below
    0xE0, three below 0xF0, four from there on. *)
Definition width (b : ascii) : nat :=
  let n := nat_of_ascii b in
  if n <? 192 then 1 else if n <? 224 then 2 else if n <? 240 then 3 else 4.

(** The items that the iterator of a string yields: one string for each
    code point.  [point] holds the bytes read of the current code point and
    [more] is the number of bytes it still lacks. *)
Fixpoint chars_from (more : nat) (point : string) (s : string) : list Prim :=
  match s with
  | EmptyString => [PStr point]
  | String b rest =>
      match more with
      | S more' => chars_from more' (point +:+ String b EmptyString) rest
      | 0 => PStr point :: chars_from (width b - 1) (String b EmptyString) rest
      end
  end.

Definition chars (s : string) : list Prim :=
  match s with
  | EmptyString => []
  | String b rest => chars_from (width b - 1) (String b EmptyString) rest
  end.

(** [[...v]]: arrays and strings are iterable; spreading any other value
    throws a TypeError. *)
Definition spread (v : Value) : option (list Prim) :=
  match v with
  | VArr items => Some items
  | VPrim (PStr s) => Some (chars s)
  | VPrim _ => None
  | VInherited _ => None
  end.

(** The keys that a plain object inherits from [Object.prototype]. *)
Definition inherited : list string :=
  [ "constructor"; "hasOwnProperty"; "isPrototypeOf"; "propertyIsEnumerable";
    "toLocaleString"; "toString"; "valueOf"; "__proto__";
    "__defineGetter__"; "__defineSetter__"; "__lookupGetter__";
    "__lookupSetter__" ].

(** [values[key]] on the answers, a plain object: a key that was written
    reads what was written; a key that was never written reads the member
    of that name that the object inherits, and [undefined] when there is
    none. *)
Definition get (values : gmap string Value) (key : string) : Value :=
  match values !! key with
  | Some v => v
  | None => if bool_decide (key ∈ inherited) then VInherited key else undefined
  end.

End Js.

(** An operation either completes or throws a TypeError. *)
Inductive Outcome (A : Type) :=
| Done (a : A)
| TypeError.
Arguments Done {A} a.
Arguments TypeError {A}.

Definition and_then {A B : Type} (o : Outcome A) (f : A → Outcome B) : Outcome B :=
  match o with
  | Done a => f a
  | TypeError => TypeError
  end.

(** ** The script interpreter of [AgentPreview.tsx] *)

Module Script.

Import Js.

(** [DisplayCondition]: [blockName] is [None] when it is null or missing. *)
Record DisplayCondition := {
  blockName : option string;
  value : Value
}.

(** [ButtonAction]: a type tag and, for [navigate], a page identifier. *)
Record ButtonAction := {
  type : string;
  pageId : option string
}.

Record ScriptBlock := {
  block_id : string;
  block_type : string;
  block_name : string;
  displayCondition : option DisplayCondition;
  block_action : option ButtonAction
}.

Record Page := {
  page_id : string;
  page_name : string;
  blocks : list ScriptBlock
}.

Record SavedScript := {
  startPageId : string;
  pages : list Page
}.

(** The two [useState] cells of the component. *)
Record State := {
  formValues : gmap string Value;
  currentPageId : string
}.

Definition initial (script : SavedScript) : State :=
  {| formValues := ∅; currentPageId := startPageId script |}.

(** What a handler shows to its caller: the [alert] of a save carries the
    answers. *)
Inductive Effect :=
| Alert (answers : gmap string Value).

Definition checkCondition (condition : option DisplayCondition)
    (values : gmap string Value) : bool :=
  match condition with
  | None => true
  | Some c =>
      match blockName c with
      | None => true
      | Some name =>
          if String.eqb name "" then true
          else
            match get values name with
            | VArr items => includes items (value c)
            | VPrim p => strict_eq p (value c)
            | VInherited key => same_object key (value c)
            end
      end
  end.

Definition handleValueChange (name : string) (v : Value) (st : State) : State :=
  {| formValues := <[name := v]> (formValues st);
     currentPageId := currentPageId st |}.

(** [item !== option] *)
Definition differs (option : string) (item : Prim) : bool :=
  negb (strict_eq_prim item (PStr option)).

Definition handleCheckboxChange (name option : string) (checked : bool)
    (st : State) : Outcome State :=
  let prev := formValues st in
  let existing := or_else (get prev name) (VArr []) in
  if checked then
    match spread existing with
    | Some items =>
        Done {| formValues := <[name := VArr (items ++ [PStr option])]> prev;
                currentPageId := currentPageId st |}
    | None => TypeError
    end
  else
    match existing with
    | VArr items =>
        Done {| formValues := <[name := VArr (List.filter (differs option) items)]> prev;
                currentPageId := currentPageId st |}
    | VPrim _ => TypeError
    | VInherited _ => TypeError
    end.

(** [l.findIndex(f)]: the first position that satisfies [f], or -1. *)
Fixpoint findIndex {A : Type} (f : A → bool) (l : list A) : Z :=
  match l with
  | [] => -1
  | x :: rest =>
      if f x then 0
      else
        let i := findIndex f rest in
        if (i <? 0)%Z then -1 else (i + 1)%Z
  end.

(** [l[i]]: [undefined], here [None], outside of the array. *)
Definition at_index {A : Type} (l : list A) (i : Z) : option A :=
  if (i <? 0)%Z then None else l !! Z.to_nat i.

Definition has_id (id : string) (p : Page) : bool := String.eqb (page_id p) id.

Definition setCurrentPageId (id : string) (st : State) : State :=
  {| formValues := formValues st; currentPageId := id |}.

(** Reading [.id] of [script.pages[i]] throws when the entry is missing. *)
Definition goToIndex (script : SavedScript) (i : Z) (st : State)
    : Outcome (State * list Effect) :=
  match at_index (pages script) i with
  | Some p => Done (setCurrentPageId (page_id p) st, [])
  | None => TypeError
  end.

Definition handleButtonClick (script : SavedScript) (action : ButtonAction)
    (st : State) : Outcome (State * list Effect) :=
  if String.eqb (type action) "save" then
    Done (st, [Alert (formValues st)])
  else if String.eqb (type action) "navigate" then
    match pageId action with
    | Some id =>
        if String.eqb id "" then Done (st, [])
        else Done (setCurrentPageId id st, [])
    | None => Done (st, [])
    end
  else if String.eqb (type action) "next" then
    let currentIndex := findIndex (has_id (currentPageId st)) (pages script) in
    if (currentIndex <? Z.of_nat (length (pages script)) - 1)%Z then
      goToIndex script (currentIndex + 1) st
    else Done (st, [])
  else if String.eqb (type action) "previous" then
    let currentIndex := findIndex (has_id (currentPageId st)) (pages script) in
    if (currentIndex >? 0)%Z then
      goToIndex script (currentIndex - 1) st
    else Done (st, [])
  else Done (st, []).

(** A run of button clicks; a throw ends it. *)
Fixpoint clicks (script : SavedScript) (actions : list ButtonAction)
    (st : State) : Outcome State :=
  match actions with
  | [] => Done st
  | a :: rest =>
      match handleButtonClick script a st with
      | Done (st', _) => clicks script rest st'
      | TypeError => TypeError
      end
  end.

(** [script.pages.find(p => p.id === currentPageId)] *)
Definition currentPage (script : SavedScript) (st : State) : option Page :=
  List.find (has_id (currentPageId st)) (pages script).

Definition visible (values : gmap string Value) (block : ScriptBlock) : bool :=
  negb (String.eqb (block_type block) "group")
  && checkCondition (displayCondition block) values.

(** What the component draws for the script: the name of the current page
    in the header ([currentPage?.name]) and the blocks of the page that
    pass the filter ([currentPage?.blocks.filter(...)]). *)
Record Screen := {
  shownPageName : option string;
  shownBlocks : list ScriptBlock
}.

Definition render (script : SavedScript) (st : State) : Screen :=
  let page := currentPage script st in
  {| shownPageName := page_name <$> page;
     shownBlocks :=
       match page with
       | Some p => List.filter (visible (formValues st)) (blocks p)
       | None => []
       end |}.

Definition blank : Screen := {| shownPageName := None; shownBlocks := [] |}.

Definition page_ids (script : SavedScript) : list string :=
  page_id <$> pages script.

(** The page pointer names a page of the script. *)
Definition page_exists (script : SavedScript) (st : State) : Prop :=
  currentPageId st ∈ page_ids script.

(** A [navigate] action whose target, when it has one, is a page of the
    script; any other action. *)
Definition well_targeted (script : SavedScript) (action : ButtonAction) : Prop :=
  type action = "navigate" →
  match pageId action with
  | Some id => id = "" ∨ id ∈ page_ids script
  | None => True
  end.

(** Check [a], check [b], then uncheck [a], on the block [name]. *)
Definition check_check_uncheck (name a b : string) (st : State) : Outcome State :=
  and_then
    (and_then (handleCheckboxChange name a true st)
       (handleCheckboxChange name b true))
    (handleCheckboxChange name a false).

(** [evaluateVisibility] as the specification words it: a condition
    without a block name holds; otherwise the stored answer decides. *)
Definition evaluateVisibility_spec (condition : option DisplayCondition)
    (values : gmap string Value) : bool :=
  match condition with
  | None => true
  | Some c =>
      match blockName c with
      | None => true
      | Some name =>
          match get values name with
          | VArr items => includes items (value c)
          | VPrim p => strict_eq p (value c)
          | VInherited key => same_object key (value c)
          end
      end
  end.

(** The specification's reading of a dangling [navigate]: the click does
    not throw, it signals something to its caller, and the screen that
    follows is not blank. *)
Definition dangling_surfaced (script : SavedScript) (action : ButtonAction)
    (st : State) : Prop :=
  ∃ st' effects,
    handleButtonClick script action st = Done (st', effects)
    ∧ effects ≠ []
    ∧ render script st' ≠ blank.

Definition save : ButtonAction := {| type := "save"; pageId := None |}.
Definition next : ButtonAction := {| type := "next"; pageId := None |}.
Definition previous : ButtonAction := {| type := "previous"; pageId := None |}.
Definition navigate (id : string) : ButtonAction :=
  {| type := "navigate"; pageId := Some id |}.

(** A script whose start page is not one of its pages. *)
Definition orphan (ps : list Page) : SavedScript :=
  {| startPageId := "p0"; pages := ps |}.

(** A small script: three pages, one of them with a conditional block. *)
Definition demo : SavedScript :=
  {| startPageId := "p1";
     pages :=
       [ {| page_id := "p1"; page_name := "Accueil";
            blocks := [ {| block_id := "b1"; block_type := "radio";
                           block_name := "q1"; displayCondition := None;
                           block_action := None |} ] |};
         {| page_id := "p2"; page_name := "Offre";
            blocks := [ {| block_id := "b2"; block_type := "text";
                           block_name := "t1";
                           displayCondition :=
                             Some {| blockName := Some "q1"; value := str "yes" |};
                           block_action := None |} ] |};
         {| page_id := "p3"; page_name := "Fin"; blocks := [] |} ] |}.

(** A script in which the first and the third page have one identifier. *)
Definition first_twin : Page :=
  {| page_id := "1"; page_name := "Accueil"; blocks := [] |}.
Definition between_twins : Page :=
  {| page_id := "2"; page_name := "Offre"; blocks := [] |}.
Definition second_twin : Page :=
  {| page_id := "1"; page_name := "Fin"; blocks := [] |}.

Definition twins : SavedScript :=
  {| startPageId := "2";
     pages := [first_twin; between_twins; second_twin] |}.

End Script.

(** ** The agent call session of [AgentView.tsx] *)

Module Session.

Inductive AgentCtiStatus :=
| LOGGED_OUT
| WAITING
| IN_CALL
| WRAP_UP
| PAUSED.

#[global] Instance AgentCtiStatus_eq_dec : EqDecision AgentCtiStatus.
Proof. solve_decision. Defined.

Definition status_eqb (a b : AgentCtiStatus) : bool :=
  match a, b with
  | LOGGED_OUT, LOGGED_OUT
  | WAITING, WAITING
  | IN_CALL, IN_CALL
  | WRAP_UP, WRAP_UP
  | PAUSED, PAUSED => true
  | _, _ => false
  end.

Record Contact := {
  contact_id : string;
  firstName : string;
  lastName : string;
  phoneNumber : string;
  postalCode : string;
  status : string
}.

Record Campaign := {
  campaign_id : string;
  campaign_name : string;
  isActive : bool;
  scriptId : string;
  contacts : list Contact
}.

Record User := {
  user_id : string;
  campaignIds : list string
}.

(** The three [useState] cells of [AgentView]. *)
Record View := {
  ctiStatus : AgentCtiStatus;
  statusTimer : nat;
  currentContact : option Contact
}.

Definition fresh : View :=
  {| ctiStatus := LOGGED_OUT; statusTimer := 0; currentContact := None |}.

(** [campaigns.find(c => c.id === agent.campaignIds[0] && c.isActive)] *)
Definition assigned (agent : User) (c : Campaign) : bool :=
  match head (campaignIds agent) with
  | Some id => String.eqb (campaign_id c) id
  | None => false
  end
  && isActive c.

Definition agentCampaign (agent : User) (campaigns : list Campaign)
    : option Campaign :=
  List.find (assigned agent) campaigns.

Definition pending (c : Contact) : bool := String.eqb (status c) "pending".

(** What the handlers show to the agent, and what the browser runs. *)
Inductive Notice :=
| NoMoreContacts
| WrapUpFired (owner : nat) (live : bool).

(** *** The handlers, on the state of the component *)

Definition handleLoginClick (v : View) : View :=
  {| ctiStatus := WAITING; statusTimer := 0; currentContact := currentContact v |}.

Definition handleNextCall (campaign : option Campaign) (v : View)
    : View * list Notice :=
  match campaign with
  | None => (v, [])
  | Some c =>
      match List.find pending (contacts c) with
      | Some nextContact =>
          ({| ctiStatus := IN_CALL; statusTimer := 0;
              currentContact := Some nextContact |}, [])
      | None =>
          ({| ctiStatus := WAITING; statusTimer := statusTimer v;
              currentContact := currentContact v |}, [NoMoreContacts])
      end
  end.

(** The state part of [handleEndCall]; the handler also registers
    [wrapUpCallback] with [setTimeout], see [click]. *)
Definition handleEndCall (v : View) : View :=
  {| ctiStatus := WRAP_UP; statusTimer := 0; currentContact := currentContact v |}.

Definition wrapUpCallback (v : View) : View :=
  {| ctiStatus := WAITING; statusTimer := 0; currentContact := None |}.

Definition wrapUpDelay : nat := 10.

(** The state the wrap-up callback leaves, written out. *)
Definition available : View :=
  {| ctiStatus := WAITING; statusTimer := 0; currentContact := None |}.

Definition handlePause (v : View) : View :=
  {| ctiStatus := PAUSED; statusTimer := 0; currentContact := currentContact v |}.

Definition handleResume (v : View) : View :=
  {| ctiStatus := WAITING; statusTimer := 0; currentContact := currentContact v |}.

(** The interval callback: [setStatusTimer(prev => prev + 1)]. *)
Definition tick (v : View) : View :=
  {| ctiStatus := ctiStatus v; statusTimer := statusTimer v + 1;
     currentContact := currentContact v |}.

(** *** The page: the component, its props and the browser's timers *)

(** A pending [setTimeout]: the mount that registered it and the seconds
    left.  [handleEndCall] drops the identifier [setTimeout] returns, so
    nothing can clear an entry. *)
Record Timeout := {
  owner : nat;
  remaining : nat
}.

Record World := {
  agent : User;
  campaigns : list Campaign;
  mounted : option View;        (* the state of [AgentView] while it is mounted *)
  instance : nat;               (* how many times [AgentView] was mounted *)
  interval : option nat;        (* seconds to the next tick of the registered interval *)
  timeouts : list Timeout;
  log : list Notice
}.

Definition boot (a : User) (cs : list Campaign) : World :=
  {| agent := a; campaigns := cs; mounted := None; instance := 0;
     interval := None; timeouts := []; log := [] |}.

(** The buttons of the footer, each drawn for one status only. *)
Inductive Button :=
| StartSession
| NextCall
| Pause
| Resume
| HangUp.

Definition shown (s : AgentCtiStatus) (b : Button) : bool :=
  match s, b with
  | LOGGED_OUT, StartSession => true
  | WAITING, NextCall => true
  | WAITING, Pause => true
  | PAUSED, Resume => true
  | IN_CALL, HangUp => true
  | _, _ => false
  end.

(** The [useEffect] on [ctiStatus], run after a render in which the
    status changed: the cleanup clears the old interval; then a logged-out
    component zeroes the counter and registers nothing, any other status
    registers a new interval. *)
Definition effect (v : View) : View * option nat :=
  match ctiStatus v with
  | LOGGED_OUT =>
      ({| ctiStatus := LOGGED_OUT; statusTimer := 0;
          currentContact := currentContact v |}, None)
  | _ => (v, Some 1)
  end.

(** Commit the component state [v] that follows the status [before]. *)
Definition commit (before : AgentCtiStatus) (v : View) (extra : list Timeout)
    (said : list Notice) (w : World) : World :=
  let '(v', iv) :=
    if status_eqb before (ctiStatus v) then (v, interval w) else effect v in
  {| agent := agent w; campaigns := campaigns w; mounted := Some v';
     instance := instance w; interval := iv;
     timeouts := timeouts w ++ extra; log := log w ++ said |}.

Definition click (b : Button) (w : World) : World :=
  match mounted w with
  | None => w
  | Some v =>
      if shown (ctiStatus v) b then
        match b with
        | StartSession => commit (ctiStatus v) (handleLoginClick v) [] [] w
        | NextCall =>
            let '(v', said) :=
              handleNextCall (agentCampaign (agent w) (campaigns w)) v in
            commit (ctiStatus v) v' [] said w
        | Pause => commit (ctiStatus v) (handlePause v) [] [] w
        | Resume => commit (ctiStatus v) (handleResume v) [] [] w
        | HangUp =>
            commit (ctiStatus v) (handleEndCall v)
              [{| owner := instance w; remaining := wrapUpDelay |}] [] w
        end
      else w
  end.

(** [App] mounts [AgentView] when an agent signs in: fresh state, and the
    effect of the first render, which registers no interval. *)
Definition mount (w : World) : World :=
  match mounted w with
  | Some _ => w
  | None =>
      {| agent := agent w; campaigns := campaigns w;
         mounted := Some (fst (effect fresh));
         instance := S (instance w); interval := snd (effect fresh);
         timeouts := timeouts w; log := log w |}
  end.

(** [onLogout]: [App] unmounts [AgentView]; the cleanup of the effect
    clears the interval.  No code clears the timeouts. *)
Definition logout (w : World) : World :=
  {| agent := agent w; campaigns := campaigns w; mounted := None;
     instance := instance w; interval := None;
     timeouts := timeouts w; log := log w |}.

(** A due wrap-up callback runs.  Its three setters belong to the mount
    that registered it: React applies them when that component is still
    mounted and drops them otherwise. *)
Definition fire (t : Timeout) (w : World) : World :=
  match mounted w with
  | Some v =>
      if Nat.eqb (owner t) (instance w) then
        commit (ctiStatus v) (wrapUpCallback v) [] [WrapUpFired (owner t) true] w
      else
        commit (ctiStatus v) v [] [WrapUpFired (owner t) false] w
  | None =>
      {| agent := agent w; campaigns := campaigns w; mounted := None;
         instance := instance w; interval := interval w;
         timeouts := timeouts w; log := log w ++ [WrapUpFired (owner t) false] |}
  end.

Definition due (t : Timeout) : bool := Nat.leb (remaining t) 1.

Definition age (t : Timeout) : Timeout :=
  {| owner := owner t; remaining := remaining t - 1 |}.

(** The callback of the interval, when its second is over. *)
Definition beat (w : World) : World :=
  match interval w, mounted w with
  | Some 0, Some v =>
      {| agent := agent w; campaigns := campaigns w; mounted := Some (tick v);
         instance := instance w; interval := Some 1;
         timeouts := timeouts w; log := log w |}
  | _, _ => w
  end.

(** The timers count down one second; the timeouts that are due leave the
    list of the pending ones. *)
Definition expired (w : World) : list Timeout := List.filter due (timeouts w).

Definition elapse (w : World) : World :=
  {| agent := agent w; campaigns := campaigns w; mounted := mounted w;
     instance := instance w; interval := Nat.pred <$> interval w;
     timeouts := age <$> List.filter (λ t, negb (due t)) (timeouts w);
     log := log w |}.

(** One second passes.  The timers count down; the timeouts that are due
    run first, in the order of their registration (a wrap-up timeout is
    registered by the handler, before the effect registers the interval of
    the same status), then the interval, unless a callback has replaced it
    meanwhile. *)
Definition second (w : World) : World :=
  beat (foldl (λ acc t, fire t acc) (elapse w) (expired w)).

Inductive Event :=
| AppLogin
| Logout
| Click (b : Button)
| Second.

Definition step (e : Event) (w : World) : World :=
  match e with
  | AppLogin => mount w
  | Logout => logout w
  | Click b => click b w
  | Second => second w
  end.

Definition run (events : list Event) (w : World) : World :=
  foldl (fun acc e => step e acc) w events.

(** The worlds an agent can bring about. *)
Inductive reachable (a : User) (cs : list Campaign) : World → Prop :=
| reach_boot : reachable a cs (boot a cs)
| reach_step e w : reachable a cs w → reachable a cs (step e w).

(** The information panel of the render. *)
Inductive InfoPanel :=
| NoActiveCampaign
| CampaignInfo (name : string) (onLine : option Contact).

Definition infoPanel (w : World) : option InfoPanel :=
  match mounted w with
  | None => None
  | Some v =>
      Some
        match agentCampaign (agent w) (campaigns w) with
        | Some c =>
            CampaignInfo (campaign_name c)
              match ctiStatus v with
              | IN_CALL => currentContact v
              | _ => None
              end
        | None => NoActiveCampaign
        end
  end.

(** The specification's reading of a request without a campaign: the
    request changes no state and tells its caller so. *)
Definition no_campaign_reported (w : World) : Prop :=
  let w' := click NextCall w in
  mounted w' = mounted w ∧ log w' ≠ log w.

(** [n] seconds without any input. *)
Definition seconds (n : nat) : list Event := replicate n Second.

(** A timeout of an earlier mount. *)
Definition stale (w : World) (t : Timeout) : Prop := owner t ≠ instance w.

(** A timeout of the mounted component runs out when the counter of the
    wrap-up reaches the delay. *)
Definition counting (w : World) (v : View) (t : Timeout) : Prop :=
  owner t = instance w →
  (1 ≤ remaining t)%nat ∧ remaining t + statusTimer v = wrapUpDelay.

(** What holds of the page between two events: which timers are
    registered, for each status of the mounted component. *)
Definition settled (w : World) : Prop :=
  Forall (λ t, (owner t ≤ instance w)%nat) (timeouts w)
  ∧ match mounted w with
    | None => interval w = None
    | Some v =>
        match ctiStatus v with
        | LOGGED_OUT =>
            interval w = None ∧ statusTimer v = 0 ∧ currentContact v = None
            ∧ Forall (stale w) (timeouts w)
        | WAITING | PAUSED =>
            interval w = Some 1 ∧ currentContact v = None
            ∧ Forall (stale w) (timeouts w)
        | IN_CALL =>
            interval w = Some 1 ∧ is_Some (currentContact v)
            ∧ Forall (stale w) (timeouts w)
        | WRAP_UP =>
            interval w = Some 1
            ∧ Exists (λ t, owner t = instance w) (timeouts w)
            ∧ Forall (counting w v) (timeouts w)
        end
    end.

(** An agent whose first campaign is the active campaign "c1", and the
    contacts of that campaign. *)
Definition contact (id st : string) : Contact :=
  {| contact_id := id; firstName := "Jean"; lastName := "Martin";
     phoneNumber := "0102030405"; postalCode := "75001"; status := st |}.

Definition demo_agent : User := {| user_id := "u1"; campaignIds := ["c1"] |}.

Definition demo_campaigns : list Campaign :=
  [ {| campaign_id := "c1"; campaign_name := "Relance"; isActive := true;
       scriptId := "s1";
       contacts := [contact "1" "done"; contact "2" "pending";
                    contact "3" "pending"] |} ].

(** An agent who is a member of no campaign. *)
Definition idle_agent : User := {| user_id := "u2"; campaignIds := [] |}.

(** Signed in and waiting for a call, with and without a campaign. *)
Definition waiting_room : World :=
  run [AppLogin; Click StartSession] (boot demo_agent demo_campaigns).

Definition lonely_room : World :=
  run [AppLogin; Click StartSession] (boot idle_agent demo_campaigns).

(** A call ended by a logout right after the agent has hung up. *)
Definition left_in_wrap_up : World :=
  run [Click NextCall; Click HangUp; Logout] waiting_room.

(** Signed in to the application, the session not started yet. *)
Definition signed_in : World := run [AppLogin] (boot demo_agent demo_campaigns).

(** Seven seconds into the wait for a call, and the state of the component
    then and after a click on the pause button. *)
Definition after_seven : World := run (seconds 7) waiting_room.

Definition waited_seven : View :=
  {| ctiStatus := WAITING; statusTimer := 7; currentContact := None |}.

Definition paused : View :=
  {| ctiStatus := PAUSED; statusTimer := 0; currentContact := None |}.

(** A campaign whose contacts have all been called, and a request for the
    next call in it. *)
Definition called_out : list Campaign :=
  [ {| campaign_id := "c1"; campaign_name := "Relance"; isActive := true;
       scriptId := "s1";
       contacts := [contact "1" "done"; contact "2" "done"] |} ].

Definition empty_queue : World :=
  run [AppLogin; Click StartSession; Click NextCall] (boot demo_agent called_out).

End Session.

(** ** The blocks of [AgentPreview.tsx] and what the agent can do with them *)

Module Preview.

Import Js Script.

(** The display condition that waits for the value [v] of the block
    [name]. *)
Definition on (name : string) (v : Value) : option DisplayCondition :=
  Some {| blockName := Some name; value := v |}.

(** What [renderBlock] draws for a block, by the type of the block. *)
Inductive Affordance :=
| TextDisplay
| ValueInput
| RadioGroup
| CheckboxGroup
| DropdownList
| EmbeddedFrame
| ActionButton
| Unsupported.

Definition renderBlock (block : ScriptBlock) : Affordance :=
  let t := block_type block in
  if String.eqb t "label" then TextDisplay
  else if String.eqb t "text" then TextDisplay
  else if String.eqb t "input" then ValueInput
  else if String.eqb t "radio" then RadioGroup
  else if String.eqb t "checkbox" then CheckboxGroup
  else if String.eqb t "dropdown" then DropdownList
  else if String.eqb t "date" then ValueInput
  else if String.eqb t "phone" then ValueInput
  else if String.eqb t "web-view" then EmbeddedFrame
  else if String.eqb t "email" then ValueInput
  else if String.eqb t "time" then ValueInput
  else if String.eqb t "button" then ActionButton
  else Unsupported.

(** The events of the drawn elements: [onChange] of a field, a radio
    button or a dropdown carries [e.target.value]; [onChange] of a check box
    carries its option and [e.target.checked]; [onClick] of a button.  The
    options of a block are in [block.content], which is not modelled: an
    event may carry any option. *)
Inductive UserInput :=
| Enter (text : string)
| Tick (option : string) (checked : bool)
| Press.

(** The handler that [renderBlock] wires to the element.  A button whose
    content has no action throws on [action.type]. *)
Definition handler (script : SavedScript) (block : ScriptBlock)
    (input : UserInput) (st : State) : Outcome (State * list Effect) :=
  match renderBlock block, input with
  | (ValueInput | RadioGroup | DropdownList), Enter text =>
      Done (handleValueChange (block_name block) (str text) st, [])
  | CheckboxGroup, Tick option checked =>
      and_then (handleCheckboxChange (block_name block) option checked st)
        (λ st', Done (st', []))
  | ActionButton, Press =>
      match block_action block with
      | Some action => handleButtonClick script action st
      | None => TypeError
      end
  | _, _ => Done (st, [])
  end.

#[global] Instance Value_eq_dec : EqDecision Value.
Proof. solve_decision. Defined.

#[global] Instance DisplayCondition_eq_dec : EqDecision DisplayCondition.
Proof. solve_decision. Defined.

#[global] Instance ButtonAction_eq_dec : EqDecision ButtonAction.
Proof. solve_decision. Defined.

#[global] Instance ScriptBlock_eq_dec : EqDecision ScriptBlock.
Proof. solve_decision. Defined.

(** Only the blocks on the screen can be touched. *)
Definition on_screen (script : SavedScript) (st : State) (block : ScriptBlock) : bool :=
  bool_decide (block ∈ shownBlocks (render script st)).

Definition interact (script : SavedScript) (block : ScriptBlock)
    (input : UserInput) (st : State) : Outcome (State * list Effect) :=
  if on_screen script st block then handler script block input st
  else Done (st, []).

(** A run of inputs, with the alerts it raises; a throw ends it. *)
Fixpoint play (script : SavedScript) (inputs : list (ScriptBlock * UserInput))
    (st : State) : Outcome (State * list Effect) :=
  match inputs with
  | [] => Done (st, [])
  | (block, input) :: rest =>
      and_then (interact script block input st)
        (λ '(st', said),
           and_then (play script rest st')
             (λ '(st'', said'), Done (st'', said ++ said')))
  end.

Definition all_blocks (script : SavedScript) : list ScriptBlock :=
  concat (blocks <$> pages script).

Definition takes_value (block : ScriptBlock) : Prop :=
  renderBlock block = ValueInput ∨ renderBlock block = RadioGroup
  ∨ renderBlock block = DropdownList.

(** No name is shared between a check box group and a value field. *)
Definition names_apart (script : SavedScript) : Prop :=
  ∀ b1 b2,
    b1 ∈ all_blocks script → b2 ∈ all_blocks script →
    renderBlock b1 = CheckboxGroup → takes_value b2 →
    block_name b1 ≠ block_name b2.

(** No check box group has a name that the answers inherit a member
    under. *)
Definition own_names (script : SavedScript) : Prop :=
  ∀ b, b ∈ all_blocks script → renderBlock b = CheckboxGroup →
       block_name b ∉ inherited.

(** Every button has an action. *)
Definition buttons_wired (script : SavedScript) : Prop :=
  ∀ b, b ∈ all_blocks script → renderBlock b = ActionButton →
       is_Some (block_action b).

(** The answers hold strings under the names of value fields and lists
    of strings under the names of check box groups, and nothing else. *)
Definition kinded (script : SavedScript) (values : gmap string Value) : Prop :=
  ∀ name v,
    values !! name = Some v →
    (∃ s b, v = str s ∧ b ∈ all_blocks script ∧ takes_value b
            ∧ block_name b = name)
    ∨ (∃ options b, v = arr options ∧ b ∈ all_blocks script
                    ∧ renderBlock b = CheckboxGroup ∧ block_name b = name).

(** A script with a check box group and a button. *)
Definition survey : SavedScript :=
  {| startPageId := "p1";
     pages :=
       [ {| page_id := "p1"; page_name := "Questions";
            blocks :=
              [ {| block_id := "b1"; block_type := "checkbox";
                   block_name := "opts"; displayCondition := None;
                   block_action := None |};
                {| block_id := "b2"; block_type := "input";
                   block_name := "q1"; displayCondition := None;
                   block_action := None |};
                {| block_id := "b3"; block_type := "button";
                   block_name := "go"; displayCondition := None;
                   block_action := Some next |} ] |};
         {| page_id := "p2"; page_name := "Fin"; blocks := [] |} ] |}.

(** A check box group named as a member that every object inherits. *)
Definition constructor_box : ScriptBlock :=
  {| block_id := "b1"; block_type := "checkbox"; block_name := "constructor";
     displayCondition := None; block_action := None |}.

Definition constructor_survey : SavedScript :=
  {| startPageId := "p1";
     pages := [ {| page_id := "p1"; page_name := "Questions";
                   blocks := [constructor_box] |} ] |}.

End Preview.

(** ** The rest of [AgentView.tsx]: what the console shows *)

Module Console.

Import Script Session.

(** [n.toString()] of a counter: the decimal numeral of a natural number. *)
Definition toString (n : nat) : string := pretty n.

Fixpoint zeros (n : nat) : string :=
  match n with
  | 0 => ""
  | S n => String "0"%char (zeros n)
  end.

(** [s.padStart(targetLength, '0')] *)
Definition padStart (targetLength : nat) (s : string) : string :=
  zeros (targetLength - String.length s) +:+ s.

Definition formatDuration (seconds : nat) : string :=
  let h := padStart 2 (toString (seconds / 3600)) in
  let m := padStart 2 (toString ((seconds mod 3600) / 60)) in
  let s := padStart 2 (toString (seconds mod 60)) in
  h +:+ ":" +:+ m +:+ ":" +:+ s.

(** [CTI_STATUS_CONFIG[status].text] *)
Definition statusText (s : AgentCtiStatus) : string :=
  match s with
  | LOGGED_OUT => "Déconnecté"
  | WAITING => "En attente d'appel"
  | IN_CALL => "En appel"
  | WRAP_UP => "Post-appel"
  | PAUSED => "En pause"
  end.

(** The script store of [App]: each saved script under its [id]. *)
Definition agentScript (savedScripts : list (string * SavedScript))
    (campaign : option Campaign) : option SavedScript :=
  match campaign with
  | None => None
  | Some c =>
      snd <$> List.find (λ s, String.eqb (fst s) (scriptId c)) savedScripts
  end.

(** The main panel: the script of the call, or the text of the status. *)
Inductive MainPanel :=
| ScriptPreview (script : SavedScript)
| StatusLine (text : string).

Definition mainPanel (savedScripts : list (string * SavedScript)) (w : World)
    : option MainPanel :=
  match mounted w with
  | None => None
  | Some v =>
      Some
        match ctiStatus v,
              agentScript savedScripts (agentCampaign (agent w) (campaigns w)),
              currentContact v with
        | IN_CALL, Some script, Some _ => ScriptPreview script
        | _, _, _ => StatusLine (statusText (ctiStatus v))
        end
  end.

(** The status changes of the component, each with the event that makes it. *)
Definition edge (s : AgentCtiStatus) (e : Event) (s' : AgentCtiStatus) : bool :=
  match s, e, s' with
  | LOGGED_OUT, Click StartSession, WAITING => true
  | WAITING, Click NextCall, IN_CALL => true
  | WAITING, Click Pause, PAUSED => true
  | PAUSED, Click Resume, WAITING => true
  | IN_CALL, Click HangUp, WRAP_UP => true
  | WRAP_UP, Second, WAITING => true
  | _, _, _ => false
  end.

(** The contact in hand is the first pending contact of the agent's
    campaign, during the call and the wrap-up; there is none otherwise. *)
Definition holding (w : World) : Prop :=
  match mounted w with
  | None => True
  | Some v =>
      match ctiStatus v with
      | IN_CALL | WRAP_UP =>
          ∃ c next,
            agentCampaign (agent w) (campaigns w) = Some c
            ∧ List.find pending (contacts c) = Some next
            ∧ currentContact v = Some next
      | _ => currentContact v = None
      end
  end.

(** The "no more contacts" alert was raised only on an empty queue. *)
Definition alerted_on_empty (w : World) : Prop :=
  NoMoreContacts ∈ log w →
  ∃ c, agentCampaign (agent w) (campaigns w) = Some c
       ∧ List.find pending (contacts c) = None.

(** The pending timeouts: one per mount at most, each of a mount that
    took place, each with one to ten seconds left. *)
Definition tidy (w : World) : Prop :=
  NoDup (owner <$> timeouts w)
  ∧ Forall (λ t, 1 ≤ owner t ∧ 1 ≤ remaining t ≤ wrapUpDelay) (timeouts w)
  ∧ (is_Some (mounted w) → 1 ≤ instance w).

Definition is_second (e : Event) : bool :=
  match e with
  | Second => true
  | _ => false
  end.

Definition is_logout (e : Event) : bool :=
  match e with
  | Logout => true
  | _ => false
  end.

End Console.

(** ** The stores of [App] and the forms that feed them *)

Module Directory.

(** [User], with the fields that the user screens read. *)
Record User := {
  id : string;
  loginId : string;
  firstName : string;
  lastName : string;
  email : string;
  role : string;
  isActive : bool;
  campaignIds : list string;
  password : string
}.

(** The part of a user that [AgentView] reads. *)
Definition agentOf (u : User) : Session.User :=
  {| Session.user_id := id u; Session.campaignIds := campaignIds u |}.

Record Qualification := {
  qual_id : string;
  code : string;
  description : string;
  groupId : option string;
  isStandard : bool
}.

(** The records of a store are found by their [id]. *)
Class Identified (A : Type) := ident : A → string.

#[global] Instance User_identified : Identified User := id.
#[global] Instance Campaign_identified : Identified Session.Campaign :=
  Session.campaign_id.
#[global] Instance Qualification_identified : Identified Qualification := qual_id.
#[global] Instance Script_identified : Identified (string * Script.SavedScript) :=
  fst.

(** [y.id === id] *)
Definition hasId {A : Type} `{Identified A} (key : string) (y : A) : bool :=
  String.eqb (ident y) key.

(** The saving handlers of [App] ([handleSaveUser], [handleSaveCampaign],
    [handleSaveOrUpdateScript], [handleSaveQualification] and their like):
    the record replaces the first record of its identifier, or goes to the
    end of the list. *)
Definition saveRecord {A : Type} `{Identified A} (x : A) (prev : list A) : list A :=
  let index := Script.findIndex (hasId (ident x)) prev in
  if (index >? -1)%Z then <[Z.to_nat index := x]> prev else prev ++ [x].

(** The deleting handlers ([handleDeleteUser], [handleDeleteCampaign], ...):
    [prev.filter(y => y.id !== id)]. *)
Definition deleteRecord {A : Type} `{Identified A} (key : string) (prev : list A)
    : list A :=
  List.filter (λ y, negb (hasId key y)) prev.

(** [prev.find(y => y.id === id)] *)
Definition findRecord {A : Type} `{Identified A} (key : string) (l : list A)
    : option A :=
  List.find (hasId key) l.

(** The function that [handleImportContacts] maps over the campaigns. *)
Definition importInto (campaignId : string) (newContacts : list Session.Contact)
    (c : Session.Campaign) : Session.Campaign :=
  if String.eqb (Session.campaign_id c) campaignId then
    {| Session.campaign_id := Session.campaign_id c;
       Session.campaign_name := Session.campaign_name c;
       Session.isActive := Session.isActive c;
       Session.scriptId := Session.scriptId c;
       Session.contacts := Session.contacts c ++ newContacts |}
  else c.

Definition handleImportContacts (campaignId : string)
    (newContacts : list Session.Contact) (prev : list Session.Campaign)
    : list Session.Campaign :=
  importInto campaignId newContacts <$> prev.

(** [q.groupId === groupId], with [null] for no group. *)
Definition inGroup (g : string) (q : Qualification) : bool :=
  match groupId q with
  | Some g' => String.eqb g' g
  | None => false
  end.

Definition setGroup (g : option string) (q : Qualification) : Qualification :=
  {| qual_id := qual_id q; code := code q; description := description q;
     groupId := g; isStandard := isStandard q |}.

(** [assignedQualIds.includes(q.id)] *)
Definition includes (ids : list string) (key : string) : bool :=
  existsb (String.eqb key) ids.

Definition handleUpdateGroupQualifications (groupId : string)
    (assignedQualIds : list string) (prev : list Qualification)
    : list Qualification :=
  (λ q,
     if includes assignedQualIds (qual_id q) then setGroup (Some groupId) q
     else if inGroup groupId q && negb (includes assignedQualIds (qual_id q))
          then setGroup None q
          else q) <$> prev.

(** The qualification half of [handleDeleteQualificationGroup]. *)
Definition unassignGroup (groupId : string) (prev : list Qualification)
    : list Qualification :=
  (λ q, if inGroup groupId q then setGroup None q else q) <$> prev.

(** [getDeletionState(user).canDelete], of [UserManager]. *)
Definition isAdmin (u : User) : bool := String.eqb (role u) "Administrateur".

Definition canDelete (users : list User) (user : User) : bool :=
  if isActive user then false
  else if isAdmin user then
    negb (length (List.filter isAdmin users) <=? 1)
  else true.

(** The delete button of a row: disabled unless [canDelete]. *)
Definition pressDelete (user : User) (users : list User) : list User :=
  if canDelete users user then deleteRecord (id user) users else users.

(** [handleSubmit] of [UserModal]: the form is saved unless another user
    has its login; an unticked e-mail box blanks the e-mail. *)
Definition loginIdExists (users : list User) (formData : User) : bool :=
  existsb (λ u, String.eqb (loginId u) (loginId formData)
                && negb (String.eqb (id u) (id formData))) users.

Definition withEmail (isEmailEnabled : bool) (u : User) : User :=
  {| id := id u; loginId := loginId u; firstName := firstName u;
     lastName := lastName u;
     email := if isEmailEnabled then email u else "";
     role := role u; isActive := isActive u; campaignIds := campaignIds u;
     password := password u |}.

Definition handleSubmit (isEmailEnabled : bool) (formData : User)
    (users : list User) : list User + string :=
  if loginIdExists users formData then
    inr "L'identifiant / extension existe déjà pour un autre utilisateur."
  else inl (saveRecord (withEmail isEmailEnabled formData) users).

(** [[...new Set(l)]]: the first occurrence of each element, in order. *)
Fixpoint unique (seen l : list string) : list string :=
  match l with
  | [] => []
  | x :: rest =>
      if includes seen x then unique seen rest
      else x :: unique (x :: seen) rest
  end.

(** [handleCampaignChange] of [UserModal], on the list of campaigns. *)
Definition handleCampaignChange (campaignId : string) (isChecked : bool)
    (currentCampaignIds : list string) : list string :=
  if isChecked then unique [] (currentCampaignIds ++ [campaignId])
  else List.filter (λ i, negb (String.eqb i campaignId)) currentCampaignIds.

(** The [while] loop of [handleGenerateUsers]: from [nextLoginId] on, the
    first number whose numeral is not a login yet.  The loop has no bound
    of its own; here it gives up after [fuel] tests. *)
Fixpoint nextFree (fuel : nat) (existingLoginIds : gset string)
    (nextLoginId : nat) : option nat :=
  match fuel with
  | 0 => None
  | S fuel =>
      if bool_decide (pretty nextLoginId ∈ existingLoginIds)
      then nextFree fuel existingLoginIds (S nextLoginId)
      else Some nextLoginId
  end.

(** The user that the [i]-th turn of the loop makes, [now] being what
    [Date.now()] returns in that turn. *)
Definition newUser (now i nextLoginId : nat) : User :=
  {| id := "new-user-" +:+ pretty (now + i);
     loginId := pretty nextLoginId;
     firstName := "Agent" +:+ pretty (i + 1);
     lastName := "Test" +:+ pretty nextLoginId;
     email := "agent" +:+ pretty nextLoginId +:+ "@example.com";
     role := "Agent";
     isActive := true;
     campaignIds := [];
     password := "password123" |}.

(** The [for] loop, from its [i]-th turn on, with [count] turns to go.  The
    set has at most as many numerals as elements, so one test more than its
    size is fuel enough for the inner loop. *)
Fixpoint generate (count i : nat) (clock : nat → nat)
    (existingLoginIds : gset string) (nextLoginId : nat) : option (list User) :=
  match count with
  | 0 => Some []
  | S count =>
      match nextFree (S (size existingLoginIds)) existingLoginIds nextLoginId with
      | None => None
      | Some n =>
          let u := newUser (clock i) i n in
          (λ rest, u :: rest)
            <$> generate count (S i) clock ({[ loginId u ]} ∪ existingLoginIds) n
      end
  end.

Definition handleGenerateUsers (count : nat) (clock : nat → nat)
    (users : list User) : option (list User) :=
  (λ newUsers, users ++ newUsers)
    <$> generate count 0 clock (list_to_set (loginId <$> users)) 1001.

(** A small directory: two administrators out of service and an agent. *)
Definition staff (i login r : string) (active : bool) : User :=
  {| id := i; loginId := login; firstName := "Ana"; lastName := "Diaz";
     email := ""; role := r; isActive := active; campaignIds := [];
     password := "" |}.

Definition office : list User :=
  [ staff "u1" "1001" "Administrateur" false;
    staff "u2" "1002" "Administrateur" false;
    staff "u3" "1003" "Agent" true ].

(** A second campaign, and two versions of the first one. *)
Definition sales : Session.Campaign :=
  {| Session.campaign_id := "c2"; Session.campaign_name := "Ventes";
     Session.isActive := true; Session.scriptId := "s1";
     Session.contacts := [] |}.

Definition relance (name : string) (active : bool) : Session.Campaign :=
  {| Session.campaign_id := "c1"; Session.campaign_name := name;
     Session.isActive := active; Session.scriptId := "s1";
     Session.contacts := [] |}.

End Directory.

(** * Properties of the script interpreter *)

Section ScriptFacts.

Import Js Script.

Implicit Types (values : gmap string Value) (st : State)
  (script : SavedScript) (items : list Prim).

(** *** Equality of JavaScript values *)

Lemma strict_eq_prim_true (a b : Prim) :
  strict_eq_prim a b = true ↔ a = b ∧ a ≠ PNum NaN.
Proof.
  destruct a as [| |x|[|x]|s], b as [| |y|[|y]|t]; simpl;
    try (split; [discriminate | intros [? ?]; congruence]);
    try (split; [intros _; split; [reflexivity | discriminate] | reflexivity]).
  - rewrite Bool.eqb_true_iff. split; [intros ->; split; [done | discriminate]|].
    intros [? _]; congruence.
  - rewrite Z.eqb_eq. split; [intros ->; split; [done | discriminate]|].
    intros [? _]; congruence.
  - rewrite String.eqb_eq. split; [intros ->; split; [done | discriminate]|].
    intros [? _]; congruence.
Qed.

Lemma same_value_zero_prim_true (a b : Prim) :
  same_value_zero_prim a b = true ↔ a = b.
Proof.
  assert (Hstrict : a ≠ PNum NaN →
            same_value_zero_prim a b = strict_eq_prim a b).
  { destruct a as [| |x|[|x]|s]; intros Hne; try reflexivity. congruence. }
  destruct a as [| |x|[|x]|s];
    try (rewrite Hstrict by discriminate; rewrite strict_eq_prim_true;
         split; [tauto | intros <-; split; [reflexivity | discriminate]]).
  destruct b as [| |y|[|y]|t]; simpl; split; congruence.
Qed.

Lemma strict_eq_true (p : Prim) (v : Value) :
  strict_eq p v = true ↔ v = VPrim p ∧ p ≠ PNum NaN.
Proof.
  destruct v as [q | items | key]; simpl.
  - rewrite strict_eq_prim_true. split; intros [? ?]; split; congruence.
  - split; [discriminate | intros [? _]; discriminate].
  - split; [discriminate | intros [? _]; discriminate].
Qed.

Lemma same_object_true (key : string) (v : Value) :
  same_object key v = true ↔ v = VInherited key.
Proof.
  destruct v as [q | items | other]; simpl; try (split; discriminate).
  rewrite String.eqb_eq. split; congruence.
Qed.

Lemma includes_true items (v : Value) :
  includes items v = true ↔ ∃ item, item ∈ items ∧ v = VPrim item.
Proof.
  unfold includes. rewrite existsb_exists. split.
  - intros (item & Hin & Heq). exists item. split; [by apply list_elem_of_In |].
    destruct v as [q | l | key]; simpl in Heq; [| discriminate..].
    apply same_value_zero_prim_true in Heq. by subst.
  - intros (item & Hin & ->). exists item. split; [by apply list_elem_of_In |].
    simpl. by apply same_value_zero_prim_true.
Qed.

Lemma differs_true (option : string) (item : Prim) :
  differs option item = true ↔ item ≠ PStr option.
Proof.
  unfold differs. rewrite Bool.negb_true_iff, <- Bool.not_true_iff_false.
  rewrite strict_eq_prim_true. split.
  - intros H Heq. apply H. split; [done | subst; discriminate].
  - intros H [Heq _]. done.
Qed.

Lemma get_stored values (name : string) (v : Value) :
  values !! name = Some v → get values name = v.
Proof. unfold get. by intros ->. Qed.

Lemma get_unwritten values (name : string) :
  values !! name = None → name ∉ inherited → get values name = undefined.
Proof. unfold get. intros -> Hname. by rewrite bool_decide_eq_false_2. Qed.

Lemma get_inherited values (name : string) :
  values !! name = None → name ∈ inherited → get values name = VInherited name.
Proof. unfold get. intros -> Hname. by rewrite bool_decide_eq_true_2. Qed.

(** *** Visibility conditions *)

Example visible_q1_yes :
  checkCondition (Some {| blockName := Some "q1"; value := str "yes" |})
    {[ "q1" := str "yes" ]} = true.
Proof. reflexivity. Qed.

Example visible_q1_no :
  checkCondition (Some {| blockName := Some "q1"; value := str "yes" |})
    {[ "q1" := str "no" ]} = false.
Proof. reflexivity. Qed.

Example visible_q1_unanswered :
  checkCondition (Some {| blockName := Some "q1"; value := str "yes" |}) ∅ = false.
Proof. reflexivity. Qed.

Example visible_no_block values (v : Value) :
  checkCondition (Some {| blockName := None; value := v |}) values = true.
Proof. reflexivity. Qed.

Example visible_opts_member :
  checkCondition (Some {| blockName := Some "opts"; value := str "B" |})
    {[ "opts" := arr ["A"; "B"] ]} = true.
Proof. reflexivity. Qed.

Example visible_opts_not_member :
  checkCondition (Some {| blockName := Some "opts"; value := str "B" |})
    {[ "opts" := arr ["A"] ]} = false.
Proof. reflexivity. Qed.

Example visible_constructor_unanswered :
  checkCondition
    (Some {| blockName := Some "constructor"; value := undefined |}) ∅ = false
  ∧ checkCondition
      (Some {| blockName := Some "constructor"; value := str "yes" |}) ∅ = false
  ∧ checkCondition
      (Some {| blockName := Some "constructor"; value := str "yes" |})
      {[ "constructor" := str "yes" ]} = true.
Proof. by vm_compute. Qed.

(** C3, as amended.  [checkCondition] answers true exactly in these cases:
    the condition is null; its block name is null, missing or the empty
    string; the answer stored under the block name is an array that has
    the condition's value among its items; the answer stored is a primitive
    and is strictly equal to the condition's value (so it is not NaN); no
    answer is stored under the block name, the answers inherit no member
    under that name, and the condition's value is [undefined]; no answer
    is stored, the name is one of the inherited ones ("constructor",
    "toString", ...) and the condition's value is that inherited member
    itself, which no value of a script read from JSON is. *)
Theorem checkCondition_true_iff (condition : option DisplayCondition) values :
  checkCondition condition values = true ↔
  match condition with
  | None => True
  | Some c =>
      match blockName c with
      | None => True
      | Some name =>
          name = "" ∨
          match values !! name with
          | Some (VArr items) => ∃ item, item ∈ items ∧ value c = VPrim item
          | Some (VPrim p) => value c = VPrim p ∧ p ≠ PNum NaN
          | Some (VInherited key) => value c = VInherited key
          | None =>
              ((name ∉ inherited) ∧ value c = undefined)
              ∨ ((name ∈ inherited) ∧ value c = VInherited name)
          end
      end
  end.
Proof.
  destruct condition as [[[name |] v] |]; simpl; [| done | done].
  destruct (String.eqb_spec name "") as [-> | Hname]; [tauto |].
  destruct (values !! name) as [[p | items | key] |] eqn:Hstored.
  - rewrite (get_stored _ _ _ Hstored), strict_eq_true. tauto.
  - rewrite (get_stored _ _ _ Hstored), includes_true. tauto.
  - rewrite (get_stored _ _ _ Hstored), same_object_true. tauto.
  - destruct (decide (name ∈ inherited)) as [Hin | Hout].
    + rewrite (get_inherited _ _ Hstored Hin), same_object_true. tauto.
    + rewrite (get_unwritten _ _ Hstored Hout). unfold undefined.
      rewrite strict_eq_true. split.
      * intros [-> _]. right. by left.
      * intros [? | [[_ ->] | [? _]]]; [done | | done].
        split; [done | discriminate].
Qed.

(** C3, as stated, fails on a block name that is the empty string, where
    the code answers true whatever is stored, and on a condition whose
    value is [undefined], which an unanswered block satisfies. *)
Lemma checkCondition_not_as_stated :
  checkCondition (Some {| blockName := Some ""; value := str "yes" |}) ∅ = true
  ∧ evaluateVisibility_spec
      (Some {| blockName := Some ""; value := str "yes" |}) ∅ = false
  ∧ checkCondition (Some {| blockName := Some "q1"; value := undefined |}) ∅ = true.
Proof. repeat split; reflexivity. Qed.

(** *** Recording answers *)

Lemma existing_array values (name : string) items :
  get values name = VArr items →
  or_else (get values name) (VArr []) = VArr items.
Proof. by intros ->. Qed.


Lemma check_array st (name option : string) items :
  or_else (get (formValues st) name) (VArr []) = VArr items →
  handleCheckboxChange name option true st
  = Done (handleValueChange name (VArr (items ++ [PStr option])) st).
Proof. unfold handleCheckboxChange. by intros ->. Qed.

Lemma uncheck_array st (name option : string) items :
  or_else (get (formValues st) name) (VArr []) = VArr items →
  handleCheckboxChange name option false st
  = Done (handleValueChange name (VArr (List.filter (differs option) items)) st).
Proof. unfold handleCheckboxChange. by intros ->. Qed.

Lemma get_handleValueChange st (name : string) (v : Value) :
  get (formValues (handleValueChange name v st)) name = v.
Proof. apply get_stored. simpl. by rewrite lookup_insert_eq. Qed.



(** A block name shared with a text input: the stored string is spread
    into its characters by a check, and an uncheck throws. *)
Example check_on_text_answer :
  and_then (handleCheckboxChange "q1" "A" true
              {| formValues := {[ "q1" := str "no" ]}; currentPageId := "p1" |})
    (λ st, Done (get (formValues st) "q1"))
  = Done (arr ["n"; "o"; "A"]).
Proof. reflexivity. Qed.

(** The spread of a string yields its code points, not its bytes. *)
Example check_on_accented_answer :
  and_then (handleCheckboxChange "q1" "A" true
              {| formValues := {[ "q1" := str "né" ]}; currentPageId := "p1" |})
    (λ st, Done (get (formValues st) "q1"))
  = Done (arr ["n"; "é"; "A"])
  ∧ chars "10 €" = [PStr "1"; PStr "0"; PStr " "; PStr "€"].
Proof. split; reflexivity. Qed.

Example uncheck_on_text_answer :
  handleCheckboxChange "q1" "A" false
    {| formValues := {[ "q1" := str "no" ]}; currentPageId := "p1" |}
  = TypeError.
Proof. reflexivity. Qed.

Example toggle_from_nothing :
  and_then (check_check_uncheck "opts" "A" "B"
              {| formValues := ∅; currentPageId := "p1" |})
    (λ st, Done (get (formValues st) "opts"))
  = Done (arr ["B"]).
Proof. reflexivity. Qed.

Example toggle_on_constructor :
  handleCheckboxChange "constructor" "A" true
    {| formValues := ∅; currentPageId := "p1" |} = TypeError
  ∧ check_check_uncheck "constructor" "A" "B"
      {| formValues := ∅; currentPageId := "p1" |} = TypeError.
Proof. by vm_compute. Qed.




(** *** Page navigation *)

Ltac compare_index :=
  match goal with
  | |- context [(?a <? ?b)%Z] => destruct (Z.ltb_spec a b)
  | |- context [(?a >? ?b)%Z] => destruct (Z.gtb_spec a b)
  end.

Lemma findIndex_bounds {A : Type} (f : A → bool) (l : list A) :
  (-1 ≤ findIndex f l < Z.of_nat (length l))%Z.
Proof.
  induction l as [| x rest IH]; simpl; [lia |].
  destruct (f x); [lia |]. compare_index; lia.
Qed.

Lemma findIndex_first {A : Type} (f : A → bool) (before : list A) (x : A)
    (after : list A) :
  Forall (λ y, f y = false) before →
  f x = true →
  findIndex f (before ++ x :: after) = Z.of_nat (length before).
Proof.
  intros Hbefore Hx. induction Hbefore as [| y rest Hy _ IH]; simpl.
  - by rewrite Hx.
  - rewrite Hy, IH. destruct (Z.ltb_spec (Z.of_nat (length rest)) 0); lia.
Qed.

Lemma find_first {A : Type} (f : A → bool) (before : list A) (x : A)
    (after : list A) :
  Forall (λ y, f y = false) before →
  f x = true →
  List.find f (before ++ x :: after) = Some x.
Proof.
  intros Hbefore Hx. induction Hbefore as [| y rest Hy _ IH]; simpl.
  - by rewrite Hx.
  - by rewrite Hy.
Qed.

Lemma at_index_in_range {A : Type} (l : list A) (i : Z) :
  (0 ≤ i < Z.of_nat (length l))%Z → ∃ x, at_index l i = Some x ∧ x ∈ l.
Proof.
  intros Hi. unfold at_index. destruct (Z.ltb_spec i 0); [lia |].
  destruct (lookup_lt_is_Some_2 l (Z.to_nat i)) as [x Hx]; [lia |].
  exists x. split; [done |]. by eapply list_elem_of_lookup_2.
Qed.

Lemma at_index_after {A : Type} (before : list A) (x : A) (after : list A) :
  at_index (before ++ x :: after) (Z.of_nat (length before) + 1) = head after.
Proof.
  unfold at_index. destruct (Z.ltb_spec (Z.of_nat (length before) + 1) 0); [lia |].
  replace (Z.to_nat (Z.of_nat (length before) + 1)) with (length before + 1) by lia.
  rewrite lookup_app_r by lia.
  replace (length before + 1 - length before) with 1 by lia.
  by destruct after.
Qed.

Lemma at_index_before {A : Type} (before : list A) (x : A) (after : list A) :
  before ≠ [] →
  at_index (before ++ x :: after) (Z.of_nat (length before) - 1) = last before.
Proof.
  intros Hne. unfold at_index.
  assert (0 < length before) by (destruct before; [done | simpl; lia]).
  destruct (Z.ltb_spec (Z.of_nat (length before) - 1) 0); [lia |].
  replace (Z.to_nat (Z.of_nat (length before) - 1)) with (pred (length before)) by lia.
  rewrite lookup_app_l by lia. by rewrite last_lookup.
Qed.

Lemma has_id_true (id : string) (p : Page) : has_id id p = true ↔ page_id p = id.
Proof. apply String.eqb_eq. Qed.

Lemma has_id_false (id : string) (p : Page) : has_id id p = false ↔ page_id p ≠ id.
Proof. apply String.eqb_neq. Qed.

(** A page pointer that names a page selects the first page of that name. *)
Lemma current_page_split (id : string) (ps : list Page) :
  id ∈ page_id <$> ps →
  ∃ before page after,
    ps = before ++ page :: after
    ∧ page_id page = id
    ∧ Forall (λ p, has_id id p = false) before.
Proof.
  induction ps as [| p rest IH]; simpl; intros Hin.
  - by apply elem_of_nil in Hin.
  - destruct (has_id id p) eqn:Hp.
    + exists [], p, rest. apply has_id_true in Hp. by repeat split.
    + apply elem_of_cons in Hin as [Heq | Hin].
      { apply has_id_false in Hp. congruence. }
      destruct (IH Hin) as (before & page & after & -> & Hid & Hall).
      exists (p :: before), page, after. repeat split; [done |].
      by constructor.
Qed.

Lemma click_at_position script st (before : list Page) (page : Page)
    (after : list Page) :
  pages script = before ++ page :: after →
  Forall (λ p, has_id (currentPageId st) p = false) before →
  page_id page = currentPageId st →
  handleButtonClick script next st
  = Done (match after with
          | [] => st
          | p :: _ => setCurrentPageId (page_id p) st
          end, [])
  ∧ handleButtonClick script previous st
    = Done (match last before with
            | None => st
            | Some p => setCurrentPageId (page_id p) st
            end, []).
Proof.
  intros Hpages Hall Hid. apply has_id_true in Hid.
  unfold handleButtonClick, goToIndex. simpl.
  rewrite Hpages, findIndex_first by done. rewrite length_app. simpl. split.
  - destruct after as [| p after]; simpl; compare_index; try lia; [done |].
    by rewrite at_index_after.
  - destruct (decide (before = [])) as [-> | Hne]; [done |].
    assert (0 < length before) by (destruct before; [done | simpl; lia]).
    compare_index; [| lia]. rewrite at_index_before by done.
    destruct (last before) eqn:Hlast; [done |]. by apply last_None in Hlast.
Qed.

Lemma distinct_ids_ahead (before : list Page) (page : Page) (after : list Page) :
  NoDup (page_id <$> (before ++ page :: after)) →
  Forall (λ p, has_id (page_id page) p = false) before.
Proof.
  rewrite fmap_app, fmap_cons. intros Hnodup.
  apply NoDup_app in Hnodup as (_ & Hcross & _).
  rewrite Forall_forall. intros p Hp. apply has_id_false. intros Heq.
  apply (Hcross (page_id p)); [by apply list_elem_of_fmap_2 |].
  rewrite Heq. by left.
Qed.

(** With page identifiers that are pairwise distinct, the page drawn is the
    page whose identifier the pointer holds, wherever it is in the
    sequence. *)
Lemma page_at_position script st (before : list Page) (page : Page)
    (after : list Page) :
  NoDup (page_ids script) →
  pages script = before ++ page :: after →
  currentPageId st = page_id page →
  currentPage script st = Some page.
Proof.
  intros Hnodup Hpages Hid. unfold page_ids in Hnodup. rewrite Hpages in Hnodup.
  unfold currentPage. rewrite Hpages, Hid.
  apply find_first; [by eapply distinct_ids_ahead | by apply has_id_true].
Qed.

(** C5, as amended.  In a script whose page identifiers are pairwise
    distinct, when the page pointer names a page of the script, with
    [before] the pages ahead of the current page and [after] the pages
    behind it: a "next" click changes nothing when there is no page behind
    and otherwise makes the first page behind the current page; a
    "previous" click changes nothing when there is no page ahead and
    otherwise makes the last page ahead the current page.  Neither click
    throws, raises an alert or touches the answers. *)
Theorem next_previous_clamped script st :
  NoDup (page_ids script) →
  page_exists script st →
  ∃ before page after,
    pages script = before ++ page :: after
    ∧ currentPage script st = Some page
    ∧ (∃ st',
         handleButtonClick script next st = Done (st', [])
         ∧ formValues st' = formValues st
         ∧ currentPage script st' = Some (default page (head after))
         ∧ (after = [] → st' = st))
    ∧ (∃ st',
         handleButtonClick script previous st = Done (st', [])
         ∧ formValues st' = formValues st
         ∧ currentPage script st' = Some (default page (last before))
         ∧ (before = [] → st' = st)).
Proof.
  intros Hnodup Hin. unfold page_exists, page_ids in Hin.
  destruct (current_page_split _ _ Hin)
    as (before & page & after & Hpages & Hid & Hall).
  destruct (click_at_position script st before page after Hpages Hall Hid)
    as [Hnext Hprevious].
  assert (Hhere : currentPage script st = Some page)
    by by apply (page_at_position script st before page after).
  exists before, page, after. split; [done |]. split; [done |]. split.
  - rewrite Hnext. eexists. split; [reflexivity |].
    destruct after as [| following after]; [done |].
    split; [done |]. split; [| done]. simpl.
    apply (page_at_position script _ (before ++ [page]) following after);
      [done | by rewrite <- app_assoc | done].
  - rewrite Hprevious. eexists. split; [reflexivity |].
    destruct (last before) as [preceding |] eqn:Hlast.
    + split; [done |]. split; [| by intros ->].
      apply last_Some in Hlast as [ahead ->]. simpl.
      apply (page_at_position script _ ahead preceding (page :: after));
        [done | by rewrite Hpages, <- app_assoc | done].
    + done.
Qed.

Lemma next_previous_clamped_witness :
  ∃ before page after,
    pages demo = before ++ page :: after
    ∧ currentPage demo (setCurrentPageId "p2" (initial demo)) = Some page
    ∧ (∃ st',
         handleButtonClick demo next (setCurrentPageId "p2" (initial demo))
         = Done (st', [])
         ∧ formValues st' = formValues (setCurrentPageId "p2" (initial demo))
         ∧ currentPage demo st' = Some (default page (head after))
         ∧ (after = [] → st' = setCurrentPageId "p2" (initial demo)))
    ∧ (∃ st',
         handleButtonClick demo previous (setCurrentPageId "p2" (initial demo))
         = Done (st', [])
         ∧ formValues st' = formValues (setCurrentPageId "p2" (initial demo))
         ∧ currentPage demo st' = Some (default page (last before))
         ∧ (before = [] → st' = setCurrentPageId "p2" (initial demo))).
Proof.
  apply (next_previous_clamped demo (setCurrentPageId "p2" (initial demo))).
  - unfold page_ids. simpl. repeat constructor; rewrite ?list_elem_of_In; simpl;
      intuition discriminate.
  - unfold page_exists. simpl. apply list_elem_of_In. simpl. tauto.
Defined.

(** C5, as stated, fails in a script in which two pages have one
    identifier: from the page between them, which is the current page and
    not the last one, "next" puts the identifier of the third page into the
    pointer, and the page drawn for it is the first page, not the page that
    follows. *)
Lemma next_draws_an_earlier_page :
  pages twins = [first_twin; between_twins; second_twin]
  ∧ page_exists twins (initial twins)
  ∧ currentPage twins (initial twins) = Some between_twins
  ∧ handleButtonClick twins next (initial twins)
    = Done (setCurrentPageId "1" (initial twins), [])
  ∧ currentPage twins (setCurrentPageId "1" (initial twins)) = Some first_twin
  ∧ Some first_twin ≠ Some second_twin.
Proof.
  split; [reflexivity |]. split.
  - unfold page_exists. apply list_elem_of_In. simpl. tauto.
  - repeat split; try reflexivity. discriminate.
Qed.

Example next_on_last_page :
  handleButtonClick demo next (setCurrentPageId "p3" (initial demo))
  = Done (setCurrentPageId "p3" (initial demo), []).
Proof. reflexivity. Qed.

Example next_on_middle_page :
  handleButtonClick demo next (setCurrentPageId "p2" (initial demo))
  = Done (setCurrentPageId "p3" (initial demo), []).
Proof. reflexivity. Qed.

Example previous_on_first_page :
  handleButtonClick demo previous (initial demo) = Done (initial demo, []).
Proof. reflexivity. Qed.

(** With page identifiers that are pairwise distinct, the page drawn after
    a "next" click is the page that follows in the sequence. *)
Lemma next_shows_following_page script st (before : list Page)
    (page following : Page) (after : list Page) :
  NoDup (page_ids script) →
  pages script = before ++ page :: following :: after →
  page_id page = currentPageId st →
  handleButtonClick script next st
  = Done (setCurrentPageId (page_id following) st, [])
  ∧ currentPage script (setCurrentPageId (page_id following) st) = Some following.
Proof.
  intros Hnodup Hpages Hid. unfold page_ids in Hnodup. rewrite Hpages in Hnodup.
  rewrite fmap_app, !fmap_cons in Hnodup.
  apply NoDup_app in Hnodup as (_ & Hcross & Htail).
  apply NoDup_cons in Htail as [Hpage Htail].
  apply NoDup_cons in Htail as [Hfollowing _].
  assert (Hahead : Forall (λ p, has_id (currentPageId st) p = false) before).
  { rewrite Forall_forall. intros p Hp. apply has_id_false. intros Heq.
    apply (Hcross (page_id p)); [by apply list_elem_of_fmap_2 |].
    rewrite Heq, <- Hid. by left. }
  split.
  - unfold handleButtonClick, goToIndex. simpl.
    rewrite Hpages, findIndex_first by (done || by apply has_id_true).
    rewrite length_app. simpl. compare_index; [| lia].
    by rewrite at_index_after.
  - unfold currentPage. simpl. rewrite Hpages.
    change (before ++ page :: following :: after)
      with (before ++ [page] ++ following :: after).
    rewrite app_assoc. apply find_first; [| by apply has_id_true].
    apply Forall_app. split.
    + rewrite Forall_forall. intros p Hp. apply has_id_false. intros Heq.
      apply (Hcross (page_id p)); [by apply list_elem_of_fmap_2 |].
      rewrite Heq. right. by left.
    + repeat constructor. apply has_id_false. intros Heq. apply Hpage.
      rewrite Heq. by left.
Qed.

(** A click never throws: the index guards keep [script.pages[i]] inside of
    the array.  The pointer it leaves is the old one, a page of the script,
    or the target of a [navigate]. *)
Lemma handleButtonClick_total script (action : ButtonAction) st :
  ∃ st' effects,
    handleButtonClick script action st = Done (st', effects)
    ∧ formValues st' = formValues st
    ∧ (currentPageId st' = currentPageId st
       ∨ currentPageId st' ∈ page_ids script
       ∨ (type action = "navigate" ∧ pageId action = Some (currentPageId st')
          ∧ currentPageId st' ≠ "")).
Proof.
  unfold handleButtonClick.
  pose proof (findIndex_bounds (has_id (currentPageId st)) (pages script)) as Hi.
  assert (Hgo : ∀ i, (0 ≤ i < Z.of_nat (length (pages script)))%Z →
            ∃ st' effects,
              goToIndex script i st = Done (st', effects)
              ∧ formValues st' = formValues st
              ∧ currentPageId st' ∈ page_ids script).
  { intros i Hr. destruct (at_index_in_range _ _ Hr) as (p & Hp & Hin).
    unfold goToIndex. rewrite Hp. do 2 eexists. split; [done |].
    split; [done |]. simpl. unfold page_ids. by apply list_elem_of_fmap_2. }
  destruct (String.eqb_spec (type action) "save"); [by eauto 6 |].
  destruct (String.eqb_spec (type action) "navigate").
  { destruct (pageId action) as [id |]; [| by eauto 6].
    destruct (String.eqb_spec id ""); [by eauto 6 |].
    do 2 eexists. split; [done |]. split; [done |]. right; right. by simpl. }
  destruct (String.eqb_spec (type action) "next").
  { compare_index; [| by eauto 6].
    destruct (Hgo (findIndex (has_id (currentPageId st)) (pages script) + 1)%Z)
      as (st' & effects & -> & ? & ?); [lia |]. by eauto 8. }
  destruct (String.eqb_spec (type action) "previous"); [| by eauto 6].
  compare_index; [| by eauto 6].
  destruct (Hgo (findIndex (has_id (currentPageId st)) (pages script) - 1)%Z)
    as (st' & effects & -> & ? & ?); [lia |]. by eauto 8.
Qed.

Lemma handleButtonClick_keeps_page script (action : ButtonAction) st :
  page_exists script st →
  well_targeted script action →
  ∃ st' effects,
    handleButtonClick script action st = Done (st', effects)
    ∧ page_exists script st'.
Proof.
  intros Hst Hok.
  destruct (handleButtonClick_total script action st)
    as (st' & effects & Hrun & _ & Hpage).
  exists st', effects. split; [done |]. unfold page_exists in *.
  destruct Hpage as [-> | [? | (Htype & Hid & Hne)]]; [done | done |].
  specialize (Hok Htype). rewrite Hid in Hok. by destruct Hok.
Qed.

(** C6, as amended.  From a start page that is a page of the script, every
    sequence of clicks whose [navigate] actions target pages of the script
    (or carry no target) runs to its end without a throw and leaves the page
    pointer on a page of the script; "save", "next", "previous" and unknown
    actions are never restricted. *)
Theorem page_pointer_invariant script (actions : list ButtonAction) :
  startPageId script ∈ page_ids script →
  Forall (well_targeted script) actions →
  ∃ st, clicks script actions (initial script) = Done st ∧ page_exists script st.
Proof.
  intros Hstart Hall.
  assert (Hgen : ∀ st, page_exists script st →
            ∃ st', clicks script actions st = Done st' ∧ page_exists script st').
  { induction Hall as [| a rest Ha _ IH]; intros st Hst; simpl; [by eauto |].
    destruct (handleButtonClick_keeps_page script a st Hst Ha)
      as (st1 & effects & -> & Hst1). by apply IH. }
  by apply Hgen.
Qed.

Lemma page_pointer_invariant_witness :
  ∃ st,
    clicks demo [next; navigate "p1"; save; previous; navigate "p3"; next]
      (initial demo) = Done st
    ∧ page_exists demo st.
Proof.
  apply (page_pointer_invariant demo).
  - apply list_elem_of_In. simpl. tauto.
  - repeat constructor; intros _; simpl; right; apply list_elem_of_In;
      simpl; tauto.
Defined.

(** C6, as stated, fails: a [navigate] to an identifier that the script
    does not have moves the pointer there; and a start page that the script
    does not have is dangling before any click. *)
Lemma page_pointer_can_dangle :
  startPageId demo ∈ page_ids demo
  ∧ clicks demo [navigate "ghost"] (initial demo)
    = Done (setCurrentPageId "ghost" (initial demo))
  ∧ ¬ page_exists demo (setCurrentPageId "ghost" (initial demo))
  ∧ ¬ page_exists (orphan (pages demo)) (initial (orphan (pages demo))).
Proof.
  split; [apply list_elem_of_In; simpl; tauto |]. split; [reflexivity |].
  unfold page_exists. rewrite !list_elem_of_In. simpl.
  split; intros [H | [H | [H | []]]]; discriminate.
Qed.

(** *** Dangling page references *)

Lemma find_none_of (id : string) (ps : list Page) :
  id ∉ page_id <$> ps → List.find (has_id id) ps = None.
Proof.
  induction ps as [| p rest IH]; simpl; [done |].
  intros Hnot. apply not_elem_of_cons in Hnot as [Hne Hrest].
  destruct (has_id id p) eqn:Hp; [| by apply IH].
  apply has_id_true in Hp. congruence.
Qed.

(** C7, as amended.  A [navigate] to a non-empty identifier that the script
    does not have is accepted like any other: the click does not throw, it
    moves the page pointer to that identifier and signals nothing, and the
    screen that follows shows no page name and no block. *)
Theorem navigate_dangling_silent script st (id : string) :
  id ≠ "" →
  id ∉ page_ids script →
  handleButtonClick script (navigate id) st = Done (setCurrentPageId id st, [])
  ∧ render script (setCurrentPageId id st) = blank.
Proof.
  intros Hne Hnot. split.
  - unfold handleButtonClick. simpl. by destruct (String.eqb_spec id "").
  - unfold render, currentPage. simpl. by rewrite find_none_of.
Qed.

Lemma navigate_dangling_silent_witness :
  handleButtonClick demo (navigate "ghost") (initial demo)
  = Done (setCurrentPageId "ghost" (initial demo), [])
  ∧ render demo (setCurrentPageId "ghost" (initial demo)) = blank.
Proof.
  apply (navigate_dangling_silent demo (initial demo) "ghost").
  - discriminate.
  - unfold page_ids. rewrite list_elem_of_In. simpl.
    intros [H | [H | [H | []]]]; discriminate.
Defined.

(** C7, as stated, fails: nothing is signalled and the screen is blank. *)
Lemma navigate_dangling_not_surfaced :
  ¬ dangling_surfaced demo (navigate "ghost") (initial demo).
Proof.
  intros (st' & effects & Hrun & Hsignal & _).
  apply Hsignal. vm_compute in Hrun. congruence.
Qed.

End ScriptFacts.

(** * Properties of the agent call session *)

Section SessionFacts.

Import Session.

Implicit Types (w : World) (v : View) (t : Timeout) (l : list Timeout).

Lemma status_eqb_eq (a b : AgentCtiStatus) : status_eqb a b = true ↔ a = b.
Proof. destruct a, b; simpl; split; congruence. Qed.

Lemma status_eqb_refl (a : AgentCtiStatus) : status_eqb a a = true.
Proof. by apply status_eqb_eq. Qed.

Lemma elem_of_filter_bool {A : Type} (f : A → bool) (xs : list A) (x : A) :
  x ∈ List.filter f xs ↔ x ∈ xs ∧ f x = true.
Proof. rewrite !list_elem_of_In. apply filter_In. Qed.

(** *** Firing timeouts *)

Lemma fire_frame t w :
  agent (fire t w) = agent w ∧ campaigns (fire t w) = campaigns w
  ∧ instance (fire t w) = instance w ∧ timeouts (fire t w) = timeouts w
  ∧ (mounted w = None → mounted (fire t w) = None ∧ interval (fire t w) = interval w).
Proof.
  unfold fire, commit. destruct (mounted w) as [v |]; simpl.
  - destruct (owner t =? instance w);
      [destruct (status_eqb _ _); [| destruct (effect _)] |
       rewrite status_eqb_refl];
      simpl; rewrite ?app_nil_r; by repeat split.
  - by repeat split.
Qed.

Lemma fold_fire_frame l w :
  let w' := foldl (λ acc t, fire t acc) w l in
  agent w' = agent w ∧ campaigns w' = campaigns w
  ∧ instance w' = instance w ∧ timeouts w' = timeouts w
  ∧ (mounted w = None → mounted w' = None ∧ interval w' = interval w).
Proof.
  revert w. induction l as [| t l IH]; intros w; simpl; [by repeat split |].
  destruct (IH (fire t w)) as (-> & -> & -> & -> & Hm).
  destruct (fire_frame t w) as (-> & -> & -> & -> & Hm').
  do 4 (split; [done |]). intros Hw.
  destruct (Hm' Hw) as [H1 H2]. destruct (Hm H1) as [H3 H4].
  split; congruence.
Qed.

Lemma fire_stale t w :
  owner t ≠ instance w →
  mounted (fire t w) = mounted w ∧ interval (fire t w) = interval w.
Proof.
  intros Hne. unfold fire, commit. destruct (mounted w) as [v |]; [| done].
  destruct (Nat.eqb_spec (owner t) (instance w)); [done |].
  by rewrite status_eqb_refl.
Qed.

Lemma fold_fire_stale l w :
  Forall (stale w) l →
  let w' := foldl (λ acc t, fire t acc) w l in
  mounted w' = mounted w ∧ interval w' = interval w.
Proof.
  revert w. induction l as [| t l IH]; intros w Hall; simpl; [done |].
  apply Forall_cons in Hall as [Ht Hl].
  destruct (fire_stale t w Ht) as [Hm Hi].
  destruct (IH (fire t w)) as [-> ->]; [| done].
  eapply Forall_impl; [exact Hl |]. unfold stale. intros t' Ht'.
  by destruct (fire_frame t w) as (_ & _ & -> & _).
Qed.

Lemma fire_available t w :
  mounted w = Some available → interval w = Some 1 →
  mounted (fire t w) = Some available ∧ interval (fire t w) = Some 1.
Proof.
  intros Hm Hi. unfold fire, commit. rewrite Hm.
  by destruct (owner t =? instance w).
Qed.

Lemma fold_fire_available l w :
  mounted w = Some available → interval w = Some 1 →
  let w' := foldl (λ acc t, fire t acc) w l in
  mounted w' = Some available ∧ interval w' = Some 1.
Proof.
  revert w. induction l as [| t l IH]; intros w Hm Hi; simpl; [done |].
  destruct (fire_available t w Hm Hi). by apply IH.
Qed.

Lemma fire_wrap_up t w v :
  mounted w = Some v → ctiStatus v = WRAP_UP → owner t = instance w →
  mounted (fire t w) = Some available ∧ interval (fire t w) = Some 1.
Proof.
  intros Hm Hs Ht. unfold fire, commit. rewrite Hm, Ht, Nat.eqb_refl, Hs. done.
Qed.

Lemma fold_fire_wrap_up l w v :
  mounted w = Some v → ctiStatus v = WRAP_UP →
  Exists (λ t, owner t = instance w) l →
  let w' := foldl (λ acc t, fire t acc) w l in
  mounted w' = Some available ∧ interval w' = Some 1.
Proof.
  revert w. induction l as [| t l IH]; intros w Hm Hs Hex; simpl.
  - by apply Exists_nil in Hex.
  - destruct (decide (owner t = instance w)) as [Ht | Ht].
    + destruct (fire_wrap_up t w v Hm Hs Ht). by apply fold_fire_available.
    + destruct (fire_stale t w Ht) as [Hm' _].
      apply IH; [congruence | done |].
      apply Exists_cons in Hex as [? | Hex]; [done |].
      by destruct (fire_frame t w) as (_ & _ & -> & _).
Qed.

(** *** One second *)

Lemma beat_frame w :
  agent (beat w) = agent w ∧ campaigns (beat w) = campaigns w
  ∧ instance (beat w) = instance w ∧ timeouts (beat w) = timeouts w
  ∧ log (beat w) = log w.
Proof.
  unfold beat. by destruct (interval w) as [[| n] |], (mounted w) as [v |].
Qed.

Lemma beat_view w :
  mounted (beat w)
  = match interval w, mounted w with
    | Some 0, Some v => Some (tick v)
    | _, _ => mounted w
    end
  ∧ interval (beat w)
    = match interval w, mounted w with
      | Some 0, Some v => Some 1
      | _, _ => interval w
      end.
Proof.
  unfold beat.
  destruct (interval w) as [[| n] |] eqn:Hi, (mounted w) as [v |] eqn:Hm;
    simpl; by rewrite ?Hi, ?Hm.
Qed.

Lemma second_frame w :
  agent (second w) = agent w ∧ campaigns (second w) = campaigns w
  ∧ instance (second w) = instance w
  ∧ timeouts (second w) = age <$> List.filter (λ t, negb (due t)) (timeouts w).
Proof.
  unfold second.
  destruct (beat_frame (foldl (λ acc t, fire t acc) (elapse w) (expired w)))
    as (-> & -> & -> & -> & _).
  by destruct (fold_fire_frame (expired w) (elapse w)) as (-> & -> & -> & -> & _).
Qed.

Lemma second_unmounted w :
  mounted w = None →
  mounted (second w) = None ∧ interval (second w) = Nat.pred <$> interval w.
Proof.
  intros Hm. unfold second.
  destruct (fold_fire_frame (expired w) (elapse w)) as (_ & _ & _ & _ & Hf).
  destruct (Hf Hm) as [Hm' Hi'].
  destruct (beat_view (foldl (λ acc t, fire t acc) (elapse w) (expired w)))
    as [-> ->].
  rewrite Hm', Hi'. simpl. by destruct (interval w) as [[| [| n]] |].
Qed.

Lemma second_quiet w v :
  mounted w = Some v →
  Forall (stale w) (expired w) →
  match interval w with
  | Some (0 | 1) =>
      mounted (second w) = Some (tick v) ∧ interval (second w) = Some 1
  | other =>
      mounted (second w) = Some v ∧ interval (second w) = Nat.pred <$> other
  end.
Proof.
  intros Hm Hst. unfold second.
  destruct (fold_fire_stale (expired w) (elapse w) Hst) as [Hm' Hi'].
  destruct (beat_view (foldl (λ acc t, fire t acc) (elapse w) (expired w)))
    as [-> ->].
  rewrite Hm', Hi'. simpl. rewrite Hm.
  by destruct (interval w) as [[| [| n]] |].
Qed.

Lemma second_wrap_up_over w v :
  mounted w = Some v → ctiStatus v = WRAP_UP →
  Exists (λ t, owner t = instance w) (expired w) →
  mounted (second w) = Some available ∧ interval (second w) = Some 1.
Proof.
  intros Hm Hs Hex. unfold second.
  destruct (fold_fire_wrap_up (expired w) (elapse w) v Hm Hs Hex) as [Hm' Hi'].
  destruct (beat_view (foldl (λ acc t, fire t acc) (elapse w) (expired w)))
    as [-> ->].
  by rewrite Hm', Hi'.
Qed.

(** *** The invariant of the page *)

Lemma settled_boot (a : User) (cs : list Campaign) : settled (boot a cs).
Proof. split; [constructor | done]. Qed.

Lemma settled_mount w : settled w → settled (mount w).
Proof.
  intros [Hown Hst]. unfold mount.
  destruct (mounted w) as [v |] eqn:Hm; [by split; [| rewrite Hm] |].
  split; simpl.
  - eapply Forall_impl; [exact Hown |]. simpl. lia.
  - repeat split. eapply Forall_impl; [exact Hown |].
    unfold stale. simpl. lia.
Qed.

Lemma settled_logout w : settled w → settled (logout w).
Proof. intros [Hown _]. by split. Qed.

Lemma settled_click (b : Button) w : settled w → settled (click b w).
Proof.
  intros Hw. unfold click.
  destruct (mounted w) as [v |] eqn:Hm; [| done].
  destruct (shown (ctiStatus v) b) eqn:Hshown; [| done].
  destruct Hw as [Hown Hst]. rewrite Hm in Hst.
  destruct v as [s k c]; simpl in *.
  destruct s, b; try discriminate; simpl in *;
    try (destruct Hst as (Hi & Hk & Hc & Hstale));
    try (destruct Hst as (Hi & Hc & Hstale));
    unfold settled, commit; simpl.
  - rewrite app_nil_r. by repeat split.
  - unfold handleNextCall.
    destruct (agentCampaign (agent w) (campaigns w)) as [cmp |];
      [destruct (List.find pending (contacts cmp)) as [next |] |];
      simpl; rewrite app_nil_r; by repeat split.
  - rewrite app_nil_r. by repeat split.
  - split; [| split; [done | split]].
    + apply Forall_app. split; [done |]. repeat constructor.
    + apply Exists_app. right. by constructor.
    + apply Forall_app. split.
      * eapply Forall_impl; [exact Hstale |]. unfold stale, counting. by simpl.
      * repeat constructor; simpl; unfold wrapUpDelay; lia.
  - rewrite app_nil_r. by repeat split.
Qed.

Lemma elem_of_second_timeouts w t' :
  t' ∈ timeouts (second w) ↔
  ∃ t, t' = age t ∧ t ∈ timeouts w ∧ due t = false.
Proof.
  destruct (second_frame w) as (_ & _ & _ & ->).
  rewrite list_elem_of_fmap. split; intros (t & -> & Ht); exists t.
  - apply elem_of_filter_bool in Ht as [Ht Hd].
    by apply Bool.negb_true_iff in Hd.
  - split; [done |]. apply elem_of_filter_bool.
    destruct Ht as [Ht Hd]. by rewrite Hd.
Qed.

Lemma elem_of_expired w t : t ∈ expired w ↔ t ∈ timeouts w ∧ due t = true.
Proof. apply elem_of_filter_bool. Qed.

Lemma due_iff t : due t = true ↔ remaining t ≤ 1.
Proof. apply Nat.leb_le. Qed.

Lemma stale_second w :
  Forall (stale w) (timeouts w) →
  Forall (stale w) (expired w) ∧ Forall (stale (second w)) (timeouts (second w)).
Proof.
  rewrite !Forall_forall. intros Hall. split.
  - intros t Ht. apply elem_of_expired in Ht as [Ht _]. by apply Hall.
  - intros t' Ht'. apply elem_of_second_timeouts in Ht' as (t & -> & Ht & _).
    unfold stale. destruct (second_frame w) as (_ & _ & -> & _).
    by apply (Hall t).
Qed.

Lemma settled_second w : settled w → settled (second w).
Proof.
  intros [Hown Hst]. split.
  { rewrite Forall_forall in *. intros t' Ht'.
    apply elem_of_second_timeouts in Ht' as (t & -> & Ht & _).
    destruct (second_frame w) as (_ & _ & -> & _). by apply (Hown t). }
  destruct (mounted w) as [v |] eqn:Hm.
  2: { destruct (second_unmounted w Hm) as [-> ->]. by rewrite Hst. }
  assert (Hquiet : Forall (stale w) (timeouts w) →
            ctiStatus v ≠ WRAP_UP →
            match mounted (second w) with
            | Some v' =>
                ctiStatus v' = ctiStatus v ∧ currentContact v' = currentContact v
                ∧ interval (second w) = interval w
                ∧ (interval w = None → statusTimer v' = statusTimer v)
                ∧ Forall (stale (second w)) (timeouts (second w))
            | None => False
            end).
  { intros Hstale Hs. destruct (stale_second w Hstale) as [Hexp Hnew].
    pose proof (second_quiet w v Hm Hexp) as Hq.
    destruct (ctiStatus v) eqn:Hv; try done;
      destruct Hst as (Hi & Hrest); rewrite Hi in Hq |- *;
      destruct Hq as [-> ->]; simpl; by rewrite ?Hv. }
  destruct (ctiStatus v) eqn:Hv.
  - destruct Hst as (Hi & Hk & Hc & Hstale).
    specialize (Hquiet Hstale ltac:(done)).
    destruct (mounted (second w)) as [v' |]; [| done].
    destruct Hquiet as (-> & -> & -> & Hk' & ?). rewrite Hk' by done. done.
  - destruct Hst as (Hi & Hc & Hstale).
    specialize (Hquiet Hstale ltac:(done)).
    destruct (mounted (second w)) as [v' |]; [| done].
    by destruct Hquiet as (-> & -> & -> & _ & ?).
  - destruct Hst as (Hi & Hc & Hstale).
    specialize (Hquiet Hstale ltac:(done)).
    destruct (mounted (second w)) as [v' |]; [| done].
    by destruct Hquiet as (-> & -> & -> & _ & ?).
  - clear Hquiet. destruct Hst as (Hi & Hex & Hcount).
    rewrite Forall_forall in Hcount. apply Exists_exists in Hex as (t0 & Ht0 & Hmine).
    destruct (Hcount t0 Ht0 Hmine) as [Hpos Hsum]. unfold wrapUpDelay in *.
    destruct (decide (remaining t0 = 1)) as [Hlast | Hmore].
    + destruct (second_wrap_up_over w v Hm Hv) as [-> ->].
      { apply Exists_exists. exists t0. split; [| done].
        apply elem_of_expired. split; [done |]. apply due_iff. lia. }
      simpl. repeat split. rewrite Forall_forall. intros t' Ht'.
      apply elem_of_second_timeouts in Ht' as (t & -> & Ht & Hd).
      unfold stale. destruct (second_frame w) as (_ & _ & -> & _). simpl.
      intros Howner. destruct (Hcount t Ht Howner) as [_ Hsum'].
      apply Bool.not_true_iff_false in Hd. apply Hd, due_iff.
      unfold wrapUpDelay in *. lia.
    + assert (Hexp : Forall (stale w) (expired w)).
      { rewrite Forall_forall. intros t Ht Howner.
        apply elem_of_expired in Ht as [Ht Hd]. apply due_iff in Hd.
        destruct (Hcount t Ht Howner). unfold wrapUpDelay in *. lia. }
      pose proof (second_quiet w v Hm Hexp) as Hq. rewrite Hi in Hq.
      destruct Hq as [-> ->]. simpl. rewrite Hv. split; [done |]. split.
      * apply Exists_exists. exists (age t0). split.
        -- apply elem_of_second_timeouts. exists t0. repeat split; [done |].
           apply Bool.not_true_iff_false. rewrite due_iff. lia.
        -- destruct (second_frame w) as (_ & _ & -> & _). done.
      * rewrite Forall_forall. intros t' Ht'.
        apply elem_of_second_timeouts in Ht' as (t & -> & Ht & Hd).
        unfold counting. destruct (second_frame w) as (_ & _ & -> & _). simpl.
        intros Howner. destruct (Hcount t Ht Howner) as [? ?].
        apply Bool.not_true_iff_false in Hd. rewrite due_iff in Hd.
        unfold wrapUpDelay in *. lia.
  - destruct Hst as (Hi & Hc & Hstale).
    specialize (Hquiet Hstale ltac:(done)).
    destruct (mounted (second w)) as [v' |]; [| done].
    by destruct Hquiet as (-> & -> & -> & _ & ?).
Qed.

Lemma settled_step (e : Event) w : settled w → settled (step e w).
Proof.
  destruct e; simpl;
    [apply settled_mount | apply settled_logout | apply settled_click
    | apply settled_second].
Qed.

Lemma reachable_settled (a : User) (cs : list Campaign) w :
  reachable a cs w → settled w.
Proof.
  induction 1 as [| e w _ IH]; [apply settled_boot | by apply settled_step].
Qed.

Lemma reachable_run (a : User) (cs : list Campaign) (events : list Event) w :
  reachable a cs w → reachable a cs (run events w).
Proof.
  revert w. induction events as [| e events IH]; intros w Hw; simpl; [done |].
  apply IH. by constructor.
Qed.

(** *** Frame: the props of the component *)

Lemma commit_frame (before : AgentCtiStatus) v (extra : list Timeout)
    (said : list Notice) w :
  agent (commit before v extra said w) = agent w
  ∧ campaigns (commit before v extra said w) = campaigns w
  ∧ instance (commit before v extra said w) = instance w
  ∧ timeouts (commit before v extra said w) = timeouts w ++ extra
  ∧ log (commit before v extra said w) = log w ++ said.
Proof.
  unfold commit.
  by destruct (if status_eqb before (ctiStatus v) then (v, interval w) else effect v).
Qed.

Lemma step_frame (e : Event) w :
  agent (step e w) = agent w ∧ campaigns (step e w) = campaigns w.
Proof.
  destruct e as [| | b |]; simpl.
  - unfold mount. by destruct (mounted w).
  - done.
  - unfold click. destruct (mounted w) as [v |]; [| done].
    destruct (shown (ctiStatus v) b); [| done].
    destruct b;
      try destruct (handleNextCall (agentCampaign (agent w) (campaigns w)) v);
      split; apply commit_frame.
  - by destruct (second_frame w) as (-> & -> & _).
Qed.

Lemma run_frame (events : list Event) w :
  agent (run events w) = agent w ∧ campaigns (run events w) = campaigns w.
Proof.
  revert w. induction events as [| e events IH]; intros w; simpl; [done |].
  destruct (IH (step e w)) as [-> ->]. apply step_frame.
Qed.

Lemma run_app (xs ys : list Event) w : run (xs ++ ys) w = run ys (run xs w).
Proof. apply foldl_app. Qed.

Lemma run_cons (e : Event) (events : list Event) w :
  run (e :: events) w = run events (step e w).
Proof. reflexivity. Qed.

Lemma run_seconds_S (n : nat) w :
  run (seconds (S n)) w = run (seconds n) (second w).
Proof. reflexivity. Qed.

(** *** The wrap-up countdown *)

Lemma second_in_wrap_up w v :
  settled w → mounted w = Some v → ctiStatus v = WRAP_UP →
  statusTimer v < wrapUpDelay
  ∧ interval (second w) = Some 1
  ∧ mounted (second w)
    = Some (if decide (statusTimer v + 1 = wrapUpDelay) then available else tick v).
Proof.
  intros [_ Hst] Hm Hv. rewrite Hm, Hv in Hst. destruct Hst as (Hi & Hex & Hcount).
  rewrite Forall_forall in Hcount.
  apply Exists_exists in Hex as (t0 & Ht0 & Hmine).
  destruct (Hcount t0 Ht0 Hmine) as [Hpos Hsum].
  split; [lia |]. destruct (decide (statusTimer v + 1 = wrapUpDelay)) as [Hend | Hmore].
  - destruct (second_wrap_up_over w v Hm Hv) as [-> ->]; [| done].
    apply Exists_exists. exists t0. split; [| done].
    apply elem_of_expired. split; [done |]. apply due_iff. lia.
  - assert (Hexp : Forall (stale w) (expired w)).
    { rewrite Forall_forall. intros t Ht Howner.
      apply elem_of_expired in Ht as [Ht Hd]. apply due_iff in Hd.
      destruct (Hcount t Ht Howner). lia. }
    pose proof (second_quiet w v Hm Hexp) as Hq. rewrite Hi in Hq.
    by destruct Hq as [-> ->].
Qed.

Lemma wrap_up_countdown (n : nat) w v :
  settled w → mounted w = Some v → ctiStatus v = WRAP_UP →
  statusTimer v + n < wrapUpDelay →
  mounted (run (seconds n) w)
  = Some {| ctiStatus := WRAP_UP; statusTimer := statusTimer v + n;
            currentContact := currentContact v |}.
Proof.
  revert w v. induction n as [| n IH]; intros w v Hw Hm Hv Hn.
  - simpl. rewrite Hm, Nat.add_0_r. by destruct v; simpl in *; subst.
  - rewrite run_seconds_S.
    destruct (second_in_wrap_up w v Hw Hm Hv) as (_ & _ & Hm').
    destruct (decide (statusTimer v + 1 = wrapUpDelay)) as [? | _]; [lia |].
    rewrite (IH (second w) (tick v)); simpl; try done.
    + do 2 f_equal. lia.
    + by apply settled_second.
    + lia.
Qed.

Lemma wrap_up_expires (n : nat) w v :
  settled w → mounted w = Some v → ctiStatus v = WRAP_UP →
  statusTimer v + n = wrapUpDelay →
  mounted (run (seconds n) w) = Some available
  ∧ interval (run (seconds n) w) = Some 1.
Proof.
  revert w v. induction n as [| n IH]; intros w v Hw Hm Hv Hn.
  - destruct (second_in_wrap_up w v Hw Hm Hv) as (? & _). lia.
  - rewrite run_seconds_S.
    destruct (second_in_wrap_up w v Hw Hm Hv) as (_ & Hi' & Hm').
    destruct (decide (statusTimer v + 1 = wrapUpDelay)) as [Hend | Hmore].
    + assert (n = 0) as -> by lia. by simpl.
    + apply (IH (second w) (tick v)); simpl; try done.
      * by apply settled_second.
      * lia.
Qed.

(** The positive half of C1: from a call, hanging up enters the wrap-up
    with the counter at zero; the next nine seconds count up in the
    wrap-up; the tenth second returns to waiting, with no contact and the
    counter at zero. *)
Lemma wrap_up_returns_to_waiting (a : User) (cs : list Campaign) w v :
  reachable a cs w → mounted w = Some v → ctiStatus v = IN_CALL →
  mounted (click HangUp w) = Some (handleEndCall v)
  ∧ (∀ n, n < wrapUpDelay →
       mounted (run (Click HangUp :: seconds n) w)
       = Some {| ctiStatus := WRAP_UP; statusTimer := n;
                 currentContact := currentContact v |})
  ∧ mounted (run (Click HangUp :: seconds wrapUpDelay) w) = Some available.
Proof.
  intros Hw Hm Hv. apply reachable_settled in Hw.
  assert (Hup : mounted (click HangUp w) = Some (handleEndCall v)).
  { unfold click. by rewrite Hm, Hv. }
  pose proof (settled_click HangUp w Hw) as Hw'.
  split; [done |]. split.
  - intros n Hn. rewrite run_cons. cbn [step].
    by rewrite (wrap_up_countdown n _ _ Hw' Hup).
  - rewrite run_cons. cbn [step].
    by apply (wrap_up_expires wrapUpDelay _ _ Hw' Hup).
Qed.

(** *** Requesting the next call *)

Lemma find_first_split {A : Type} (f : A → bool) (xs : list A) (x : A) :
  List.find f xs = Some x ↔
  ∃ before after,
    xs = before ++ x :: after ∧ Forall (λ y, f y = false) before ∧ f x = true.
Proof.
  split.
  - induction xs as [| y rest IH]; simpl; [discriminate |].
    destruct (f y) eqn:Hy.
    + intros [= ->]. by exists [], rest.
    + intros Hrest. destruct (IH Hrest) as (before & after & -> & Hall & Hx).
      exists (y :: before), after. repeat split; [| done]. by constructor.
  - intros (before & after & -> & Hall & Hx). by apply find_first.
Qed.

Lemma find_nothing {A : Type} (f : A → bool) (xs : list A) :
  List.find f xs = None ↔ Forall (λ y, f y = false) xs.
Proof.
  induction xs as [| y rest IH]; simpl; [by split |].
  rewrite Forall_cons. destruct (f y); [| tauto].
  split; [discriminate | intros [? _]; discriminate].
Qed.

Lemma pending_false (c : Contact) : pending c = false ↔ status c ≠ "pending".
Proof. apply String.eqb_neq. Qed.

Lemma pending_true (c : Contact) : pending c = true ↔ status c = "pending".
Proof. apply String.eqb_eq. Qed.

Lemma not_pending_all (cs : list Contact) :
  Forall (λ x, status x ≠ "pending") cs ↔ Forall (λ x, pending x = false) cs.
Proof. apply Forall_proper; [intros x; symmetry; apply pending_false | done]. Qed.

Lemma next_call_found w v (c : Campaign) (next : Contact) :
  mounted w = Some v → ctiStatus v = WAITING →
  agentCampaign (agent w) (campaigns w) = Some c →
  List.find pending (contacts c) = Some next →
  mounted (click NextCall w)
  = Some {| ctiStatus := IN_CALL; statusTimer := 0; currentContact := Some next |}
  ∧ log (click NextCall w) = log w.
Proof.
  intros Hm Hs Hc Hfind. unfold click, handleNextCall, commit.
  rewrite Hm, Hs, Hc, Hfind. simpl. by rewrite app_nil_r.
Qed.

Lemma next_call_empty w v (c : Campaign) :
  mounted w = Some v → ctiStatus v = WAITING →
  agentCampaign (agent w) (campaigns w) = Some c →
  List.find pending (contacts c) = None →
  mounted (click NextCall w) = Some v
  ∧ log (click NextCall w) = log w ++ [NoMoreContacts].
Proof.
  intros Hm Hs Hc Hfind. unfold click, handleNextCall, commit.
  rewrite Hm, Hs, Hc, Hfind. simpl. split; [| done].
  destruct v; simpl in *; by subst.
Qed.

(** Either some contact is the first pending one, or none is pending. *)
Lemma first_pending_or_none (cs : list Contact) :
  (∃ before next after,
     cs = before ++ next :: after
     ∧ Forall (λ x, status x ≠ "pending") before
     ∧ status next = "pending")
  ∨ Forall (λ x, status x ≠ "pending") cs.
Proof.
  destruct (List.find pending cs) as [next |] eqn:Hfind.
  - left. apply find_first_split in Hfind as (before & after & -> & Hall & Hx).
    exists before, next, after. split; [done |].
    split; [by apply not_pending_all | by apply pending_true].
  - right. by apply not_pending_all, find_nothing.
Qed.

(** C2.  In a waiting session whose agent has an active campaign: when
    [next] is the first contact of the campaign, in order, whose status is
    "pending", the request makes it the current contact and the status
    becomes in-call; when no contact is pending, the caller is told so, the
    status stays waiting and no contact is current.  (One of the two cases
    always applies, see [first_pending_or_none].) *)
Theorem request_next_call (a : User) (cs : list Campaign) w v (c : Campaign) :
  reachable a cs w →
  mounted w = Some v →
  ctiStatus v = WAITING →
  agentCampaign (agent w) (campaigns w) = Some c →
  (∀ before next after,
     contacts c = before ++ next :: after →
     Forall (λ x, status x ≠ "pending") before →
     status next = "pending" →
     mounted (click NextCall w)
     = Some {| ctiStatus := IN_CALL; statusTimer := 0;
               currentContact := Some next |}
     ∧ log (click NextCall w) = log w)
  ∧ (Forall (λ x, status x ≠ "pending") (contacts c) →
     log (click NextCall w) = log w ++ [NoMoreContacts]
     ∧ ∃ v', mounted (click NextCall w) = Some v'
             ∧ ctiStatus v' = WAITING ∧ currentContact v' = None).
Proof.
  intros Hw Hm Hs Hc. apply reachable_settled in Hw as [_ Hst].
  rewrite Hm, Hs in Hst. destruct Hst as (_ & Hnone & _). split.
  - intros before next after Hsplit Hbefore Hnext.
    apply (next_call_found w v c next Hm Hs Hc).
    apply find_first_split. exists before, after. split; [done |].
    split; [by apply not_pending_all | by apply pending_true].
  - intros Hall. apply not_pending_all, find_nothing in Hall.
    destruct (next_call_empty w v c Hm Hs Hc Hall) as [-> ->].
    split; [done |]. by exists v.
Qed.

Lemma request_next_call_witness :
  mounted (click NextCall waiting_room)
  = Some {| ctiStatus := IN_CALL; statusTimer := 0;
            currentContact := Some (contact "2" "pending") |}
  ∧ log (click NextCall waiting_room) = log waiting_room.
Proof.
  refine (proj1 (request_next_call demo_agent demo_campaigns waiting_room
                   available
                   {| campaign_id := "c1"; campaign_name := "Relance";
                      isActive := true; scriptId := "s1";
                      contacts := [contact "1" "done"; contact "2" "pending";
                                   contact "3" "pending"] |} _ _ _ _)
            [contact "1" "done"] (contact "2" "pending")
            [contact "3" "pending"] _ _ _).
  - apply reachable_run. constructor.
  - reflexivity.
  - reflexivity.
  - reflexivity.
  - reflexivity.
  - repeat constructor. simpl. discriminate.
  - reflexivity.
Defined.

Example no_more_contacts :
  let w :=
    run [AppLogin; Click StartSession; Click NextCall]
      (boot demo_agent
         [ {| campaign_id := "c1"; campaign_name := "Relance"; isActive := true;
              scriptId := "s1";
              contacts := [contact "1" "done"; contact "2" "absent"] |} ]) in
  mounted w = Some available ∧ log w = [NoMoreContacts].
Proof. by split. Qed.

(** C8, as amended.  Without an active assigned campaign, a request for the
    next call changes nothing at all, the notices included: the handler
    returns at once and tells its caller nothing.  What shows the missing
    campaign is the information panel, whatever the agent does. *)
Theorem request_without_campaign w :
  agentCampaign (agent w) (campaigns w) = None →
  click NextCall w = w
  ∧ (is_Some (mounted w) → infoPanel w = Some NoActiveCampaign).
Proof.
  intros Hc. split.
  - unfold click, commit. destruct (mounted w) as [v |] eqn:Hm; [| done].
    destruct (shown (ctiStatus v) NextCall); [| done].
    rewrite Hc. simpl. rewrite status_eqb_refl, !app_nil_r.
    destruct w; simpl in *; by subst.
  - intros [v Hm]. unfold infoPanel. by rewrite Hm, Hc.
Qed.

Lemma request_without_campaign_witness :
  click NextCall lonely_room = lonely_room
  ∧ (is_Some (mounted lonely_room) → infoPanel lonely_room = Some NoActiveCampaign).
Proof. apply (request_without_campaign lonely_room). reflexivity. Defined.

(** C8, as stated, fails: the request of an agent without a campaign is
    not reported. *)
Lemma no_campaign_not_reported : ¬ no_campaign_reported lonely_room.
Proof. intros [_ Hsaid]. by apply Hsaid. Qed.

(** *** The elapsed counter *)

Lemma second_outside_wrap_up w v :
  settled w → mounted w = Some v → ctiStatus v ≠ WRAP_UP →
  interval w = match ctiStatus v with LOGGED_OUT => None | _ => Some 1 end
  ∧ interval (second w) = interval w
  ∧ mounted (second w)
    = Some match ctiStatus v with LOGGED_OUT => v | _ => tick v end.
Proof.
  intros [_ Hst] Hm Hv. rewrite Hm in Hst.
  assert (Hstale : Forall (stale w) (timeouts w)).
  { destruct (ctiStatus v); try done; by destruct Hst as (_ & _ & ?); try tauto. }
  destruct (stale_second w Hstale) as [Hexp _].
  pose proof (second_quiet w v Hm Hexp) as Hq.
  destruct (ctiStatus v); try done;
    destruct Hst as (Hi & _); rewrite Hi in Hq |- *; by destruct Hq as [-> ->].
Qed.

Lemma seconds_unmounted (n : nat) w :
  mounted w = None → interval w = None →
  mounted (run (seconds n) w) = None ∧ interval (run (seconds n) w) = None.
Proof.
  revert w. induction n as [| n IH]; intros w Hm Hi; [done |].
  rewrite run_seconds_S. destruct (second_unmounted w Hm) as [Hm' Hi'].
  apply IH; [done |]. by rewrite Hi', Hi.
Qed.

Lemma click_resets (b : Button) w v v' :
  mounted w = Some v → mounted (click b w) = Some v' →
  ctiStatus v' ≠ ctiStatus v → statusTimer v' = 0.
Proof.
  intros Hm. unfold click, commit. rewrite Hm.
  destruct (shown (ctiStatus v) b) eqn:Hshown; [| congruence].
  destruct v as [s k c]; simpl in *.
  destruct s, b; try discriminate; simpl;
    try (intros [= <-]; done).
  unfold handleNextCall.
  destruct (agentCampaign (agent w) (campaigns w)) as [cmp |];
    [destruct (List.find pending (contacts cmp)) |];
    simpl; intros [= <-]; done.
Qed.

(** C9.  In every world an agent can bring about: an event that changes
    the status of the mounted session leaves its counter at 0; while the
    status is not logged-out the interval is registered and a second that
    leaves the status alone adds exactly 1 to the counter; a logged-out
    session has no interval and its counter stays at 0; a logout clears the
    interval and leaves no session for the seconds that follow to count in,
    and the session of the next sign-in starts logged-out at 0 with no
    interval. *)
Theorem elapsed_counter (a : User) (cs : list Campaign) w :
  reachable a cs w →
  (∀ e v v',
     mounted w = Some v → mounted (step e w) = Some v' →
     ctiStatus v' ≠ ctiStatus v → statusTimer v' = 0)
  ∧ (∀ v,
       mounted w = Some v → ctiStatus v ≠ LOGGED_OUT →
       interval w = Some 1 ∧ interval (second w) = Some 1
       ∧ ∃ v', mounted (second w) = Some v'
               ∧ (ctiStatus v' = ctiStatus v →
                  statusTimer v' = statusTimer v + 1))
  ∧ (∀ v,
       mounted w = Some v → ctiStatus v = LOGGED_OUT →
       statusTimer v = 0 ∧ interval w = None
       ∧ mounted (second w) = Some v ∧ interval (second w) = None)
  ∧ (mounted (logout w) = None ∧ interval (logout w) = None
     ∧ (∀ n, mounted (run (seconds n) (logout w)) = None
             ∧ interval (run (seconds n) (logout w)) = None)
     ∧ mounted (mount (logout w)) = Some fresh
     ∧ interval (mount (logout w)) = None).
Proof.
  intros Hw. apply reachable_settled in Hw. split; [| split; [| split]].
  - intros e v v' Hm Hm' Hchange. destruct e as [| | b |]; cbn [step] in Hm'.
    + unfold mount in Hm'. rewrite Hm in Hm'. congruence.
    + discriminate.
    + exact (click_resets b w v v' Hm Hm' Hchange).
    + destruct (decide (ctiStatus v = WRAP_UP)) as [Hv | Hv].
      * destruct (second_in_wrap_up w v Hw Hm Hv) as (_ & _ & Hsec).
        rewrite Hsec in Hm'. injection Hm' as <-.
        by destruct (decide (statusTimer v + 1 = wrapUpDelay)).
      * destruct (second_outside_wrap_up w v Hw Hm Hv) as (_ & _ & Hsec).
        rewrite Hsec in Hm'. injection Hm' as <-.
        exfalso. apply Hchange. by destruct (ctiStatus v) eqn:E.
  - intros v Hm Hv. destruct (decide (ctiStatus v = WRAP_UP)) as [Hwrap | Hwrap].
    + destruct (second_in_wrap_up w v Hw Hm Hwrap) as (_ & Hi' & Hsec).
      destruct Hw as [_ Hst]. rewrite Hm, Hwrap in Hst.
      destruct Hst as (Hi & _). split; [done |]. split; [done |].
      eexists. split; [exact Hsec |].
      destruct (decide (statusTimer v + 1 = wrapUpDelay)); simpl; [| done].
      rewrite Hwrap. discriminate.
    + destruct (second_outside_wrap_up w v Hw Hm Hwrap) as (Hi & Hi' & Hsec).
      rewrite Hi'. split; [by destruct (ctiStatus v) |].
      split; [by destruct (ctiStatus v) |].
      eexists. split; [exact Hsec |]. by destruct (ctiStatus v) eqn:E.
  - intros v Hm Hv.
    destruct (second_outside_wrap_up w v Hw Hm) as (Hi & Hi' & Hsec);
      [by rewrite Hv |].
    rewrite Hv in Hi, Hsec. rewrite Hi', Hi.
    destruct Hw as [_ Hst]. rewrite Hm, Hv in Hst. by destruct Hst as (_ & ? & _).
  - split; [done |]. split; [done |]. split; [| done].
    intros n. by apply seconds_unmounted.
Qed.

(** The start button on a session that is signed in; then, seven seconds
    into the wait, the pause button, a second more, and a logout. *)
Lemma elapsed_counter_witness :
  (mounted signed_in = Some fresh
   ∧ mounted (step (Click StartSession) signed_in) = Some available
   ∧ ctiStatus available ≠ ctiStatus fresh
   ∧ statusTimer available = 0)
  ∧ (mounted after_seven = Some waited_seven
     ∧ mounted (step (Click Pause) after_seven) = Some paused
     ∧ ctiStatus paused ≠ ctiStatus waited_seven
     ∧ statusTimer paused = 0)
  ∧ (ctiStatus waited_seven ≠ LOGGED_OUT
     ∧ interval after_seven = Some 1
     ∧ interval (second after_seven) = Some 1
     ∧ ∃ v', mounted (second after_seven) = Some v'
             ∧ (ctiStatus v' = ctiStatus waited_seven →
                statusTimer v' = statusTimer waited_seven + 1))
  ∧ (ctiStatus fresh = LOGGED_OUT
     ∧ statusTimer fresh = 0 ∧ interval signed_in = None
     ∧ mounted (second signed_in) = Some fresh
     ∧ interval (second signed_in) = None)
  ∧ (mounted (logout after_seven) = None ∧ interval (logout after_seven) = None
     ∧ (∀ n, mounted (run (seconds n) (logout after_seven)) = None
             ∧ interval (run (seconds n) (logout after_seven)) = None)
     ∧ mounted (mount (logout after_seven)) = Some fresh
     ∧ interval (mount (logout after_seven)) = None).
Proof.
  assert (Hin : reachable demo_agent demo_campaigns signed_in)
    by (apply reachable_run; constructor).
  assert (Hseven : reachable demo_agent demo_campaigns after_seven)
    by (do 2 apply reachable_run; constructor).
  destruct (elapsed_counter demo_agent demo_campaigns signed_in Hin)
    as (Hstart & _ & Hout & _).
  destruct (elapsed_counter demo_agent demo_campaigns after_seven Hseven)
    as (Hpause & Hcount & _ & Hlogout).
  assert (Hfresh : mounted signed_in = Some fresh) by reflexivity.
  assert (Hstarted : mounted (step (Click StartSession) signed_in) = Some available)
    by reflexivity.
  assert (Hwaited : mounted after_seven = Some waited_seven)
    by (vm_compute; reflexivity).
  assert (Hpaused : mounted (step (Click Pause) after_seven) = Some paused)
    by (vm_compute; reflexivity).
  assert (Hne1 : ctiStatus available ≠ ctiStatus fresh) by discriminate.
  assert (Hne2 : ctiStatus paused ≠ ctiStatus waited_seven) by discriminate.
  assert (Hne3 : ctiStatus waited_seven ≠ LOGGED_OUT) by discriminate.
  split; [| split; [| split; [| split]]].
  - split; [done |]. split; [done |]. split; [done |].
    exact (Hstart (Click StartSession) fresh available Hfresh Hstarted Hne1).
  - split; [done |]. split; [done |]. split; [done |].
    exact (Hpause (Click Pause) waited_seven paused Hwaited Hpaused Hne2).
  - split; [done |]. exact (Hcount waited_seven Hwaited Hne3).
  - split; [done |]. exact (Hout fresh Hfresh eq_refl).
  - exact Hlogout.
Defined.

Example counter_counts_seconds :
  statusTimer <$> mounted (run (seconds 7) waiting_room) = Some 7
  ∧ statusTimer <$> mounted (run (seconds 7 ++ [Click Pause]) waiting_room) = Some 0
  ∧ statusTimer <$> mounted (run (seconds 7 ++ [Click Pause] ++ seconds 3) waiting_room)
    = Some 3.
Proof. by repeat split. Qed.

(** *** Contacts are only read *)

(** C10.  No event of the session changes the campaigns, their contact
    sequences or a contact's status; so, from a waiting session whose
    campaign has a first pending contact, taking the call, hanging up and
    letting the ten seconds of wrap-up pass leads back to waiting, and the
    next request selects the same contact again. *)
Theorem contacts_never_marked (a : User) (cs : list Campaign) w v
    (c : Campaign) (next : Contact) :
  reachable a cs w →
  mounted w = Some v →
  ctiStatus v = WAITING →
  agentCampaign (agent w) (campaigns w) = Some c →
  List.find pending (contacts c) = Some next →
  (∀ events, campaigns (run events w) = campaigns w)
  ∧ currentContact <$> mounted (click NextCall w) = Some (Some next)
  ∧ mounted (run (Click NextCall :: Click HangUp :: seconds wrapUpDelay) w)
    = Some available
  ∧ mounted (run (Click NextCall :: Click HangUp :: seconds wrapUpDelay
                    ++ [Click NextCall]) w)
    = Some {| ctiStatus := IN_CALL; statusTimer := 0;
              currentContact := Some next |}.
Proof.
  intros Hw Hm Hs Hc Hfind.
  destruct (next_call_found w v c next Hm Hs Hc Hfind) as [Hcall _].
  split; [intros events; apply run_frame |].
  split; [by rewrite Hcall |].
  rewrite !run_cons, run_app. cbn [step].
  set (w1 := click NextCall w) in *.
  assert (Hw1 : reachable a cs w1) by apply (reach_step a cs (Click NextCall) w Hw).
  destruct (wrap_up_returns_to_waiting a cs w1 _ Hw1 Hcall eq_refl)
    as (_ & _ & Hback).
  rewrite run_cons in Hback. cbn [step] in Hback.
  set (w2 := run (seconds wrapUpDelay) (click HangUp w1)) in *.
  split; [exact Hback |].
  change (run [Click NextCall] w2) with (click NextCall w2).
  apply (next_call_found w2 available c next); [done | done | | done].
  destruct (run_frame (seconds wrapUpDelay) (click HangUp w1)) as [Ha Hcs].
  destruct (step_frame (Click HangUp) w1) as [Ha1 Hcs1].
  destruct (step_frame (Click NextCall) w) as [Ha0 Hcs0].
  cbn [step] in Ha1, Hcs1, Ha0, Hcs0. fold w1 in Ha0, Hcs0. fold w2 in Ha, Hcs.
  by rewrite Ha, Hcs, Ha1, Hcs1, Ha0, Hcs0.
Qed.

Lemma contacts_never_marked_witness :
  (∀ events, campaigns (run events waiting_room) = campaigns waiting_room)
  ∧ currentContact <$> mounted (click NextCall waiting_room)
    = Some (Some (contact "2" "pending"))
  ∧ mounted (run (Click NextCall :: Click HangUp :: seconds wrapUpDelay)
               waiting_room)
    = Some available
  ∧ mounted (run (Click NextCall :: Click HangUp :: seconds wrapUpDelay
                    ++ [Click NextCall]) waiting_room)
    = Some {| ctiStatus := IN_CALL; statusTimer := 0;
              currentContact := Some (contact "2" "pending") |}.
Proof.
  apply (contacts_never_marked demo_agent demo_campaigns waiting_room available
           {| campaign_id := "c1"; campaign_name := "Relance";
              isActive := true; scriptId := "s1";
              contacts := [contact "1" "done"; contact "2" "pending";
                           contact "3" "pending"] |}).
  - apply reachable_run. constructor.
  - reflexivity.
  - reflexivity.
  - reflexivity.
  - reflexivity.
Defined.

(** *** The wrap-up timeout and a logout *)

(** No event but the passing of a second removes a pending timeout. *)
Lemma timeouts_outlive (e : Event) w t :
  e ≠ Second → t ∈ timeouts w → t ∈ timeouts (step e w).
Proof.
  intros He Ht. destruct e as [| | b |]; simpl; [| done | | done].
  - unfold mount. by destruct (mounted w).
  - unfold click. destruct (mounted w) as [v |]; [| done].
    destruct (shown (ctiStatus v) b); [| done].
    destruct b;
      try destruct (handleNextCall (agentCampaign (agent w) (campaigns w)) v);
      match goal with
      | |- _ ∈ timeouts (commit ?s ?x ?extra ?said w) =>
          destruct (commit_frame s x extra said w) as (_ & _ & _ & -> & _)
      end;
      apply elem_of_app; by left.
Qed.

Lemma fold_fire_unmounted l w :
  mounted w = None →
  log (foldl (λ acc t, fire t acc) w l)
  = log w ++ ((λ t, WrapUpFired (owner t) false) <$> l).
Proof.
  revert w. induction l as [| t l IH]; intros w Hm; simpl.
  - by rewrite app_nil_r.
  - rewrite IH; unfold fire; rewrite Hm; simpl; [| done].
    by rewrite <- app_assoc.
Qed.

Lemma second_unmounted_log w :
  mounted w = None →
  log (second w) = log w ++ ((λ t, WrapUpFired (owner t) false) <$> expired w).
Proof.
  intros Hm. unfold second.
  destruct (beat_frame (foldl (λ acc t, fire t acc) (elapse w) (expired w)))
    as (_ & _ & _ & _ & ->).
  by rewrite fold_fire_unmounted.
Qed.

(** With no component mounted, a pending timeout runs out after the
    seconds it has left, and its callback runs then. *)
Lemma timeout_fires_unmounted (n : nat) w t :
  mounted w = None → t ∈ timeouts w → remaining t = S n →
  ∃ fired,
    log (run (seconds (S n)) w) = log w ++ fired
    ∧ WrapUpFired (owner t) false ∈ fired.
Proof.
  revert w t. induction n as [| n IH]; intros w t Hm Ht Hn;
    rewrite run_seconds_S.
  - simpl. rewrite second_unmounted_log by done. eexists. split; [done |].
    apply (list_elem_of_fmap_2 (λ t, WrapUpFired (owner t) false)).
    apply elem_of_expired. split; [done |]. apply due_iff. lia.
  - destruct (second_unmounted w Hm) as [Hm' _].
    destruct (IH (second w) (age t) Hm') as (fired & Hlog & Hin).
    + apply elem_of_second_timeouts. exists t. repeat split; [done |].
      apply Bool.not_true_iff_false. rewrite due_iff. lia.
    + simpl. lia.
    + rewrite Hlog, second_unmounted_log by done.
      eexists. split; [by rewrite <- app_assoc |].
      apply elem_of_app. by right.
Qed.

(** C1, where the code departs from it.  When the agent hangs up and logs
    out, the component is unmounted and its interval is cleared, but the
    wrap-up timeout stays registered, and ten seconds later its callback
    runs, on a component that is no longer mounted.  (The other half of C1,
    the return to waiting of a session that stays mounted, is
    [wrap_up_returns_to_waiting].) *)
Theorem wrap_up_timeout_outlives_logout w v :
  mounted w = Some v →
  ctiStatus v = IN_CALL →
  mounted (run [Click HangUp; Logout] w) = None
  ∧ interval (run [Click HangUp; Logout] w) = None
  ∧ {| owner := instance w; remaining := wrapUpDelay |}
    ∈ timeouts (run [Click HangUp; Logout] w)
  ∧ ∃ fired,
      log (run (seconds wrapUpDelay) (run [Click HangUp; Logout] w))
      = log (run [Click HangUp; Logout] w) ++ fired
      ∧ WrapUpFired (instance w) false ∈ fired.
Proof.
  intros Hm Hv.
  assert (Hin : {| owner := instance w; remaining := wrapUpDelay |}
                ∈ timeouts (run [Click HangUp; Logout] w)).
  { change (run [Click HangUp; Logout] w) with (logout (click HangUp w)).
    simpl. unfold click. rewrite Hm, Hv. simpl.
    apply elem_of_app. right. by left. }
  split; [done |]. split; [done |]. split; [done |].
  assert (Hgone : mounted (run [Click HangUp; Logout] w) = None) by done.
  exact (timeout_fires_unmounted 9 _ _ Hgone Hin eq_refl).
Qed.

Lemma wrap_up_timeout_outlives_logout_witness :
  mounted left_in_wrap_up = None
  ∧ interval left_in_wrap_up = None
  ∧ {| owner := 1; remaining := wrapUpDelay |} ∈ timeouts left_in_wrap_up
  ∧ ∃ fired,
      log (run (seconds wrapUpDelay) left_in_wrap_up)
      = log left_in_wrap_up ++ fired
      ∧ WrapUpFired 1 false ∈ fired.
Proof.
  apply (wrap_up_timeout_outlives_logout (click NextCall waiting_room)
           {| ctiStatus := IN_CALL; statusTimer := 0;
              currentContact := Some (contact "2" "pending") |});
    reflexivity.
Defined.

Example logout_during_wrap_up :
  timeouts left_in_wrap_up = [{| owner := 1; remaining := wrapUpDelay |}]
  ∧ log (run (seconds 9) left_in_wrap_up) = []
  ∧ log (run (seconds wrapUpDelay) left_in_wrap_up) = [WrapUpFired 1 false]
  ∧ mounted (run (seconds wrapUpDelay) left_in_wrap_up) = None.
Proof. by repeat split. Qed.

(** A later session is not touched by the callback of an earlier one. *)
Example stale_callback_is_dropped :
  let w :=
    run ([AppLogin; Click StartSession; Click NextCall] ++ seconds wrapUpDelay)
      left_in_wrap_up in
  log w = [WrapUpFired 1 false]
  ∧ mounted w
    = Some {| ctiStatus := IN_CALL; statusTimer := wrapUpDelay;
              currentContact := Some (contact "2" "pending") |}.
Proof. by split. Qed.

End SessionFacts.

(** * More properties of the script interpreter *)

Section PreviewFacts.

Import Js Script Preview.

Implicit Types (values : gmap string Value) (st : State)
  (script : SavedScript) (items : list Prim) (block : ScriptBlock).

Ltac split_index :=
  match goal with
  | |- context [(?a <? ?b)%Z] => destruct (Z.ltb_spec a b)
  | |- context [(?a >? ?b)%Z] => destruct (Z.gtb_spec a b)
  end.

(** *** Button clicks *)

(** X1.  A button click never throws, whatever the action, the script and
    the page pointer are; it leaves the answers as they are; and it raises
    an alert only for "save", which shows the answers and moves nothing. *)
Theorem click_never_throws script (action : ButtonAction) st :
  ∃ st',
    handleButtonClick script action st
    = Done (st', if String.eqb (type action) "save"
                 then [Alert (formValues st)] else [])
    ∧ formValues st' = formValues st
    ∧ (type action = "save" → st' = st).
Proof.
  destruct (handleButtonClick_total script action st)
    as (st' & effects & Hrun & Hvalues & _).
  exists st'. split; [| split; [done |]].
  - rewrite Hrun. f_equal. f_equal. revert Hrun. unfold handleButtonClick, goToIndex.
    destruct (String.eqb (type action) "save"); [congruence |].
    repeat (case_match; try congruence).
  - intros Hsave. revert Hrun. unfold handleButtonClick.
    rewrite Hsave. simpl. congruence.
Qed.

Lemma findIndex_none {A : Type} (f : A → bool) (l : list A) :
  Forall (λ x, f x = false) l → findIndex f l = (-1)%Z.
Proof.
  induction 1 as [| x rest Hx _ IH]; simpl; [done |]. by rewrite Hx, IH.
Qed.

Lemma dangling_has_no_page script st :
  ¬ page_exists script st →
  Forall (λ p, has_id (currentPageId st) p = false) (pages script).
Proof.
  intros Hnot. rewrite Forall_forall. intros p Hp. apply has_id_false.
  intros Heq. apply Hnot. unfold page_exists, page_ids. rewrite <- Heq.
  by apply list_elem_of_fmap_2.
Qed.

(** X2.  From a page pointer that names no page of the script, "next"
    goes to the first page of the script (and does nothing in a script
    without pages), while "previous" does nothing. *)
Theorem next_from_dangling_pointer script st :
  ¬ page_exists script st →
  handleButtonClick script next st
  = Done (match pages script with
          | [] => st
          | first :: _ => setCurrentPageId (page_id first) st
          end, [])
  ∧ handleButtonClick script previous st = Done (st, []).
Proof.
  intros Hnot. apply dangling_has_no_page in Hnot.
  unfold handleButtonClick, goToIndex. simpl.
  rewrite (findIndex_none _ _ Hnot). split; [| done].
  destruct (pages script) as [| first rest]; [done |].
  split_index; [done |]. simpl length in *. lia.
Qed.

Lemma next_from_dangling_pointer_witness :
  handleButtonClick demo next (setCurrentPageId "ghost" (initial demo))
  = Done (match pages demo with
          | [] => setCurrentPageId "ghost" (initial demo)
          | first :: _ =>
              setCurrentPageId (page_id first)
                (setCurrentPageId "ghost" (initial demo))
          end, [])
  ∧ handleButtonClick demo previous (setCurrentPageId "ghost" (initial demo))
    = Done (setCurrentPageId "ghost" (initial demo), []).
Proof.
  apply (next_from_dangling_pointer demo (setCurrentPageId "ghost" (initial demo))).
  unfold page_exists. rewrite list_elem_of_In. simpl.
  intros [H | [H | [H | []]]]; discriminate.
Defined.

Lemma setCurrentPageId_twice st (a b : string) :
  setCurrentPageId a (setCurrentPageId b st) = setCurrentPageId a st.
Proof. reflexivity. Qed.

Lemma setCurrentPageId_same st (id : string) :
  currentPageId st = id → setCurrentPageId id st = st.
Proof. destruct st. simpl. by intros ->. Qed.

(** X3.  In a script whose page identifiers are pairwise distinct, "next"
    and "previous" undo each other away from the two ends: from a page that
    has a following page, "next" then "previous" comes back to it, and from
    that following page "previous" then "next" comes back to it. *)
Theorem next_previous_round_trip script st (before : list Page)
    (page following : Page) (after : list Page) :
  NoDup (page_ids script) →
  pages script = before ++ page :: following :: after →
  currentPageId st = page_id page →
  clicks script [next; previous] st = Done st
  ∧ clicks script [previous; next] (setCurrentPageId (page_id following) st)
    = Done (setCurrentPageId (page_id following) st).
Proof.
  intros Hnodup Hpages Hid. unfold page_ids in Hnodup. rewrite Hpages in Hnodup.
  pose proof (distinct_ids_ahead before page _ Hnodup) as Hahead.
  assert (Hpages' : pages script = (before ++ [page]) ++ following :: after).
  { by rewrite <- app_assoc. }
  assert (Hahead' : Forall (λ p, has_id (page_id following) p = false)
                      (before ++ [page])).
  { apply (distinct_ids_ahead _ following after). by rewrite <- app_assoc. }
  destruct (click_at_position script st before page (following :: after))
    as [Hnext _]; [done | by rewrite Hid | done |].
  destruct (click_at_position script (setCurrentPageId (page_id following) st)
              (before ++ [page]) following after) as [_ Hprev]; [done.. |].
  rewrite last_snoc in Hprev. cbv beta iota in Hprev.
  rewrite setCurrentPageId_twice, (setCurrentPageId_same st _ Hid) in Hprev.
  split.
  - simpl. rewrite Hnext. by rewrite Hprev.
  - simpl. rewrite Hprev. by rewrite Hnext.
Qed.

Lemma next_previous_round_trip_witness :
  clicks demo [next; previous] (initial demo) = Done (initial demo)
  ∧ clicks demo [previous; next] (setCurrentPageId "p2" (initial demo))
    = Done (setCurrentPageId "p2" (initial demo)).
Proof.
  apply (next_previous_round_trip demo (initial demo) []
           {| page_id := "p1"; page_name := "Accueil";
              blocks := [ {| block_id := "b1"; block_type := "radio";
                             block_name := "q1"; displayCondition := None;
                             block_action := None |} ] |}
           {| page_id := "p2"; page_name := "Offre";
              blocks := [ {| block_id := "b2"; block_type := "text";
                             block_name := "t1";
                             displayCondition :=
                               Some {| blockName := Some "q1"; value := str "yes" |};
                             block_action := None |} ] |}
           [ {| page_id := "p3"; page_name := "Fin"; blocks := [] |} ]).
  - unfold page_ids. simpl. repeat constructor; rewrite ?list_elem_of_In; simpl;
      intuition discriminate.
  - reflexivity.
  - reflexivity.
Defined.

(** X4.  In a script whose page identifiers are pairwise distinct,
    pressing "next" once for every page behind the current one ends on the
    last page of the script, and one more "next" stays there. *)
Theorem next_reaches_last_page script st (before : list Page) (page : Page)
    (after : list Page) :
  NoDup (page_ids script) →
  pages script = before ++ page :: after →
  currentPageId st = page_id page →
  clicks script (replicate (length after) next) st
  = Done (setCurrentPageId (page_id (List.last after page)) st)
  ∧ clicks script (replicate (S (length after)) next) st
    = Done (setCurrentPageId (page_id (List.last after page)) st).
Proof.
  intros Hnodup. unfold page_ids in Hnodup.
  revert before page st. induction after as [| following after IH];
    intros before page st Hpages Hid.
  - rewrite Hpages in Hnodup.
    pose proof (distinct_ids_ahead before page _ Hnodup) as Hahead.
    destruct (click_at_position script st before page [])
      as [Hnext _]; [done | by rewrite Hid | done |].
    simpl. rewrite Hnext. by rewrite setCurrentPageId_same.
  - pose proof Hnodup as Hnodup'. rewrite Hpages in Hnodup'.
    pose proof (distinct_ids_ahead before page _ Hnodup') as Hahead.
    destruct (click_at_position script st before page (following :: after))
      as [Hnext _]; [done | by rewrite Hid | done |].
    destruct (IH (before ++ [page]) following
                (setCurrentPageId (page_id following) st)) as [Hlast Hstay];
      [by rewrite <- app_assoc | done |].
    assert (Hl : List.last (following :: after) page = List.last after following).
    { clear. revert following page.
      induction after as [| x after IH]; intros following page; [done |].
      change (List.last (x :: after) page = List.last (x :: after) following).
      by rewrite !IH. }
    rewrite Hl. split.
    + simpl length. simpl replicate. cbn [clicks]. rewrite Hnext. exact Hlast.
    + change (replicate (S (length (following :: after))) next)
        with (next :: replicate (S (length after)) next).
      cbn [clicks]. rewrite Hnext. exact Hstay.
Qed.

Lemma next_reaches_last_page_witness :
  clicks demo (replicate 2 next) (initial demo)
  = Done (setCurrentPageId "p3" (initial demo))
  ∧ clicks demo (replicate 3 next) (initial demo)
    = Done (setCurrentPageId "p3" (initial demo)).
Proof.
  apply (next_reaches_last_page demo (initial demo) []
           {| page_id := "p1"; page_name := "Accueil";
              blocks := [ {| block_id := "b1"; block_type := "radio";
                             block_name := "q1"; displayCondition := None;
                             block_action := None |} ] |}
           [ {| page_id := "p2"; page_name := "Offre";
                blocks := [ {| block_id := "b2"; block_type := "text";
                               block_name := "t1";
                               displayCondition :=
                                 Some {| blockName := Some "q1"; value := str "yes" |};
                               block_action := None |} ] |};
             {| page_id := "p3"; page_name := "Fin"; blocks := [] |} ]).
  - unfold page_ids. simpl. repeat constructor; rewrite ?list_elem_of_In; simpl;
      intuition discriminate.
  - reflexivity.
  - reflexivity.
Defined.

(** *** Answers and the conditions that read them *)

Lemma checkCondition_stored values (name : string) (v : Value) :
  name ≠ "" →
  checkCondition (on name v) values
  = match get values name with
    | VArr items => includes items v
    | VPrim p => strict_eq p v
    | VInherited key => same_object key v
    end.
Proof. intros Hne. simpl. by destruct (String.eqb_spec name ""). Qed.

(** X5.  After a value field has recorded the text [s] under a non-empty
    block name, a condition on that block holds exactly when its value is
    the string [s]: the answer just given shows the blocks that wait for it
    and hides the blocks that wait for any other value. *)
Theorem answer_decides_condition st (name s : string) (v : Value) :
  name ≠ "" →
  checkCondition (on name v) (formValues (handleValueChange name (str s) st)) = true
  ↔ v = str s.
Proof.
  intros Hne. rewrite checkCondition_stored by done.
  rewrite get_handleValueChange. unfold str. rewrite strict_eq_true.
  split; [by intros [-> _] | by intros ->].
Qed.

Lemma answer_decides_condition_witness :
  checkCondition (on "q1" (str "yes"))
    (formValues (handleValueChange "q1" (str "yes") (initial demo))) = true
  ↔ str "yes" = str "yes".
Proof. by apply (answer_decides_condition (initial demo) "q1" "yes"). Defined.

(** X6.  After a check box change that did not throw, a condition on the
    ticked option holds if the box was checked and fails if it was
    unchecked, whatever the list held before. *)
Theorem tick_decides_condition st st' (name option : string) (checked : bool) :
  name ≠ "" →
  handleCheckboxChange name option checked st = Done st' →
  checkCondition (on name (str option)) (formValues st') = checked.
Proof.
  intros Hne. unfold handleCheckboxChange.
  destruct checked.
  - destruct (spread _) as [items |]; [| discriminate]. intros [= <-].
    rewrite checkCondition_stored by done. simpl.
    unfold get. rewrite lookup_insert_eq. simpl.
    apply includes_true. exists (PStr option). split; [| done].
    apply elem_of_app. right. by left.
  - destruct (or_else _ _) as [p | items | key]; [discriminate | | discriminate].
    intros [= <-].
    rewrite checkCondition_stored by done. simpl.
    unfold get. rewrite lookup_insert_eq. simpl.
    apply Bool.not_true_iff_false. rewrite includes_true.
    intros (item & Hin & [= <-]).
    apply list_elem_of_In, filter_In in Hin as [_ Hd].
    apply differs_true in Hd. done.
Qed.

Lemma tick_decides_condition_witness :
  checkCondition (on "opts" (str "B"))
    (formValues (handleValueChange "opts" (VArr [PStr "A"; PStr "B"]) (initial demo)))
  = true.
Proof.
  apply (tick_decides_condition
           (handleValueChange "opts" (arr ["A"]) (initial demo))
           _ "opts" "B" true); [discriminate | reflexivity].
Defined.

(** X7.  Recording an answer touches one block name only: the page pointer
    stays, the answers stored under other names stay, and so does every
    condition that reads another block (or no block). *)
Theorem answers_are_local st st' (name : string) :
  (∃ v, st' = handleValueChange name v st)
  ∨ (∃ option checked, handleCheckboxChange name option checked st = Done st') →
  currentPageId st' = currentPageId st
  ∧ (∀ other, other ≠ name → formValues st' !! other = formValues st !! other)
  ∧ (∀ condition,
       (∀ c, condition = Some c → blockName c ≠ Some name) →
       checkCondition condition (formValues st')
       = checkCondition condition (formValues st)).
Proof.
  intros Hstep.
  assert (Hframe : currentPageId st' = currentPageId st
            ∧ ∀ other, other ≠ name →
                formValues st' !! other = formValues st !! other).
  { destruct Hstep as [[v ->] | (option & checked & Hrun)].
    - split; [done |]. intros other Hother. simpl. by rewrite lookup_insert_ne.
    - revert Hrun. unfold handleCheckboxChange.
      destruct checked;
        [destruct (spread _) | destruct (or_else _ _)]; try discriminate;
        intros [= <-]; (split; [done |]); intros other Hother; simpl;
        by rewrite lookup_insert_ne. }
  destruct Hframe as [Hpage Hother]. split; [done |]. split; [done |].
  intros [[[other |] v] |] Hcond; simpl; try done.
  destruct (String.eqb other ""); [done |].
  unfold get. rewrite Hother; [done |].
  intros ->. by apply (Hcond _ eq_refl).
Qed.

Lemma answers_are_local_witness :
  currentPageId (handleValueChange "q1" (str "no") (initial demo))
  = currentPageId (initial demo)
  ∧ (∀ other, other ≠ "q1" →
       formValues (handleValueChange "q1" (str "no") (initial demo)) !! other
       = formValues (initial demo) !! other)
  ∧ (∀ condition,
       (∀ c, condition = Some c → blockName c ≠ Some "q1") →
       checkCondition condition
         (formValues (handleValueChange "q1" (str "no") (initial demo)))
       = checkCondition condition (formValues (initial demo))).
Proof.
  apply (answers_are_local (initial demo) _ "q1"). left. by exists (str "no").
Defined.

Lemma tick_throws_by_value st (name option : string) (checked : bool) :
  handleCheckboxChange name option checked st = TypeError
  ↔ match get (formValues st) name with
    | VArr _ => False
    | VPrim p =>
        truthy (VPrim p) = true
        ∧ (checked = true → ∀ s, p ≠ PStr s)
    | VInherited _ => True
    end.
Proof.
  unfold handleCheckboxChange, or_else.
  destruct (get (formValues st) name) as [p | items | key] eqn:Hget.
  - destruct (truthy (VPrim p)) eqn:Htruthy.
    + destruct checked; simpl.
      * destruct p as [| | b | n | s]; simpl;
          try (split; [intros _; split; [done | intros _ ?; discriminate]
                      | done]).
        split; [discriminate |]. intros [_ Hs]. by destruct (Hs eq_refl s).
      * split; [by intros _; split | done].
    + destruct checked; simpl; (split; [discriminate | by intros [? _]]).
  - destruct checked; simpl; by split.
  - destruct checked; simpl; by split.
Qed.

(** X8.  A check box change throws exactly in these cases: the answer
    stored under the block name is a truthy primitive and, for a check, is
    not a string (a string is spread into its characters by a check, and an
    uncheck throws on it); the answer stored is an inherited member; no
    answer is stored and the block name is one that the answers inherit a
    member under ("constructor", "toString", ...).  With a list or a falsy
    value stored, or with no answer under any other name, it never
    throws. *)
Theorem tick_throws_iff st (name option : string) (checked : bool) :
  handleCheckboxChange name option checked st = TypeError
  ↔ match formValues st !! name with
    | Some (VArr _) => False
    | Some (VPrim p) =>
        truthy (VPrim p) = true
        ∧ (checked = true → ∀ s, p ≠ PStr s)
    | Some (VInherited _) => True
    | None => name ∈ inherited
    end.
Proof.
  rewrite tick_throws_by_value.
  destruct (formValues st !! name) as [v |] eqn:Hstored.
  - rewrite (get_stored _ _ _ Hstored). by destruct v.
  - destruct (decide (name ∈ inherited)) as [Hin | Hout].
    + rewrite (get_inherited _ _ Hstored Hin). tauto.
    + rewrite (get_unwritten _ _ Hstored Hout). simpl. split; [| done].
      by intros [? _].
Qed.

Example tick_on_inherited_names :
  Forall (λ name,
      handleCheckboxChange name "A" true
        {| formValues := ∅; currentPageId := "p1" |} = TypeError
      ∧ handleCheckboxChange name "A" false
          {| formValues := ∅; currentPageId := "p1" |} = TypeError)
    ["constructor"; "toString"; "__proto__"]
  ∧ handleCheckboxChange "opts" "A" true
      {| formValues := ∅; currentPageId := "p1" |}
    = Done {| formValues := {[ "opts" := arr ["A"] ]}; currentPageId := "p1" |}.
Proof. split; [by repeat constructor |]. reflexivity. Qed.

(** X9.  Checking an option that the stored list does not hold and then
    unchecking it gives back the state before. *)
Theorem check_uncheck_round_trip st (name option : string) items :
  formValues st !! name = Some (VArr items) →
  PStr option ∉ items →
  and_then (handleCheckboxChange name option true st)
    (handleCheckboxChange name option false)
  = Done st.
Proof.
  intros Hstored Hfresh.
  assert (Hget : get (formValues st) name = VArr items).
  { unfold get. by rewrite Hstored. }
  rewrite (check_array st name option items) by (by apply existing_array).
  cbn [and_then].
  rewrite (uncheck_array _ name option (items ++ [PStr option]))
    by (rewrite get_handleValueChange; reflexivity).
  f_equal. rewrite List.filter_app. simpl.
  assert (differs option (PStr option) = false) as ->.
  { apply Bool.not_true_iff_false. rewrite differs_true. tauto. }
  rewrite app_nil_r.
  assert (List.filter (differs option) items = items) as ->.
  { clear -Hfresh. induction items as [| item items IH]; [done |].
    apply not_elem_of_cons in Hfresh as [Hne Hrest]. simpl.
    assert (differs option item = true) as -> by (apply differs_true; congruence).
    by rewrite IH. }
  destruct st as [values page]. unfold handleValueChange. simpl in *.
  f_equal. rewrite insert_insert_eq. by apply insert_id.
Qed.

Lemma check_uncheck_round_trip_witness :
  and_then
    (handleCheckboxChange "opts" "B" true
       (handleValueChange "opts" (arr ["A"]) (initial demo)))
    (handleCheckboxChange "opts" "B" false)
  = Done (handleValueChange "opts" (arr ["A"]) (initial demo)).
Proof.
  apply (check_uncheck_round_trip _ "opts" "B" [PStr "A"]); [reflexivity |].
  rewrite list_elem_of_In. simpl. intros [H | []]. discriminate.
Defined.

(** *** Inputs on the screen *)

Lemma on_screen_in_script script st block :
  on_screen script st block = true → block ∈ all_blocks script.
Proof.
  unfold on_screen, render, currentPage. intros Hon.
  apply bool_decide_eq_true in Hon. simpl in Hon.
  destruct (List.find _ _) as [p |] eqn:Hfind; [| by apply elem_of_nil in Hon].
  apply list_elem_of_In, filter_In in Hon as [Hin _].
  apply find_some in Hfind as [Hp _].
  unfold all_blocks. apply list_elem_of_In, in_concat. exists (blocks p).
  split; [| done]. apply list_elem_of_In, list_elem_of_fmap_2.
  by apply list_elem_of_In.
Qed.

Lemma filter_strings (f : Prim → bool) (options : list string) :
  List.filter f (PStr <$> options)
  = PStr <$> List.filter (λ o, f (PStr o)) options.
Proof.
  induction options as [| o options IH]; [done |].
  rewrite fmap_cons. cbn [List.filter].
  destruct (f (PStr o)); rewrite ?fmap_cons, IH; done.
Qed.

Lemma kinded_insert script values (name : string) (v : Value) :
  kinded script values →
  (∃ s b, v = str s ∧ b ∈ all_blocks script ∧ takes_value b
          ∧ block_name b = name)
  ∨ (∃ options b, v = arr options ∧ b ∈ all_blocks script
                  ∧ renderBlock b = CheckboxGroup ∧ block_name b = name) →
  kinded script (<[name := v]> values).
Proof.
  intros Hk Hv other w Hlook.
  destruct (decide (name = other)) as [<- | Hne].
  - rewrite lookup_insert_eq in Hlook. by injection Hlook as <-.
  - rewrite lookup_insert_ne in Hlook by done. by apply Hk.
Qed.

Lemma handler_keeps_kinds script block (input : UserInput) st :
  own_names script → names_apart script → buttons_wired script →
  block ∈ all_blocks script →
  kinded script (formValues st) →
  ∃ st' said,
    handler script block input st = Done (st', said)
    ∧ kinded script (formValues st').
Proof.
  intros Hown Hapart Hwired Hin Hk. unfold handler.
  assert (Hvalue : takes_value block → ∀ text,
            kinded script (formValues (handleValueChange (block_name block)
                                         (str text) st))).
  { intros Htakes text. apply kinded_insert; [done |]. left. by exists text, block. }
  destruct (renderBlock block) eqn:Hkind, input as [text | option checked |];
    try (by eauto);
    try (do 2 eexists; split; [reflexivity |]; apply Hvalue;
         unfold takes_value; tauto).
  - assert (Hex : ∃ options,
              or_else (get (formValues st) (block_name block)) (VArr [])
              = arr options).
    { destruct (formValues st !! block_name block) as [v |] eqn:Hv.
      - rewrite (get_stored _ _ _ Hv).
        destruct (Hk _ _ Hv) as [(s & b & -> & Hb & Htakes & Hname)
                                | (options & b & -> & _)].
        + by destruct (Hapart block b Hin Hb Hkind Htakes).
        + by exists options.
      - rewrite (get_unwritten _ _ Hv (Hown block Hin Hkind)). by exists []. }
    destruct Hex as [options Hex]. unfold handleCheckboxChange. rewrite Hex.
    destruct checked; simpl; do 2 eexists; (split; [reflexivity |]); simpl;
      apply kinded_insert; try done; right.
    + exists (options ++ [option]), block. unfold arr.
      by rewrite fmap_app.
    + exists (List.filter (λ o, differs option (PStr o)) options), block.
      unfold arr. by rewrite filter_strings.
  - destruct (Hwired block Hin Hkind) as [action ->].
    destruct (handleButtonClick_total script action st)
      as (st' & said & -> & Hvalues & _).
    exists st', said. split; [done |]. by rewrite Hvalues.
Qed.

(** X10.  In a script where no check box group is named as a member that
    the answers inherit ("constructor", "toString", ...), no name is shared
    by a check box group and a value field, and every button has an action,
    no sequence of inputs on the screen ever throws, and the answers always
    hold a string under the name of a value field and a list of options
    under the name of a check box group. *)
Theorem play_never_throws script (inputs : list (ScriptBlock * UserInput)) :
  own_names script →
  names_apart script →
  buttons_wired script →
  ∃ st' said,
    play script inputs (initial script) = Done (st', said)
    ∧ kinded script (formValues st').
Proof.
  intros Hown Hapart Hwired.
  assert (Hgen : ∀ st, kinded script (formValues st) →
            ∃ st' said,
              play script inputs st = Done (st', said)
              ∧ kinded script (formValues st')).
  { induction inputs as [| [block input] rest IH]; intros st Hk;
      [by exists st, [] |].
    assert (Hstep : ∃ st1 said1,
              interact script block input st = Done (st1, said1)
              ∧ kinded script (formValues st1)).
    { unfold interact. destruct (on_screen script st block) eqn:Hon;
        [| by exists st, []].
      apply handler_keeps_kinds; try done. by eapply on_screen_in_script. }
    destruct Hstep as (st1 & said1 & Hrun1 & Hk1).
    destruct (IH st1 Hk1) as (st2 & said2 & Hrun2 & Hk2).
    exists st2, (said1 ++ said2). split; [| done].
    simpl. rewrite Hrun1. simpl. by rewrite Hrun2. }
  apply Hgen. intros name v Hlook. simpl in Hlook.
  by rewrite lookup_empty in Hlook.
Qed.

Lemma play_never_throws_witness :
  ∃ st' said,
    play survey
      [ ({| block_id := "b1"; block_type := "checkbox"; block_name := "opts";
            displayCondition := None; block_action := None |}, Tick "A" true);
        ({| block_id := "b2"; block_type := "input"; block_name := "q1";
            displayCondition := None; block_action := None |}, Enter "oui");
        ({| block_id := "b1"; block_type := "checkbox"; block_name := "opts";
            displayCondition := None; block_action := None |}, Tick "A" false);
        ({| block_id := "b3"; block_type := "button"; block_name := "go";
            displayCondition := None; block_action := Some next |}, Press) ]
      (initial survey) = Done (st', said)
    ∧ kinded survey (formValues st').
Proof.
  apply (play_never_throws survey).
  - intros b Hb Hbox. unfold all_blocks in *.
    rewrite list_elem_of_In in Hb. simpl in Hb.
    destruct Hb as [<- | [<- | [<- | []]]]; try discriminate.
    rewrite list_elem_of_In. simpl. intuition discriminate.
  - intros b1 b2 H1 H2 Hbox Htakes. unfold all_blocks in *.
    rewrite list_elem_of_In in H1, H2. simpl in H1, H2.
    destruct H1 as [<- | [<- | [<- | []]]]; try discriminate;
      destruct H2 as [<- | [<- | [<- | []]]]; try discriminate;
      destruct Htakes as [? | [? | ?]]; discriminate.
  - intros b Hb Hbutton. unfold all_blocks in *.
    rewrite list_elem_of_In in Hb. simpl in Hb.
    destruct Hb as [<- | [<- | [<- | []]]]; try discriminate. by eexists.
Defined.

Example play_survey :
  play survey
    [ ({| block_id := "b1"; block_type := "checkbox"; block_name := "opts";
          displayCondition := None; block_action := None |}, Tick "A" true);
      ({| block_id := "b3"; block_type := "button"; block_name := "go";
          displayCondition := None; block_action := Some next |}, Press);
      ({| block_id := "b2"; block_type := "input"; block_name := "q1";
          displayCondition := None; block_action := None |}, Enter "late") ]
    (initial survey)
  = Done ({| formValues := {[ "opts" := arr ["A"] ]}; currentPageId := "p2" |}, []).
Proof. by vm_compute. Qed.

(** The first tick of a check box group named "constructor" throws, in a
    script that shares no name and has no button. *)
Example inherited_name_box_throws :
  names_apart constructor_survey
  ∧ buttons_wired constructor_survey
  ∧ play constructor_survey [(constructor_box, Tick "A" true)]
      (initial constructor_survey) = TypeError.
Proof.
  assert (Hblocks : ∀ b, b ∈ all_blocks constructor_survey → b = constructor_box).
  { intros b Hb. unfold all_blocks in Hb. rewrite list_elem_of_In in Hb.
    simpl in Hb. by destruct Hb as [<- | []]. }
  split; [| split].
  - intros b1 b2 _ H2 _ Htakes. apply Hblocks in H2 as ->.
    destruct Htakes as [? | [? | ?]]; discriminate.
  - intros b Hb Hbutton. apply Hblocks in Hb as ->. discriminate.
  - by vm_compute.
Qed.

(** A button whose content has no action throws when it is pressed. *)
Example unwired_button_throws :
  handler survey
    {| block_id := "b4"; block_type := "button"; block_name := "stop";
       displayCondition := None; block_action := None |} Press (initial survey)
  = TypeError.
Proof. reflexivity. Qed.

End PreviewFacts.

(** * More properties of the agent call session *)

Section ConsoleFacts.

Import Session Console.

Implicit Types (w : World) (v : View) (t : Timeout) (l : list Timeout)
  (a : User) (cs : list Campaign).

Lemma reachable_props a cs w :
  reachable a cs w → agent w = a ∧ campaigns w = cs.
Proof.
  induction 1 as [| e w _ [IHa IHc]]; [done |].
  by destruct (step_frame e w) as [-> ->].
Qed.

(** What a second does to a mounted component. *)
Lemma second_view w v :
  settled w → mounted w = Some v →
  (mounted (second w) = Some v ∧ ctiStatus v = LOGGED_OUT)
  ∨ (mounted (second w) = Some (tick v) ∧ ctiStatus v ≠ LOGGED_OUT)
  ∨ (mounted (second w) = Some available ∧ ctiStatus v = WRAP_UP
     ∧ statusTimer v + 1 = wrapUpDelay).
Proof.
  intros Hw Hm. destruct (decide (ctiStatus v = WRAP_UP)) as [Hv | Hv].
  - destruct (second_in_wrap_up w v Hw Hm Hv) as (_ & _ & ->).
    destruct (decide (statusTimer v + 1 = wrapUpDelay)); [by right; right |].
    right; left. split; [done |]. by rewrite Hv.
  - destruct (second_outside_wrap_up w v Hw Hm Hv) as (_ & _ & ->).
    destruct (ctiStatus v) eqn:Hs; try (by right; left); by left.
Qed.

(** What a click does to a mounted component. *)
Lemma click_view (b : Button) w v :
  mounted w = Some v →
  ∃ v',
    mounted (click b w) = Some v'
    ∧ (v' = v
       ∨ (edge (ctiStatus v) (Click b) (ctiStatus v') = true
          ∧ statusTimer v' = 0
          ∧ match b with
            | NextCall =>
                ∃ c next,
                  agentCampaign (agent w) (campaigns w) = Some c
                  ∧ List.find pending (contacts c) = Some next
                  ∧ currentContact v' = Some next
            | _ => currentContact v' = currentContact v
            end)).
Proof.
  intros Hm. unfold click, commit. rewrite Hm.
  destruct (shown (ctiStatus v) b) eqn:Hshown; [| by eauto].
  destruct v as [s k c]; simpl in *.
  destruct s, b; try discriminate; simpl; try (by eauto 8).
  unfold handleNextCall.
  destruct (agentCampaign (agent w) (campaigns w)) as [cmp |]; [| by eauto].
  destruct (List.find pending (contacts cmp)) as [next |] eqn:Hfind; simpl.
  - eexists. split; [done |]. right. repeat split. by exists cmp, next.
  - by eauto.
Qed.

(** X11.  The status of a mounted session changes only along six edges:
    logged-out to waiting by the start button, waiting to in-call by the
    next-call button, waiting to paused and back by the pause and resume
    buttons, in-call to wrap-up by the hang-up button, wrap-up to waiting
    by the passing of a second.  In particular no session returns to
    logged-out, and nothing but time ends a wrap-up. *)
Theorem status_changes_along_edges a cs w (e : Event) v v' :
  reachable a cs w →
  mounted w = Some v →
  mounted (step e w) = Some v' →
  ctiStatus v' ≠ ctiStatus v →
  edge (ctiStatus v) e (ctiStatus v') = true.
Proof.
  intros Hw Hm Hm' Hchange. apply reachable_settled in Hw.
  destruct e as [| | b |]; cbn [step] in Hm'.
  - unfold mount in Hm'. rewrite Hm in Hm'. congruence.
  - discriminate.
  - destruct (click_view b w v Hm) as (v1 & Hv1 & [-> | (Hedge & _)]);
      rewrite Hv1 in Hm'; injection Hm' as <-; done.
  - destruct (second_view w v Hw Hm)
      as [[Hs _] | [[Hs _] | (Hs & Hv & _)]];
      rewrite Hs in Hm'; injection Hm' as <-; try done.
    by rewrite Hv.
Qed.

Lemma status_changes_along_edges_witness :
  edge WAITING (Click NextCall) IN_CALL = true.
Proof.
  apply (status_changes_along_edges demo_agent demo_campaigns waiting_room
           (Click NextCall) available
           {| ctiStatus := IN_CALL; statusTimer := 0;
              currentContact := Some (contact "2" "pending") |}).
  - apply reachable_run. constructor.
  - reflexivity.
  - reflexivity.
  - discriminate.
Defined.

Lemma contact_in_hand_inv a cs w :
  reachable a cs w → holding w.
Proof.
  induction 1 as [| e w Hw IH]; [done |].
  apply reachable_settled in Hw. unfold holding in *.
  destruct (step_frame e w) as [-> ->].
  destruct (mounted w) as [v |] eqn:Hm.
  - destruct e as [| | b |]; cbn [step].
    + unfold mount. by rewrite Hm, Hm.
    + done.
    + destruct (click_view b w v Hm) as (v' & -> & [-> | (Hedge & _ & Hc)]);
        [done |].
      revert IH Hedge Hc.
      destruct (ctiStatus v), b, (ctiStatus v'); simpl; intros IH Hedge Hc;
        try discriminate; try done; try congruence.
      destruct IH as (c & next & ? & ? & ?). exists c, next.
      repeat split; congruence.
    + destruct (second_view w v Hw Hm)
        as [[-> _] | [[-> _] | (-> & _)]]; done.
  - destruct e as [| | b |]; cbn [step].
    + unfold mount. by rewrite Hm.
    + done.
    + unfold click. by rewrite Hm, Hm.
    + by destruct (second_unmounted w Hm) as [-> _].
Qed.

(** X12.  In every world an agent can bring about, the session holds a
    contact exactly during a call and its wrap-up, and that contact is the
    first pending contact of the agent's active campaign: with the view [v]
    mounted, the contact is [None] when the status is logged-out, waiting or
    paused, and otherwise it is what [find] returns on the contacts of the
    campaign [agentCampaign] selects. *)
Theorem contact_in_hand a cs w v :
  reachable a cs w →
  mounted w = Some v →
  match ctiStatus v with
  | IN_CALL | WRAP_UP =>
      ∃ c next,
        agentCampaign a cs = Some c
        ∧ List.find pending (contacts c) = Some next
        ∧ currentContact v = Some next
  | _ => currentContact v = None
  end.
Proof.
  intros Hw Hm. pose proof (contact_in_hand_inv a cs w Hw) as Hhold.
  destruct (reachable_props a cs w Hw) as [Ha Hcs].
  unfold holding in Hhold. by rewrite Hm, Ha, Hcs in Hhold.
Qed.

Lemma contact_in_hand_witness :
  ∃ c next,
    agentCampaign demo_agent demo_campaigns = Some c
    ∧ List.find pending (contacts c) = Some next
    ∧ currentContact
        {| ctiStatus := WRAP_UP; statusTimer := 1;
           currentContact := Some (contact "2" "pending") |}
      = Some next.
Proof.
  apply (contact_in_hand demo_agent demo_campaigns
           (run [Click NextCall; Second; Click HangUp; Second] waiting_room)
           {| ctiStatus := WRAP_UP; statusTimer := 1;
              currentContact := Some (contact "2" "pending") |}).
  - do 2 apply reachable_run. constructor.
  - reflexivity.
Defined.

(** *** The wrap-up cannot be cut short *)

Lemma click_in_wrap_up (b : Button) w v :
  mounted w = Some v → ctiStatus v = WRAP_UP → click b w = w.
Proof. intros Hm Hv. unfold click. rewrite Hm, Hv. by destruct b. Qed.

Lemma wrap_up_holds (events : list Event) w v :
  settled w → mounted w = Some v → ctiStatus v = WRAP_UP →
  forallb (λ e, negb (is_logout e)) events = true →
  statusTimer v + length (List.filter is_second events) < wrapUpDelay →
  settled (run events w)
  ∧ mounted (run events w)
    = Some {| ctiStatus := WRAP_UP;
              statusTimer := statusTimer v + length (List.filter is_second events);
              currentContact := currentContact v |}.
Proof.
  revert w v. induction events as [| e events IH]; intros w v Hw Hm Hv Hstay Hk.
  - simpl. rewrite Nat.add_0_r. split; [done |]. rewrite Hm.
    by destruct v; simpl in *; subst.
  - rewrite run_cons. simpl in Hstay. apply andb_prop in Hstay as [He Hstay].
    destruct e as [| | b |]; try discriminate; cbn [step].
    + unfold mount. rewrite Hm. by apply IH.
    + rewrite (click_in_wrap_up b w v Hm Hv). by apply IH.
    + simpl in Hk. destruct (second_in_wrap_up w v Hw Hm Hv) as (_ & _ & Hm').
      destruct (decide (statusTimer v + 1 = wrapUpDelay)) as [? | _]; [lia |].
      destruct (IH (second w) (tick v)) as [Hw' ->]; simpl; try done.
      * by apply settled_second.
      * lia.
      * split; [done |]. simpl. do 2 f_equal. lia.
Qed.

(** X13.  Nothing the agent does in the console shortens or extends a
    wrap-up.  After the hang-up, whatever buttons are clicked while fewer
    than ten seconds have passed, the session is still in wrap-up, its
    counter shows the seconds passed and the contact is kept; the second
    that completes the ten returns the session to waiting, with no contact
    and the counter at zero.  (Only a logout is excluded.) *)
Theorem wrap_up_ignores_clicks a cs w v (events : list Event) :
  reachable a cs w →
  mounted w = Some v →
  ctiStatus v = IN_CALL →
  forallb (λ e, negb (is_logout e)) events = true →
  (length (List.filter is_second events) < wrapUpDelay →
   mounted (run (Click HangUp :: events) w)
   = Some {| ctiStatus := WRAP_UP;
             statusTimer := length (List.filter is_second events);
             currentContact := currentContact v |})
  ∧ (length (List.filter is_second events) + 1 = wrapUpDelay →
     mounted (run (Click HangUp :: events ++ [Second]) w) = Some available).
Proof.
  intros Hw Hm Hv Hstay. apply reachable_settled in Hw.
  assert (Hup : mounted (click HangUp w) = Some (handleEndCall v)).
  { unfold click. by rewrite Hm, Hv. }
  pose proof (settled_click HangUp w Hw) as Hw'.
  assert (Hhold : length (List.filter is_second events) < wrapUpDelay →
            settled (run events (click HangUp w))
            ∧ mounted (run events (click HangUp w))
              = Some {| ctiStatus := WRAP_UP;
                        statusTimer := length (List.filter is_second events);
                        currentContact := currentContact v |}).
  { intros Hk. by apply (wrap_up_holds events _ _ Hw' Hup). }
  split.
  - intros Hk. rewrite run_cons. cbn [step]. by apply Hhold.
  - intros Hk. rewrite run_cons, run_app. cbn [step].
    destruct Hhold as [Hw2 Hm2]; [lia |].
    change (run [Second] (run events (click HangUp w)))
      with (second (run events (click HangUp w))).
    destruct (second_in_wrap_up _ _ Hw2 Hm2 eq_refl) as (_ & _ & ->).
    simpl. by destruct (decide (_ = _)).
Qed.

Lemma wrap_up_ignores_clicks_witness :
  mounted (run (Click HangUp ::
                [Second; Click NextCall; Second; Click Pause; AppLogin; Second])
             (click NextCall waiting_room))
  = Some {| ctiStatus := WRAP_UP; statusTimer := 3;
            currentContact := Some (contact "2" "pending") |}.
Proof.
  refine (proj1 (wrap_up_ignores_clicks demo_agent demo_campaigns
                   (click NextCall waiting_room)
                   {| ctiStatus := IN_CALL; statusTimer := 0;
                      currentContact := Some (contact "2" "pending") |}
                   [Second; Click NextCall; Second; Click Pause; AppLogin; Second]
                   _ _ _ _) _).
  - apply (reach_step _ _ (Click NextCall)). apply reachable_run. constructor.
  - reflexivity.
  - reflexivity.
  - reflexivity.
  - simpl. unfold wrapUpDelay. lia.
Defined.

(** *** The alert of the empty queue *)

Lemma fold_fire_log l w (x : Notice) :
  x ∈ log (foldl (λ acc t, fire t acc) w l) →
  x ∈ log w ∨ ∃ o b, x = WrapUpFired o b.
Proof.
  revert w. induction l as [| t l IH]; intros w; simpl; [by left |].
  intros Hx. destruct (IH _ Hx) as [Hin | ?]; [| by right].
  revert Hin. unfold fire.
  destruct (mounted w) as [v |]; simpl.
  - destruct (owner t =? instance w);
      match goal with
      | |- _ ∈ log (commit ?s ?y ?extra ?said w) → _ =>
          destruct (commit_frame s y extra said w) as (_ & _ & _ & _ & ->)
      end;
      rewrite elem_of_app, list_elem_of_singleton; intros [? | ->]; eauto.
  - rewrite elem_of_app, list_elem_of_singleton. intros [? | ->]; eauto.
Qed.

Lemma second_log w (x : Notice) :
  x ∈ log (second w) → x ∈ log w ∨ ∃ o b, x = WrapUpFired o b.
Proof.
  unfold second.
  destruct (beat_frame (foldl (λ acc t, fire t acc) (elapse w) (expired w)))
    as (_ & _ & _ & _ & ->).
  intros Hx. by apply fold_fire_log in Hx.
Qed.

(** The log of a reachable world holds the alert only when the queue of
    the agent's campaign is empty. *)
Lemma alerted_on_empty_inv a cs w :
  reachable a cs w → alerted_on_empty w.
Proof.
  induction 1 as [| e w Hw IH]; [by intros Hx; apply elem_of_nil in Hx |].
  unfold alerted_on_empty in *. destruct (step_frame e w) as [-> ->].
  destruct e as [| | b |]; cbn [step].
  - unfold mount. by destruct (mounted w).
  - done.
  - unfold click. destruct (mounted w) as [v |]; [| done].
    destruct (shown (ctiStatus v) b); [| done].
    destruct b;
      try (match goal with
           | |- _ ∈ log (commit ?s ?y ?extra ?said w) → _ =>
               destruct (commit_frame s y extra said w) as (_ & _ & _ & _ & ->)
           end; by rewrite app_nil_r).
    unfold handleNextCall.
    destruct (agentCampaign (agent w) (campaigns w)) as [c |] eqn:Hc;
      [destruct (List.find pending (contacts c)) as [next |] eqn:Hfind |];
      match goal with
      | |- _ ∈ log (commit ?s ?y ?extra ?said w) → _ =>
          destruct (commit_frame s y extra said w) as (_ & _ & _ & _ & ->)
      end; rewrite ?app_nil_r; try done.
    intros _. by exists c.
  - intros Hx. apply second_log in Hx as [Hx | (o & b & ?)]; [by apply IH | done].
Qed.

(** X14.  The "no more contacts" alert is raised only on an empty queue:
    if it was ever shown, the agent has an active campaign and that
    campaign has no pending contact.  An agent without a campaign, or with a
    pending contact left, never sees it. *)
Theorem alert_only_on_empty_queue a cs w :
  reachable a cs w →
  NoMoreContacts ∈ log w →
  ∃ c, agentCampaign a cs = Some c ∧ List.find pending (contacts c) = None.
Proof.
  intros Hw Hlog. destruct (reachable_props a cs w Hw) as [<- <-].
  by apply (alerted_on_empty_inv (agent w) (campaigns w) w).
Qed.

(** A request for the next call in a campaign whose contacts are all
    called: the alert is in the log. *)
Lemma alert_only_on_empty_queue_witness :
  NoMoreContacts ∈ log empty_queue
  ∧ ∃ c, agentCampaign demo_agent called_out = Some c
         ∧ List.find pending (contacts c) = None.
Proof.
  assert (Hlog : NoMoreContacts ∈ log empty_queue) by (vm_compute; by left).
  split; [exact Hlog |].
  apply (alert_only_on_empty_queue demo_agent called_out empty_queue);
    [| exact Hlog].
  apply reachable_run. constructor.
Defined.

Example alert_raised_on_empty_queue :
  log empty_queue = [NoMoreContacts]
  ∧ log (run [Click NextCall] waiting_room) = []
  ∧ log (run [Click NextCall] lonely_room) = [].
Proof. by vm_compute. Qed.

(** *** Pending timeouts *)

Lemma owners_filter (f : Timeout → bool) l :
  NoDup (owner <$> l) → NoDup (owner <$> List.filter f l).
Proof.
  induction l as [| t l IH]; [done |]. rewrite fmap_cons, NoDup_cons.
  intros [Hnot Hrest]. simpl. destruct (f t); [| by apply IH].
  rewrite fmap_cons. apply NoDup_cons. split; [| by apply IH].
  intros Hin. apply Hnot. apply list_elem_of_fmap in Hin as (t' & -> & Ht').
  apply list_elem_of_fmap_2. by apply elem_of_filter_bool in Ht' as [? _].
Qed.

Lemma owners_age l : owner <$> (age <$> l) = owner <$> l.
Proof. induction l as [| t l IH]; [done |]. by rewrite !fmap_cons, IH. Qed.

Lemma tidy_step (e : Event) w : settled w → tidy w → tidy (step e w).
Proof.
  intros Hw Htidy. pose proof Htidy as (Hnodup & Hall & Hinst).
  destruct e as [| | b |]; cbn [step].
  - unfold mount. destruct (mounted w) eqn:Hm; [done |].
    repeat split; simpl; try done. intros _. lia.
  - repeat split; simpl; try done.
  - unfold click. destruct (mounted w) as [v |] eqn:Hm; [| done].
    destruct (shown (ctiStatus v) b) eqn:Hshown; [| done].
    assert (Hsame : ∀ s y said,
              tidy (commit s y [] said w)).
    { intros s y said. unfold tidy.
      destruct (commit_frame s y [] said w) as (_ & _ & -> & -> & _).
      rewrite app_nil_r. repeat split; try done. intros _. by apply Hinst. }
    destruct b; try apply Hsame.
    + by destruct (handleNextCall _ v).
    + destruct (ctiStatus v) eqn:Hv; try discriminate.
      destruct Hw as [_ Hst]. rewrite Hm, Hv in Hst.
      destruct Hst as (_ & _ & Hstale). unfold tidy.
      destruct (commit_frame IN_CALL (handleEndCall v)
                  [{| owner := instance w; remaining := wrapUpDelay |}] [] w)
        as (_ & _ & -> & -> & _).
      split; [| split].
      * rewrite fmap_app. apply NoDup_app. split; [done |]. split.
        -- intros o Ho Hin. simpl in Hin. apply list_elem_of_singleton in Hin as ->.
           apply list_elem_of_fmap in Ho as (t & Ht & Hin).
           rewrite Forall_forall in Hstale. by apply (Hstale t Hin).
        -- simpl. apply NoDup_singleton.
      * apply Forall_app. split; [done |]. constructor; [| done]. simpl.
        split; [apply Hinst; by eexists |]. unfold wrapUpDelay. lia.
      * intros _. apply Hinst. by eexists.
  - destruct (second_frame w) as (_ & _ & Hi & Ht). unfold tidy.
    rewrite Hi, Ht. split; [| split].
    + rewrite owners_age. by apply owners_filter.
    + rewrite Forall_forall in *. intros t' Ht'.
      apply list_elem_of_fmap in Ht' as (t & -> & Hin).
      apply elem_of_filter_bool in Hin as [Hin Hd].
      apply Bool.negb_true_iff, Bool.not_true_iff_false in Hd.
      rewrite due_iff in Hd. destruct (Hall t Hin) as (? & ? & ?).
      simpl. unfold wrapUpDelay in *. lia.
    + intros [v' Hm']. apply Hinst.
      destruct (mounted w) as [v |] eqn:Hm; [by eexists |].
      destruct (second_unmounted w Hm) as [Hnone _]. congruence.
Qed.

(** X15.  Wrap-up timeouts do not pile up.  In every world an agent can
    bring about, at most one timeout is pending for each mount of the
    console, every pending timeout belongs to a mount that took place and
    has between one and ten seconds left, and so there are never more
    pending timeouts than sign-ins. *)
Theorem timeouts_do_not_pile_up a cs w :
  reachable a cs w →
  tidy w
  ∧ Forall (λ t, owner t ≤ instance w) (timeouts w)
  ∧ length (timeouts w) ≤ instance w.
Proof.
  intros Hw.
  assert (Htidy : tidy w).
  { induction Hw as [| e w Hw IH]; [by repeat split; try constructor; intros [? ?] |].
    apply tidy_step; [by eapply reachable_settled | done]. }
  split; [done |]. apply reachable_settled in Hw as [Hown _].
  split; [done |]. destruct Htidy as (Hnodup & Hall & _).
  rewrite <- (length_fmap owner).
  transitivity (length (seq 1 (instance w))); [| by rewrite List.length_seq].
  apply NoDup_incl_length; [by apply NoDup_ListNoDup |].
  intros o Ho. apply in_seq. apply list_elem_of_In in Ho.
  apply list_elem_of_fmap in Ho as (t & -> & Hin).
  rewrite Forall_forall in Hown, Hall.
  specialize (Hown t Hin). destruct (Hall t Hin) as [? _]. lia.
Qed.

Lemma timeouts_do_not_pile_up_witness :
  tidy (run [AppLogin; Click StartSession; Click NextCall; Click HangUp]
          left_in_wrap_up)
  ∧ Forall (λ t, owner t
                 ≤ instance (run [AppLogin; Click StartSession; Click NextCall;
                                  Click HangUp] left_in_wrap_up))
      (timeouts (run [AppLogin; Click StartSession; Click NextCall;
                      Click HangUp] left_in_wrap_up))
  ∧ length (timeouts (run [AppLogin; Click StartSession; Click NextCall;
                           Click HangUp] left_in_wrap_up))
    ≤ instance (run [AppLogin; Click StartSession; Click NextCall;
                     Click HangUp] left_in_wrap_up).
Proof.
  apply (timeouts_do_not_pile_up demo_agent demo_campaigns).
  do 3 apply reachable_run. constructor.
Defined.

Example two_timeouts_pending :
  timeouts (run [AppLogin; Click StartSession; Click NextCall; Click HangUp]
              left_in_wrap_up)
  = [ {| owner := 1; remaining := wrapUpDelay |};
      {| owner := 2; remaining := wrapUpDelay |} ].
Proof. reflexivity. Qed.

(** *** The main panel *)

(** X16.  The script of the campaign is on the main panel exactly during
    a call and when the store has the script of the campaign; in every
    other case the panel shows the text of the status.  (The test on the
    current contact in the render never decides: a call always has one.) *)
Theorem preview_only_during_call a cs w
    (savedScripts : list (string * Script.SavedScript)) v :
  reachable a cs w →
  mounted w = Some v →
  mainPanel savedScripts w
  = Some match ctiStatus v,
               agentScript savedScripts (agentCampaign a cs) with
         | IN_CALL, Some script => ScriptPreview script
         | _, _ => StatusLine (statusText (ctiStatus v))
         end.
Proof.
  intros Hw Hm. pose proof (contact_in_hand_inv a cs w Hw) as Hhold.
  destruct (reachable_props a cs w Hw) as [Ha Hcs].
  unfold holding in Hhold. rewrite Hm in Hhold.
  unfold mainPanel. rewrite Hm, Ha, Hcs. f_equal.
  destruct (ctiStatus v) eqn:Hs,
    (agentScript savedScripts (agentCampaign a cs)),
    (currentContact v) eqn:Hc; try done.
  destruct Hhold as (c & next & _ & _ & ?). congruence.
Qed.

Lemma preview_only_during_call_witness :
  mainPanel [("s1", Script.demo)] (click NextCall waiting_room)
  = Some match IN_CALL,
               agentScript [("s1", Script.demo)]
                 (agentCampaign demo_agent demo_campaigns) with
         | IN_CALL, Some script => ScriptPreview script
         | _, _ => StatusLine (statusText IN_CALL)
         end.
Proof.
  apply (preview_only_during_call demo_agent demo_campaigns
           (click NextCall waiting_room) [("s1", Script.demo)]
           {| ctiStatus := IN_CALL; statusTimer := 0;
              currentContact := Some (contact "2" "pending") |}).
  - apply (reach_step _ _ (Click NextCall)). apply reachable_run. constructor.
  - reflexivity.
Defined.

(** *** The duration shown in the footer *)

Lemma pretty_N_go_length (x : N) (s : string) :
  String.length s ≤ String.length (pretty_N_go x s).
Proof.
  revert s. induction (N.lt_wf_0 x) as [x _ IH]; intros s.
  assert (x = 0 ∨ 0 < x)%N as [-> | Hx] by lia; [by rewrite pretty_N_go_0 |].
  rewrite pretty_N_go_step by done.
  etrans; [| apply IH; by apply N.div_lt]. simpl. lia.
Qed.

Lemma pretty_N_go_digit (x : N) (s : string) :
  (0 < x < 10)%N → pretty_N_go x s = String (pretty_N_char x) s.
Proof.
  intros Hx. rewrite pretty_N_go_step by lia.
  rewrite N.div_small, N.mod_small by lia. apply pretty_N_go_0.
Qed.

(** The numeral of a number below ten is one digit, the numeral of a number
    from ten to ninety-nine is two digits that do not start with a zero, and
    a larger number has a longer numeral. *)
Lemma toString_digit (n : nat) :
  n < 10 → toString n = String (pretty_N_char (N.of_nat n)) "".
Proof.
  intros Hn. unfold toString, pretty, pretty_nat, pretty, pretty_N.
  destruct (decide (N.of_nat n = 0%N)) as [-> | Hne]; [done |].
  apply pretty_N_go_digit. lia.
Qed.

Lemma toString_two_digits (n : nat) :
  10 ≤ n < 100 →
  toString n
  = String (pretty_N_char (N.of_nat (n / 10)))
      (String (pretty_N_char (N.of_nat (n mod 10))) "")
  ∧ pretty_N_char (N.of_nat (n / 10)) ≠ "0"%char.
Proof.
  intros Hn. unfold toString, pretty, pretty_nat, pretty, pretty_N.
  destruct (decide (N.of_nat n = 0%N)) as [? | _]; [lia |].
  assert (Hq : (N.of_nat n `div` 10 = N.of_nat (n / 10))%N).
  { by rewrite Nat2N.inj_div. }
  assert (Hr : (N.of_nat n `mod` 10 = N.of_nat (n mod 10))%N).
  { by rewrite Nat2N.inj_mod. }
  assert (Hquot : 1 ≤ n / 10 < 10).
  { split; [apply Nat.div_le_lower_bound | apply Nat.Div0.div_lt_upper_bound]; lia. }
  split.
  - rewrite pretty_N_go_step by lia. rewrite Hq, Hr.
    apply pretty_N_go_digit. lia.
  - intros Hzero. apply (pretty_N_char_inj _ 0%N) in Hzero; lia.
Qed.

Lemma toString_long (n : nat) : 100 ≤ n → 3 ≤ String.length (toString n).
Proof.
  intros Hn. unfold toString, pretty, pretty_nat, pretty, pretty_N.
  destruct (decide (N.of_nat n = 0%N)) as [? | _]; [lia |].
  assert (10 ≤ N.of_nat n `div` 10)%N.
  { apply N.div_le_lower_bound; lia. }
  assert (1 ≤ (N.of_nat n `div` 10) `div` 10)%N.
  { apply N.div_le_lower_bound; lia. }
  rewrite 3!pretty_N_go_step by lia.
  etrans; [| apply pretty_N_go_length]. simpl. lia.
Qed.

Lemma padStart_short (n : nat) :
  n < 10 →
  padStart 2 (toString n) = String "0"%char (String (pretty_N_char (N.of_nat n)) "").
Proof. intros Hn. unfold padStart. by rewrite toString_digit. Qed.

Lemma padStart_two (n : nat) :
  10 ≤ n < 100 → padStart 2 (toString n) = toString n.
Proof.
  intros Hn. unfold padStart.
  by destruct (toString_two_digits n Hn) as [-> _].
Qed.

Lemma padStart_long (n : nat) :
  100 ≤ n → padStart 2 (toString n) = toString n.
Proof.
  intros Hn. unfold padStart. pose proof (toString_long n Hn).
  by replace (2 - String.length (toString n)) with 0 by lia.
Qed.

(** A padded numeral below a hundred is two characters. *)
Lemma padStart_pair (n : nat) :
  n < 100 → ∃ c d, padStart 2 (toString n) = String c (String d "").
Proof.
  intros Hn. destruct (decide (n < 10)).
  - rewrite padStart_short by done. by eauto.
  - rewrite padStart_two by lia.
    destruct (toString_two_digits n) as [-> _]; [lia |]. by eauto.
Qed.

Lemma padStart_inj (a b : nat) :
  padStart 2 (toString a) = padStart 2 (toString b) → a = b.
Proof.
  assert (Hmixed : ∀ x y, x < 10 → 10 ≤ y →
            padStart 2 (toString x) ≠ padStart 2 (toString y)).
  { intros x y Hx Hy Heq. rewrite padStart_short in Heq by done.
    destruct (decide (y < 100)).
    - rewrite padStart_two in Heq by lia.
      destruct (toString_two_digits y) as [Hy2 Hlead]; [lia |].
      rewrite Hy2 in Heq. by injection Heq as Hc _.
    - rewrite padStart_long in Heq by lia.
      pose proof (toString_long y ltac:(lia)) as Hlen.
      rewrite <- Heq in Hlen. simpl in Hlen. lia. }
  assert (Hplain : ∀ y, 10 ≤ y → padStart 2 (toString y) = toString y).
  { intros y Hy. destruct (decide (y < 100));
      [apply padStart_two | apply padStart_long]; lia. }
  intros Heq. destruct (decide (a < 10)), (decide (b < 10)).
  - rewrite !padStart_short in Heq by done. injection Heq as Hc.
    apply pretty_N_char_inj in Hc; lia.
  - by destruct (Hmixed a b ltac:(lia) ltac:(lia)).
  - by destruct (Hmixed b a ltac:(lia) ltac:(lia)).
  - rewrite !Hplain in Heq by lia. by apply (inj pretty) in Heq.
Qed.

Lemma app_string_nil (t : string) : "" +:+ t = t.
Proof. reflexivity. Qed.

Lemma app_string_cons (c : ascii) (s t : string) :
  String c s +:+ t = String c (s +:+ t).
Proof. reflexivity. Qed.

Lemma length_app_string (s t : string) :
  String.length (s +:+ t) = String.length s + String.length t.
Proof.
  induction s as [| c s IH]; [done |].
  rewrite app_string_cons. simpl. by rewrite IH.
Qed.

Lemma app_string_inj (s1 s2 t1 t2 : string) :
  String.length t1 = String.length t2 →
  s1 +:+ t1 = s2 +:+ t2 → s1 = s2 ∧ t1 = t2.
Proof.
  intros Hlen. revert s2. induction s1 as [| c s1 IH]; intros [| d s2] Heq.
  - by rewrite !app_string_nil in Heq.
  - apply (f_equal String.length) in Heq.
    rewrite !length_app_string in Heq. simpl in Heq. lia.
  - apply (f_equal String.length) in Heq.
    rewrite !length_app_string in Heq. simpl in Heq. lia.
  - rewrite !app_string_cons in Heq. injection Heq as -> Heq.
    by destruct (IH _ Heq) as [-> ->].
Qed.

(** X17.  Below a hundred hours the footer shows the elapsed time on
    exactly eight characters, two digits each for the hours, the minutes
    and the seconds, with a colon after the second and the fifth. *)
Theorem formatDuration_shape (seconds : nat) :
  seconds < 100 * 3600 →
  ∃ h1 h2 m1 m2 s1 s2,
    formatDuration seconds
    = String h1 (String h2 (String ":"
        (String m1 (String m2 (String ":" (String s1 (String s2 "")))))))
    ∧ padStart 2 (toString (seconds / 3600)) = String h1 (String h2 "")
    ∧ padStart 2 (toString (seconds mod 3600 / 60)) = String m1 (String m2 "")
    ∧ padStart 2 (toString (seconds mod 60)) = String s1 (String s2 "").
Proof.
  intros Hlt.
  destruct (padStart_pair (seconds / 3600)) as (h1 & h2 & Hh).
  { apply Nat.Div0.div_lt_upper_bound. lia. }
  destruct (padStart_pair (seconds mod 3600 / 60)) as (m1 & m2 & Hm).
  { apply Nat.Div0.div_lt_upper_bound.
    pose proof (Nat.mod_upper_bound seconds 3600). lia. }
  destruct (padStart_pair (seconds mod 60)) as (s1 & s2 & Hs).
  { pose proof (Nat.mod_upper_bound seconds 60). lia. }
  exists h1, h2, m1, m2, s1, s2. unfold formatDuration.
  rewrite Hh, Hm, Hs. done.
Qed.

Lemma formatDuration_shape_witness :
  ∃ h1 h2 m1 m2 s1 s2,
    formatDuration 3725
    = String h1 (String h2 (String ":"
        (String m1 (String m2 (String ":" (String s1 (String s2 "")))))))
    ∧ padStart 2 (toString (3725 / 3600)) = String h1 (String h2 "")
    ∧ padStart 2 (toString (3725 mod 3600 / 60)) = String m1 (String m2 "")
    ∧ padStart 2 (toString (3725 mod 60)) = String s1 (String s2 "").
Proof. apply (formatDuration_shape 3725). lia. Defined.

Example formatDuration_3725 : formatDuration 3725 = "01:02:05".
Proof. by vm_compute. Qed.

Example formatDuration_100_hours : formatDuration (100 * 3600) = "100:00:00".
Proof. by vm_compute. Qed.

(** X18.  The footer never shows the same text for two different elapsed
    times, a hundred hours and more included. *)
Theorem formatDuration_inj (a b : nat) :
  formatDuration a = formatDuration b → a = b.
Proof.
  unfold formatDuration. intros Heq.
  destruct (padStart_pair (a mod 3600 / 60)) as (m1 & m2 & Hma).
  { apply Nat.Div0.div_lt_upper_bound.
    pose proof (Nat.mod_upper_bound a 3600). lia. }
  destruct (padStart_pair (b mod 3600 / 60)) as (n1 & n2 & Hmb).
  { apply Nat.Div0.div_lt_upper_bound.
    pose proof (Nat.mod_upper_bound b 3600). lia. }
  destruct (padStart_pair (a mod 60)) as (s1 & s2 & Hsa).
  { pose proof (Nat.mod_upper_bound a 60). lia. }
  destruct (padStart_pair (b mod 60)) as (t1 & t2 & Hsb).
  { pose proof (Nat.mod_upper_bound b 60). lia. }
  apply app_string_inj in Heq as [Hh Hrest].
  2: { rewrite Hma, Hmb, Hsa, Hsb. done. }
  apply padStart_inj in Hh.
  assert (Hm : a mod 3600 / 60 = b mod 3600 / 60).
  { apply padStart_inj. rewrite Hma, Hmb in *. rewrite Hsa, Hsb in Hrest.
    simpl in Hrest. by injection Hrest as -> ->. }
  assert (Hs : a mod 60 = b mod 60).
  { apply padStart_inj. rewrite Hsa, Hsb in *. rewrite Hma, Hmb in Hrest.
    simpl in Hrest. by injection Hrest as _ _ -> ->. }
  pose proof (Nat.div_mod_eq a 3600) as Ha.
  pose proof (Nat.div_mod_eq b 3600) as Hb.
  pose proof (Nat.div_mod_eq (a mod 3600) 60) as Ha'.
  pose proof (Nat.div_mod_eq (b mod 3600) 60) as Hb'.
  assert (Hmm : ∀ x, x mod 3600 mod 60 = x mod 60).
  { intros x. change 3600 with (60 * 60).
    rewrite Nat.Div0.mod_mul_r. rewrite Nat.Div0.add_mod, Nat.mul_comm.
    rewrite Nat.Div0.mod_mul, Nat.add_0_r. by rewrite !Nat.Div0.mod_mod. }
  rewrite Hmm in Ha', Hb'. lia.
Qed.

Lemma formatDuration_inj_witness :
  formatDuration 75 = formatDuration (60 + 15) ∧ 75 = 60 + 15.
Proof.
  split; [reflexivity | apply (formatDuration_inj 75 (60 + 15)); reflexivity].
Defined.

End ConsoleFacts.

(** * Properties of the stores of [App] *)

Section DirectoryFacts.

Import Directory.

Context {A : Type} `{Identified A}.

Implicit Types (x y : A) (prev : list A) (key : string).

Lemma hasId_true key y : hasId key y = true ↔ ident y = key.
Proof. apply String.eqb_eq. Qed.

Lemma hasId_false key y : hasId key y = false ↔ ident y ≠ key.
Proof. apply String.eqb_neq. Qed.

Lemma insert_middle (before : list A) y x (after : list A) :
  <[length before := x]> (before ++ y :: after) = before ++ x :: after.
Proof.
  rewrite insert_app_r_alt by lia. by rewrite Nat.sub_diag.
Qed.

(** The two ways of a save: a new identifier goes to the end, a known one
    replaces the first record that has it. *)
Lemma saveRecord_cases x prev :
  (Forall (λ y, hasId (ident x) y = false) prev
   ∧ saveRecord x prev = prev ++ [x])
  ∨ (∃ before y after,
       prev = before ++ y :: after
       ∧ Forall (λ y, hasId (ident x) y = false) before
       ∧ ident y = ident x
       ∧ saveRecord x prev = before ++ x :: after).
Proof.
  unfold saveRecord.
  destruct (List.find (hasId (ident x)) prev) as [y |] eqn:Hfind.
  - right. apply find_first_split in Hfind as (before & after & -> & Hall & Hy).
    exists before, y, after. repeat split; [done | by apply hasId_true |].
    rewrite (findIndex_first _ _ _ _ Hall Hy).
    destruct (Z.gtb_spec (Z.of_nat (length before)) (-1)); [| lia].
    rewrite Nat2Z.id. apply insert_middle.
  - left. apply find_nothing in Hfind. split; [done |].
    by rewrite (findIndex_none _ _ Hfind).
Qed.

Lemma find_app_bool (f : A → bool) (l1 l2 : list A) :
  List.find f (l1 ++ l2)
  = match List.find f l1 with
    | Some y => Some y
    | None => List.find f l2
    end.
Proof.
  induction l1 as [| y l1 IH]; simpl; [done |]. by destruct (f y).
Qed.

(** X19.  A saved record is found under its identifier, whether it was new
    or replaced an older one, and every other identifier finds what it
    found before. *)
Theorem save_then_find x prev key :
  findRecord key (saveRecord x prev)
  = if String.eqb (ident x) key then Some x else findRecord key prev.
Proof.
  unfold findRecord.
  assert (Hx : hasId (ident x) x = true) by by apply hasId_true.
  destruct (String.eqb_spec (ident x) key) as [<- | Hne].
  - destruct (saveRecord_cases x prev)
      as [[Hall ->] | (before & y & after & -> & Hall & _ & ->)].
    + rewrite find_app_bool. apply find_nothing in Hall as ->. simpl. by rewrite Hx.
    + by apply find_first.
  - assert (Hxk : hasId key x = false) by by apply hasId_false.
    destruct (saveRecord_cases x prev)
      as [[Hall ->] | (before & y & after & -> & Hall & Hy & ->)].
    + rewrite find_app_bool. simpl. rewrite Hxk.
      by destruct (List.find (hasId key) prev).
    + rewrite !find_app_bool. simpl. rewrite Hxk.
      assert (hasId key y = false) as -> by (apply hasId_false; congruence).
      done.
Qed.

Lemma replace_nodup {B : Type} (l1 : list B) (b c : B) (l2 : list B) :
  NoDup (l1 ++ b :: l2) → c ∉ l1 → c ∉ l2 → NoDup (l1 ++ c :: l2).
Proof.
  rewrite !NoDup_app, !NoDup_cons. intros (H1 & Hcross & Hb & H2) Hc1 Hc2.
  split; [done |]. split; [| done].
  intros z Hz Hin. apply elem_of_cons in Hin as [-> | Hin]; [done |].
  apply (Hcross z Hz). by right.
Qed.

(** X20.  Saving keeps the identifiers of a store pairwise distinct, adds
    one record when the identifier is new and none when it is known. *)
Theorem save_keeps_ids_unique x prev :
  NoDup (ident <$> prev) →
  NoDup (ident <$> saveRecord x prev)
  ∧ length (saveRecord x prev)
    = if bool_decide (ident x ∈ ident <$> prev) then length prev
      else S (length prev).
Proof.
  intros Hnodup.
  destruct (saveRecord_cases x prev)
    as [[Hall ->] | (before & y & after & -> & Hall & Hy & ->)].
  - assert (Hnew : ident x ∉ ident <$> prev).
    { intros Hin. apply list_elem_of_fmap in Hin as (y & Hy & Hin).
      rewrite Forall_forall in Hall. specialize (Hall y Hin).
      apply hasId_false in Hall. congruence. }
    split.
    + rewrite fmap_app. apply NoDup_app. split; [done |].
      split; [| by apply NoDup_singleton].
      intros z Hz Hin. apply list_elem_of_singleton in Hin as ->. done.
    + rewrite bool_decide_eq_false_2 by done. rewrite length_app. simpl. lia.
  - split.
    + rewrite fmap_app, fmap_cons in *. rewrite <- Hy. done.
    + rewrite bool_decide_eq_true_2.
      * rewrite !length_app. done.
      * rewrite fmap_app, fmap_cons, <- Hy. apply elem_of_app. right. by left.
Qed.

(** X21.  Of two saves under one identifier the last one wins, and the
    first one leaves no trace: saving [x] and then [x'] gives what saving
    [x'] alone gives.  In particular a save done twice changes nothing the
    second time. *)
Theorem last_save_wins x x' prev :
  ident x' = ident x →
  saveRecord x' (saveRecord x prev) = saveRecord x' prev.
Proof.
  intros Hid.
  assert (Hx : hasId (ident x') x = true) by by apply hasId_true.
  destruct (saveRecord_cases x prev)
    as [[Hall ->] | (before & y & after & -> & Hall & Hy & ->)];
    rewrite <- Hid in Hall.
  - destruct (saveRecord_cases x' prev) as [[_ ->] | (b & y & a & -> & _ & Hy & _)].
    + unfold saveRecord. rewrite (findIndex_first _ _ _ [] Hall Hx).
      destruct (Z.gtb_spec (Z.of_nat (length prev)) (-1)); [| lia].
      rewrite Nat2Z.id. apply insert_middle.
    + apply Forall_app in Hall as [_ Hall]. apply Forall_cons in Hall as [Hn _].
      apply hasId_false in Hn. congruence.
  - unfold saveRecord.
    assert (Hy' : hasId (ident x') y = true) by (apply hasId_true; congruence).
    rewrite (findIndex_first _ _ _ after Hall Hx).
    rewrite (findIndex_first _ _ _ after Hall Hy').
    destruct (Z.gtb_spec (Z.of_nat (length before)) (-1)); [| lia].
    rewrite Nat2Z.id. by rewrite !insert_middle.
Qed.

Lemma find_filter_other (f g : A → bool) (l : list A) :
  (∀ y, f y = true → g y = true) →
  List.find f (List.filter g l) = List.find f l.
Proof.
  intros Himp. induction l as [| y l IH]; [done |]. simpl.
  destruct (f y) eqn:Hf.
  - rewrite (Himp y Hf). simpl. by rewrite Hf.
  - destruct (g y); simpl; by rewrite ?Hf, IH.
Qed.

Lemma delete_absent key prev :
  key ∉ ident <$> prev → deleteRecord key prev = prev.
Proof.
  intros Hnot. unfold deleteRecord.
  induction prev as [| y prev IH]; [done |].
  rewrite fmap_cons in Hnot. apply not_elem_of_cons in Hnot as [Hy Hrest].
  simpl. assert (hasId key y = false) as -> by (apply hasId_false; congruence).
  simpl. by rewrite IH.
Qed.

(** X22.  After a delete no record of the store has the deleted
    identifier, so it finds nothing; every other identifier finds what it
    found before; and deleting an identifier that the store does not have
    changes nothing. *)
Theorem delete_then_find key prev :
  Forall (λ y, ident y ≠ key) (deleteRecord key prev)
  ∧ (∀ other,
       findRecord other (deleteRecord key prev)
       = if String.eqb other key then None else findRecord other prev)
  ∧ (key ∉ ident <$> prev → deleteRecord key prev = prev).
Proof.
  assert (Hgone : Forall (λ y, ident y ≠ key) (deleteRecord key prev)).
  { rewrite Forall_forall. intros y Hy.
    apply list_elem_of_In, filter_In in Hy as [_ Hy].
    by apply Bool.negb_true_iff, hasId_false in Hy. }
  split; [done |]. split.
  - intros other. unfold findRecord.
    destruct (String.eqb_spec other key) as [-> | Hne].
    + apply find_nothing. eapply Forall_impl; [exact Hgone |].
      intros y Hy. by apply hasId_false.
    + apply find_filter_other. intros y Hy. apply hasId_true in Hy.
      apply Bool.negb_true_iff, hasId_false. congruence.
  - apply delete_absent.
Qed.

(** X23.  Saving a record under a new identifier and deleting that
    identifier gives the store back as it was. *)
Theorem save_delete_round_trip x prev :
  ident x ∉ ident <$> prev →
  deleteRecord (ident x) (saveRecord x prev) = prev.
Proof.
  intros Hnew.
  destruct (saveRecord_cases x prev)
    as [[Hall ->] | (before & y & after & -> & _ & Hy & _)].
  - unfold deleteRecord. rewrite List.filter_app. simpl.
    assert (hasId (ident x) x = true) as -> by by apply hasId_true.
    simpl. rewrite app_nil_r. by apply delete_absent.
  - destruct Hnew. rewrite fmap_app, fmap_cons, Hy.
    apply elem_of_app. right. by left.
Qed.

End DirectoryFacts.

Section CampaignFacts.

Import Session.

Implicit Types (a : Session.User) (cs : list Campaign) (c : Campaign).

Lemma save_keeps_ids_unique_witness :
  NoDup (Directory.ident <$> Directory.saveRecord Directory.sales demo_campaigns)
  ∧ length (Directory.saveRecord Directory.sales demo_campaigns)
    = if bool_decide (Directory.ident Directory.sales
                      ∈ Directory.ident <$> demo_campaigns)
      then length demo_campaigns else S (length demo_campaigns).
Proof.
  apply (save_keeps_ids_unique Directory.sales demo_campaigns).
  simpl. apply NoDup_singleton.
Defined.

Lemma last_save_wins_witness :
  Directory.saveRecord (Directory.relance "Relance 2" false)
    (Directory.saveRecord (Directory.relance "Relance 1" true) demo_campaigns)
  = Directory.saveRecord (Directory.relance "Relance 2" false) demo_campaigns.
Proof. by apply last_save_wins. Defined.

Lemma save_delete_round_trip_witness :
  Directory.deleteRecord (Directory.ident Directory.sales)
    (Directory.saveRecord Directory.sales demo_campaigns)
  = demo_campaigns.
Proof.
  apply (save_delete_round_trip Directory.sales demo_campaigns).
  simpl. rewrite list_elem_of_In. simpl. intros [Heq | []]. discriminate.
Defined.

(** *** Campaigns and the console *)

Lemma find_fmap_same {B : Type} (p : B → bool) (f : B → B) (l : list B) :
  (∀ y, p (f y) = p y) → List.find p (f <$> l) = f <$> List.find p l.
Proof.
  intros Hp. induction l as [| y l IH]; [done |].
  rewrite fmap_cons. simpl. rewrite Hp. by destruct (p y).
Qed.

Lemma assigned_importInto a (campaignId : string) (newContacts : list Contact) c :
  assigned a (Directory.importInto campaignId newContacts c) = assigned a c.
Proof. unfold Directory.importInto. by destruct (String.eqb (campaign_id c) campaignId). Qed.

Lemma find_app_contacts (f : Contact → bool) (l1 l2 : list Contact) :
  List.find f (l1 ++ l2)
  = match List.find f l1 with
    | Some y => Some y
    | None => List.find f l2
    end.
Proof.
  induction l1 as [| y l1 IH]; simpl; [done |]. by destruct (f y).
Qed.

(** X24.  Importing contacts keeps the queue in order.  The console of an
    agent works on the same campaign after an import as before; the contact
    that a request for the next call selects is the one it selected before
    when there was one; and only when the queue had no pending contact does
    the request select the first pending one of the imported contacts, if
    the import was for this campaign. *)
Theorem import_keeps_queue_order a cs (campaignId : string)
    (newContacts : list Contact) :
  match agentCampaign a cs with
  | None => agentCampaign a (Directory.handleImportContacts campaignId newContacts cs) = None
  | Some c =>
      ∃ c',
        agentCampaign a (Directory.handleImportContacts campaignId newContacts cs) = Some c'
        ∧ campaign_id c' = campaign_id c
        ∧ List.find pending (contacts c')
          = match List.find pending (contacts c) with
            | Some next => Some next
            | None =>
                if String.eqb (campaign_id c) campaignId
                then List.find pending newContacts else None
            end
  end.
Proof.
  unfold agentCampaign, Directory.handleImportContacts.
  rewrite (find_fmap_same _ (Directory.importInto campaignId newContacts))
    by (intros y; apply assigned_importInto).
  destruct (List.find (assigned a) cs) as [c |]; [| done].
  exists (Directory.importInto campaignId newContacts c). split; [done |]. unfold Directory.importInto.
  destruct (String.eqb (campaign_id c) campaignId); simpl.
  - split; [done |]. apply find_app_contacts.
  - split; [done |]. by destruct (List.find pending (contacts c)).
Qed.

(** X25.  Deleting the campaign that is first in an agent's list leaves
    the console of the agent without a campaign, so that a request for the
    next call does nothing; deleting any other campaign leaves the console
    on the campaign it had. *)
Theorem delete_campaign_unassigns a cs (campaignId : string) :
  agentCampaign a (Directory.deleteRecord campaignId cs)
  = if bool_decide (head (Session.campaignIds a) = Some campaignId) then None
    else agentCampaign a cs.
Proof.
  unfold agentCampaign, Directory.deleteRecord. case_bool_decide as Hhead.
  - apply find_nothing. rewrite Forall_forall. intros c Hc.
    apply list_elem_of_In, filter_In in Hc as [_ Hc].
    apply Bool.negb_true_iff in Hc. unfold Directory.hasId in Hc. simpl in Hc.
    unfold assigned. rewrite Hhead. unfold Directory.ident, Directory.Campaign_identified in Hc.
    by rewrite Hc.
  - induction cs as [| c cs IH]; [done |]. simpl.
    destruct (assigned a c) eqn:Hassigned.
    + assert (Directory.hasId campaignId c = false) as ->.
      { apply String.eqb_neq. intros Heq. apply Hhead.
        unfold assigned in Hassigned.
        destruct (head (Session.campaignIds a)) as [first |]; [| done].
        apply andb_prop in Hassigned as [Hid _]. apply String.eqb_eq in Hid.
        unfold Directory.ident, Directory.Campaign_identified in Heq. congruence. }
      simpl. by rewrite Hassigned.
    + destruct (Directory.hasId campaignId c); simpl; by rewrite ?Hassigned, IH.
Qed.

Example delete_then_request :
  let w :=
    run [AppLogin; Click StartSession]
      (boot demo_agent (Directory.deleteRecord "c1" demo_campaigns)) in
  click NextCall w = w.
Proof. reflexivity. Qed.

End CampaignFacts.

Section UserFacts.

Import Directory.

Implicit Types (u user : User) (users : list User) (q : Qualification)
  (quals : list Qualification).

(** *** Qualification groups *)

Lemma includes_ids_true (ids : list string) (key : string) :
  includes ids key = true ↔ key ∈ ids.
Proof.
  unfold includes. rewrite existsb_exists. split.
  - intros (i & Hin & Heq). apply String.eqb_eq in Heq as ->.
    by apply list_elem_of_In.
  - intros Hin. exists key. split; [by apply list_elem_of_In |].
    apply String.eqb_refl.
Qed.

Lemma group_update_one (g : string) (ids : list string) q :
  let q' :=
    if includes ids (qual_id q) then setGroup (Some g) q
    else if inGroup g q && negb (includes ids (qual_id q))
         then setGroup None q else q in
  qual_id q' = qual_id q
  ∧ (inGroup g q' = true ↔ qual_id q ∈ ids)
  ∧ (qual_id q ∉ ids → inGroup g q = false → q' = q).
Proof.
  cbv zeta. rewrite <- !includes_ids_true.
  destruct (includes ids (qual_id q)) eqn:Hin; simpl.
  - split; [done |]. split; [| done]. split; [done |]. intros _.
    unfold inGroup. simpl. apply String.eqb_refl.
  - destruct (inGroup g q) eqn:Hg; simpl;
      (split; [done |]); (split; [| done]); rewrite ?Hg;
      split; (done || congruence).
Qed.

(** X26.  After the qualifications of a group are updated, a qualification
    is in the group exactly when its identifier is in the assigned list, and
    one that is neither assigned nor in the group is not touched; after a
    group is deleted, no qualification is in it, and the qualifications of
    other groups are not touched.  Both keep the order and the identifiers
    of the qualifications. *)
Theorem group_membership (g : string) (ids : list string) quals :
  Forall2 (λ q q',
      qual_id q' = qual_id q
      ∧ (inGroup g q' = true ↔ qual_id q ∈ ids)
      ∧ (qual_id q ∉ ids → inGroup g q = false → q' = q))
    quals (handleUpdateGroupQualifications g ids quals)
  ∧ Forall2 (λ q q',
        qual_id q' = qual_id q
        ∧ inGroup g q' = false
        ∧ (inGroup g q = false → q' = q))
      quals (unassignGroup g quals).
Proof.
  unfold handleUpdateGroupQualifications, unassignGroup. split.
  - induction quals as [| q quals IH]; [constructor |].
    rewrite fmap_cons. constructor; [| done]. apply group_update_one.
  - induction quals as [| q quals IH]; [constructor |].
    rewrite fmap_cons. constructor; [| done].
    destruct (inGroup g q) eqn:Hg; by repeat split.
Qed.

(** *** Users *)

Lemma same_id_same_user users u1 u2 :
  NoDup (id <$> users) → u1 ∈ users → u2 ∈ users → id u1 = id u2 → u1 = u2.
Proof.
  intros Hnodup H1 H2 Heq.
  apply list_elem_of_lookup in H1 as [i Hi]. apply list_elem_of_lookup in H2 as [j Hj].
  assert (i = j) as ->.
  { apply (NoDup_lookup (id <$> users) i j (id u1)); [done | |].
    - by rewrite list_lookup_fmap, Hi.
    - by rewrite list_lookup_fmap, Hj, Heq. }
  congruence.
Qed.

Lemma two_admins users user :
  NoDup (id <$> users) →
  2 ≤ length (List.filter isAdmin users) →
  ∃ other, other ∈ users ∧ isAdmin other = true ∧ id other ≠ id user.
Proof.
  intros Hnodup Hlen.
  assert (Hsub : ∀ y, y ∈ List.filter isAdmin users → y ∈ users ∧ isAdmin y = true).
  { intros y Hy. by apply elem_of_filter_bool in Hy. }
  assert (Hnd : NoDup (id <$> List.filter isAdmin users)).
  { clear -Hnodup. induction users as [| y users IH]; [done |].
    rewrite fmap_cons in Hnodup. apply NoDup_cons in Hnodup as [Hy Hrest].
    simpl. destruct (isAdmin y); [| by apply IH].
    rewrite fmap_cons. apply NoDup_cons. split; [| by apply IH].
    intros Hin. apply Hy. apply list_elem_of_fmap in Hin as (z & -> & Hz).
    apply list_elem_of_fmap_2. by apply elem_of_filter_bool in Hz as [? _]. }
  destruct (List.filter isAdmin users) as [| y1 [| y2 rest]]; simpl in Hlen;
    [lia | lia |].
  rewrite !fmap_cons in Hnd. apply NoDup_cons in Hnd as [Hne _].
  destruct (decide (id y1 = id user)) as [Heq | Hdiff].
  - exists y2. destruct (Hsub y2) as [? ?]; [right; by left |].
    repeat split; try done. intros Heq2. apply Hne. rewrite Heq, <- Heq2. by left.
  - exists y1. destruct (Hsub y1) as [? ?]; [by left |]. done.
Qed.

(** X27.  In a directory whose user identifiers are pairwise distinct, a
    press on the delete button of a listed user removes nobody but that
    user, and removes that user exactly when the user is inactive and is not
    the only administrator.  So no active user ever leaves the directory,
    whoever the button is pressed for, and a directory that had an
    administrator before the press has one after. *)
Theorem last_admin_stays users user :
  NoDup (id <$> users) →
  user ∈ users →
  (∀ u, u ∈ pressDelete user users
        ↔ u ∈ users
          ∧ (u = user →
             isActive user = true
             ∨ (isAdmin user = true ∧ length (List.filter isAdmin users) ≤ 1)))
  ∧ (∀ u, u ∈ users → isActive u = true → u ∈ pressDelete user users)
  ∧ (isActive user = true → pressDelete user users = users)
  ∧ (Exists (λ u, isAdmin u = true) users →
     Exists (λ u, isAdmin u = true) (pressDelete user users)).
Proof.
  intros Hnodup Huser.
  assert (Hmember : ∀ u, u ∈ pressDelete user users
            ↔ u ∈ users
              ∧ (u = user →
                 isActive user = true
                 ∨ (isAdmin user = true
                    ∧ length (List.filter isAdmin users) ≤ 1))).
  { intros u. unfold pressDelete, canDelete.
    assert (Hgone : u ∈ deleteRecord (id user) users ↔ u ∈ users ∧ u ≠ user).
    { unfold deleteRecord. rewrite elem_of_filter_bool. split.
      - intros [Hu Hne]. split; [done |]. intros ->.
        apply Bool.negb_true_iff, String.eqb_neq in Hne. done.
      - intros [Hu Hne]. split; [done |].
        apply Bool.negb_true_iff, String.eqb_neq. intros Heq. apply Hne.
        by apply (same_id_same_user users). }
    destruct (isActive user) eqn:Hactive; [by intuition |].
    destruct (isAdmin user) eqn:Hrole.
    - destruct (Nat.leb_spec (length (List.filter isAdmin users)) 1) as [Hle | Hgt];
        simpl.
      + by intuition.
      + rewrite Hgone. split.
        * intros [Hu Hne]. split; [done |]. by intros ->.
        * intros [Hu Hstay]. split; [done |]. intros ->.
          destruct (Hstay eq_refl) as [? | [_ ?]]; [done | lia].
    - rewrite Hgone. split.
      + intros [Hu Hne]. split; [done |]. by intros ->.
      + intros [Hu Hstay]. split; [done |]. intros ->.
        by destruct (Hstay eq_refl) as [? | [? _]]. }
  split; [exact Hmember |]. split; [| split].
  - intros u Hu Hactive. apply Hmember. split; [done |]. intros <-. by left.
  - unfold pressDelete, canDelete. by intros ->.
  - intros Hadmin. apply Exists_exists.
    assert (Hother : isActive user = false →
              (isAdmin user = true → 2 ≤ length (List.filter isAdmin users)) →
              ∃ other, other ∈ users ∧ isAdmin other = true ∧ other ≠ user).
    { intros Hactive Hcount. destruct (isAdmin user) eqn:Hrole.
      - destruct (two_admins users user Hnodup) as (other & ? & ? & Hne);
          [by apply Hcount |].
        exists other. repeat split; try done. by intros ->.
      - apply Exists_exists in Hadmin as (other & Hin & Hrole').
        exists other. repeat split; try done. intros ->. congruence. }
    destruct (isActive user) eqn:Hactive.
    { apply Exists_exists in Hadmin as (other & Hin & Hrole).
      exists other. split; [| done]. apply Hmember. split; [done |].
      intros _. by left. }
    destruct (decide (isAdmin user = true
                      ∧ length (List.filter isAdmin users) ≤ 1)) as [[? ?] | Hgo].
    { exists user. split; [| done]. apply Hmember. split; [done |].
      intros _. by right. }
    destruct Hother as (other & Hin & Hrole & Hne); [done | |].
    { intros Hrole. destruct (Nat.le_gt_cases (length (List.filter isAdmin users)) 1);
        [| lia]. by destruct Hgo. }
    exists other. split; [| done]. apply Hmember. split; [done |]. by intros ->.
Qed.

(** A press for the inactive administrator "u2" of an office with two
    administrators: "u2" goes, the active agent and the other administrator
    stay. *)
Lemma last_admin_stays_witness :
  NoDup (id <$> office)
  ∧ staff "u2" "1002" "Administrateur" false ∈ office
  ∧ (∀ u, u ∈ pressDelete (staff "u2" "1002" "Administrateur" false) office
          ↔ u ∈ office
            ∧ (u = staff "u2" "1002" "Administrateur" false →
               isActive (staff "u2" "1002" "Administrateur" false) = true
               ∨ (isAdmin (staff "u2" "1002" "Administrateur" false) = true
                  ∧ length (List.filter isAdmin office) ≤ 1)))
  ∧ (∀ u, u ∈ office → isActive u = true →
          u ∈ pressDelete (staff "u2" "1002" "Administrateur" false) office)
  ∧ (isActive (staff "u2" "1002" "Administrateur" false) = true →
     pressDelete (staff "u2" "1002" "Administrateur" false) office = office)
  ∧ (Exists (λ u, isAdmin u = true) office →
     Exists (λ u, isAdmin u = true)
       (pressDelete (staff "u2" "1002" "Administrateur" false) office)).
Proof.
  assert (Hnodup : NoDup (id <$> office)).
  { simpl. repeat constructor; rewrite ?list_elem_of_In; simpl;
      intuition discriminate. }
  assert (Hin : staff "u2" "1002" "Administrateur" false ∈ office)
    by (right; by left).
  split; [exact Hnodup |]. split; [exact Hin |].
  exact (last_admin_stays office (staff "u2" "1002" "Administrateur" false)
           Hnodup Hin).
Defined.

Example press_removes_one_user :
  pressDelete (staff "u2" "1002" "Administrateur" false) office
  = [staff "u1" "1001" "Administrateur" false; staff "u3" "1003" "Agent" true].
Proof. reflexivity. Qed.

Example last_admin_cannot_go :
  pressDelete (staff "u2" "1002" "Administrateur" false)
    (pressDelete (staff "u1" "1001" "Administrateur" false) office)
  = [staff "u2" "1002" "Administrateur" false; staff "u3" "1003" "Agent" true].
Proof. reflexivity. Qed.

(** *** The user form *)

Lemma loginIdExists_false users (formData : User) :
  loginIdExists users formData = false →
  ∀ u, u ∈ users → loginId u = loginId formData → id u = id formData.
Proof.
  intros Hnone u Hu Hlogin. unfold loginIdExists in Hnone.
  destruct (String.eqb_spec (id u) (id formData)) as [? | Hne]; [done |].
  assert (existsb (λ u, String.eqb (loginId u) (loginId formData)
                        && negb (String.eqb (id u) (id formData))) users = true);
    [| congruence].
  apply existsb_exists. exists u. split; [by apply list_elem_of_In |].
  apply andb_true_intro. split; [by apply String.eqb_eq |].
  apply Bool.negb_true_iff. by apply String.eqb_neq.
Qed.

(** X28.  The user form never gives one login to two users.  In a
    directory whose identifiers and whose logins are pairwise distinct, a
    submitted form is refused exactly when another user has its login;
    otherwise it is stored under its identifier, and the identifiers and
    the logins of the directory are still pairwise distinct. *)
Theorem submit_keeps_logins_unique (isEmailEnabled : bool) (formData : User) users :
  NoDup (id <$> users) →
  NoDup (loginId <$> users) →
  match handleSubmit isEmailEnabled formData users with
  | inl users' =>
      NoDup (id <$> users') ∧ NoDup (loginId <$> users')
      ∧ findRecord (id formData) users' = Some (withEmail isEmailEnabled formData)
  | inr _ =>
      ∃ u, u ∈ users ∧ loginId u = loginId formData ∧ id u ≠ id formData
  end.
Proof.
  intros Hids Hlogins. unfold handleSubmit.
  destruct (loginIdExists users formData) eqn:Hexists.
  - apply existsb_exists in Hexists as (u & Hu & Hboth).
    apply andb_prop in Hboth as [Hl Hi]. exists u.
    split; [by apply list_elem_of_In |].
    split; [by apply String.eqb_eq |].
    by apply Bool.negb_true_iff, String.eqb_neq in Hi.
  - pose proof (loginIdExists_false users formData Hexists) as Hsame.
    set (x := withEmail isEmailEnabled formData).
    assert (Hfound : findRecord (id formData) (saveRecord x users) = Some x).
    { unfold findRecord.
      assert (Hx : hasId (ident x) x = true) by by apply hasId_true.
      destruct (saveRecord_cases x users)
        as [[Hall ->] | (before & y & after & -> & Hall & _ & ->)].
      - rewrite find_app_bool. apply find_nothing in Hall.
        change (ident x) with (id formData) in *. rewrite Hall. simpl.
        by rewrite Hx.
      - by apply find_first. }
    split; [| split; [| done]].
    + destruct (saveRecord_cases x users)
        as [[Hall ->] | (before & y & after & -> & Hall & Hy & ->)].
      * rewrite fmap_app. apply NoDup_app. split; [done |].
        split; [| by apply NoDup_singleton].
        intros i Hi Hin. apply list_elem_of_singleton in Hin as ->.
        apply list_elem_of_fmap in Hi as (u & Hu & Hin).
        rewrite Forall_forall in Hall. specialize (Hall u Hin).
        apply hasId_false in Hall. by destruct Hall.
      * rewrite fmap_app, fmap_cons in *.
        change (id x) with (ident x). by rewrite <- Hy.
    + destruct (saveRecord_cases x users)
        as [[Hall ->] | (before & y & after & -> & Hall & Hy & ->)].
      * rewrite fmap_app. apply NoDup_app. split; [done |].
        split; [| by apply NoDup_singleton].
        intros l Hl Hin. apply list_elem_of_singleton in Hin as ->.
        apply list_elem_of_fmap in Hl as (u & Hu & Hin).
        rewrite Forall_forall in Hall. specialize (Hall u Hin).
        apply hasId_false in Hall. apply Hall.
        change (ident u = id formData). apply Hsame; [done |]. by rewrite <- Hu.
      * rewrite fmap_app, fmap_cons in *.
        assert (Hother : ∀ u, u ∈ before ∨ u ∈ after → loginId u ≠ loginId x).
        { intros u Hu Hl.
          assert (Hin : u ∈ before ++ y :: after).
          { apply elem_of_app. destruct Hu; [by left | right; by right]. }
          pose proof (Hsame u Hin Hl) as Hid.
          apply NoDup_app in Hids as (_ & Hcross & Hrest).
          apply NoDup_cons in Hrest as [Hy' _].
          change (ident y = id formData) in Hy.
          destruct Hu as [Hu | Hu].
          - apply (Hcross (id u)); [by apply list_elem_of_fmap_2 |].
            rewrite Hid, <- Hy. by left.
          - apply Hy'. unfold ident, User_identified in Hy. rewrite Hy, <- Hid.
            by apply list_elem_of_fmap_2. }
        apply (replace_nodup _ (loginId y)); [done | |].
        -- intros Hin. apply list_elem_of_fmap in Hin as (u & Hl & Hu).
           apply (Hother u); [by left | done].
        -- intros Hin. apply list_elem_of_fmap in Hin as (u & Hl & Hu).
           apply (Hother u); [by right | done].
Qed.

Lemma submit_keeps_logins_unique_witness :
  match handleSubmit false (staff "u3" "1004" "Agent" true) office with
  | inl users' =>
      NoDup (id <$> users') ∧ NoDup (loginId <$> users')
      ∧ findRecord (id (staff "u3" "1004" "Agent" true)) users'
        = Some (withEmail false (staff "u3" "1004" "Agent" true))
  | inr _ =>
      ∃ u, u ∈ office
           ∧ loginId u = loginId (staff "u3" "1004" "Agent" true)
           ∧ id u ≠ id (staff "u3" "1004" "Agent" true)
  end.
Proof.
  apply (submit_keeps_logins_unique false (staff "u3" "1004" "Agent" true) office);
    simpl; repeat constructor; rewrite ?list_elem_of_In; simpl;
    intuition discriminate.
Defined.

Example submit_taken_login :
  handleSubmit true (staff "u3" "1001" "Agent" true) office
  = inr "L'identifiant / extension existe déjà pour un autre utilisateur.".
Proof. reflexivity. Qed.

(** *** The campaigns of a user *)

Lemma unique_spec (seen l : list string) :
  NoDup (unique seen l) ∧ ∀ x, x ∈ unique seen l ↔ x ∈ l ∧ x ∉ seen.
Proof.
  revert seen. induction l as [| y l IH]; intros seen; simpl.
  - split; [constructor |]. intros x. split; [by intros ?%elem_of_nil |].
    by intros [?%elem_of_nil _].
  - destruct (includes seen y) eqn:Hseen.
    + apply includes_ids_true in Hseen. destruct (IH seen) as [Hnd Hin].
      split; [done |]. intros x. rewrite Hin, elem_of_cons.
      split; [tauto |]. intros [[-> | ?] ?]; tauto.
    + assert (Hnot : y ∉ seen).
      { rewrite <- includes_ids_true. congruence. }
      destruct (IH (y :: seen)) as [Hnd Hin]. split.
      * apply NoDup_cons. split; [| done]. rewrite Hin, elem_of_cons. tauto.
      * intros x. rewrite !elem_of_cons, Hin, elem_of_cons.
        destruct (decide (x = y)) as [-> | Hne]; tauto.
Qed.

(** X29.  Ticking a campaign in the user form puts it in the list of the
    user once, removes any repetition the list had, and keeps the first
    campaign of a list that had one first, which is the campaign that the
    console of the user works on; unticking it removes every occurrence of
    it and nothing else. *)
Theorem campaign_tick (campaignId : string) (current : list string) :
  NoDup (handleCampaignChange campaignId true current)
  ∧ (∀ x, x ∈ handleCampaignChange campaignId true current
          ↔ x ∈ current ∨ x = campaignId)
  ∧ head (handleCampaignChange campaignId true current)
    = Some (default campaignId (head current))
  ∧ (∀ x, x ∈ handleCampaignChange campaignId false current
          ↔ x ∈ current ∧ x ≠ campaignId).
Proof.
  unfold handleCampaignChange.
  destruct (unique_spec [] (current ++ [campaignId])) as [Hnd Hin].
  split; [done |]. split; [| split].
  - intros x. rewrite Hin, elem_of_app, list_elem_of_singleton.
    split; [tauto |]. intros Hx. split; [done |]. apply not_elem_of_nil.
  - by destruct current.
  - intros x. rewrite elem_of_filter_bool, Bool.negb_true_iff.
    by rewrite String.eqb_neq.
Qed.

(** *** Generated users *)

Lemma nextFree_search (fuel : nat) (E : gset string) (next j : nat) :
  j < fuel → pretty (next + j) ∉ E →
  ∃ n, nextFree fuel E next = Some n ∧ next ≤ n ∧ pretty n ∉ E.
Proof.
  revert next j. induction fuel as [| fuel IH]; intros next j Hj Hfree; [lia |].
  simpl. case_bool_decide as Hused.
  - destruct j as [| j]; [by rewrite Nat.add_0_r in Hfree |].
    destruct (IH (S next) j) as (n & -> & Hn & Hfresh); [lia | |].
    + by replace (S next + j) with (next + S j) by lia.
    + exists n. split; [done |]. split; [lia | done].
  - by exists next.
Qed.

(** Among one more consecutive numbers than the set has elements, the
    numeral of one is not in the set. *)
Lemma some_numeral_is_free (E : gset string) (next : nat) :
  ∃ j, j < S (size E) ∧ pretty (next + j) ∉ E.
Proof.
  destruct (decide (Forall (λ m : nat, pretty m ∈ E) (seq next (S (size E)))))
    as [Hall | Hsome].
  - assert (Hsub : list_to_set (pretty <$> seq next (S (size E))) ⊆ E).
    { intros s Hs. apply elem_of_list_to_set, list_elem_of_fmap in Hs
        as (m & -> & Hm).
      rewrite Forall_forall in Hall. by apply Hall. }
    apply subseteq_size in Hsub. rewrite size_list_to_set in Hsub.
    + rewrite length_fmap, length_seq in Hsub. lia.
    + apply NoDup_fmap_2; [apply _ | apply NoDup_seq].
  - apply not_Forall_Exists in Hsome; [| apply _].
    apply Exists_exists in Hsome as (m & Hm & Hfree).
    apply elem_of_seq in Hm. exists (m - next). split; [lia |].
    by replace (next + (m - next)) with m by lia.
Qed.

Lemma nextFree_total (E : gset string) (next : nat) :
  ∃ n, nextFree (S (size E)) E next = Some n ∧ next ≤ n ∧ pretty n ∉ E.
Proof.
  destruct (some_numeral_is_free E next) as (j & Hj & Hfree).
  by apply (nextFree_search _ E next j).
Qed.

Lemma generate_fresh (count i : nat) (clock : nat → nat) (E : gset string)
    (next : nat) :
  ∃ newUsers,
    generate count i clock E next = Some newUsers
    ∧ length newUsers = count
    ∧ NoDup (loginId <$> newUsers)
    ∧ Forall (λ u, (loginId u ∉ E)
                   ∧ (∃ n, next ≤ n ∧ loginId u = pretty n)
                   ∧ role u = "Agent" ∧ isActive u = true
                   ∧ campaignIds u = []) newUsers.
Proof.
  revert i E next. induction count as [| count IH]; intros i E next.
  - exists []. repeat split; constructor.
  - cbn [generate]. destruct (nextFree_total E next) as (n & -> & Hn & Hfree).
    destruct (IH (S i) ({[ pretty n ]} ∪ E) n) as (rest & Hrun & Hlen & Hnd & Hall).
    cbv zeta. cbn [loginId newUser]. rewrite Hrun. cbn [fmap option_fmap option_map].
    eexists. split; [done |].
    split; [simpl; lia |]. split.
    + rewrite fmap_cons. apply NoDup_cons. split; [| done]. simpl.
      intros Hin. apply list_elem_of_fmap in Hin as (u & Hu & Hin).
      rewrite Forall_forall in Hall. destruct (Hall u Hin) as (Hnot & _).
      apply Hnot. rewrite <- Hu. apply elem_of_union. left.
      by apply elem_of_singleton.
    + constructor.
      * simpl. repeat split; try done. by exists n.
      * eapply Forall_impl; [exact Hall |]. simpl.
        intros u (Hnot & (m & Hm & Hlogin) & Hrest).
        split; [intros Hin; apply Hnot, elem_of_union; by right |].
        split; [| done]. exists m. split; [lia | done].
Qed.

(** X30.  Generating users always ends, and it adds exactly the number of
    users asked for after the users that were there; their logins are the
    numerals of numbers from 1001 on, pairwise different and different from
    every login of the directory; they are active agents with no campaign. *)
Theorem generated_logins_are_fresh (count : nat) (clock : nat → nat) users :
  ∃ newUsers,
    handleGenerateUsers count clock users = Some (users ++ newUsers)
    ∧ length newUsers = count
    ∧ NoDup (loginId <$> newUsers)
    ∧ Forall (λ u, (loginId u ∉ loginId <$> users)
                   ∧ (∃ n, 1001 ≤ n ∧ loginId u = pretty n)
                   ∧ role u = "Agent" ∧ isActive u = true
                   ∧ campaignIds u = []) newUsers.
Proof.
  unfold handleGenerateUsers.
  destruct (generate_fresh count 0 clock (list_to_set (loginId <$> users)) 1001)
    as (newUsers & -> & Hlen & Hnd & Hall).
  exists newUsers. repeat split; try done.
  eapply Forall_impl; [exact Hall |]. simpl. intros u (Hnot & Hrest).
  split; [| done]. intros Hin. apply Hnot. by apply elem_of_list_to_set.
Qed.

Example generate_skips_taken_logins :
  (λ us : list User, loginId <$> us)
    <$> handleGenerateUsers 3 (λ _, 0) office
  = Some ["1001"; "1002"; "1003"; "1004"; "1005"; "1006"].
Proof. by vm_compute. Qed.

End UserFacts.
